(** * Seed-growth inversion engine of [fatiando.potential.harvester]

    A shallow embedding of the neighbour search, the acceptance policies
    (juries), the growth loop, the data module and the compactness
    regularizer of [src/fatiando/potential/harvester.py], and the
    properties established about them.

    The module holds two forms of the algorithm side by side: the functions
    [find_neighbors], [standard_jury], [shape_jury] and [grow] over one
    shared estimate, and the classes [DMPrism] and [SeedPrism] with the
    solver [_harvest_solver].  Both are embedded.

    Conventions of the embedding.
    - Cell indices and shape entries are Python integers: [Z].
    - Misfit, goal and property values are Python/numpy floats.  Wherever the
      code only adds, subtracts, multiplies, divides and compares them they
      are modelled as exact rationals ([Q]), which keeps every definition
      executable.  The regularizer takes a square root and is modelled over
      the reals ([R]) in its own module.
    - A Python dictionary of physical properties is a [gmap string Q].
    - [numpy] is used throughout the module although the file does not import
      it; it is read as the numpy library ([numpy.argmin] is the index of the
      first minimal element).
    - Exceptions are explicit: fallible functions return a sum or an option.
      A float division by zero and an integer division by zero raise
      [ZeroDivisionError]; a name the module binds nowhere raises
      [NameError].
    - A method whose body is [pass] returns [None] and changes nothing. *)

From Stdlib Require Import ZArith QArith Qabs Qround Reals Lra Lia List.
From Stdlib Require Lqa.
From stdpp Require Import base option gmap strings list.

Local Open Scope Z_scope.

(** ** Data model *)

(** A right rectangular prism of the mesh, over a scalar type [F]. *)
Record Prism (F : Type) := mkPrism {
  x1 : F; x2 : F; y1 : F; y2 : F; z1 : F; z2 : F
}.
Arguments mkPrism {F}.
Arguments x1 {F}. Arguments x2 {F}.
Arguments y1 {F}. Arguments y2 {F}.
Arguments z1 {F}. Arguments z2 {F}.

(** The mesh object consumed by the module: [mesh.shape] is [(nz, ny, nx)],
    [mesh.dims] is unpacked by the code as [(dx, dy, dz)], [mesh.bounds] as
    [(x1, x2, y1, y2, z1, z2)], and [mesh[i]] is the [i]-th prism or [None]
    when the cell is masked. *)
Record Mesh (F : Type) := mkMesh {
  shape : Z * Z * Z;
  size : Z;
  dims : F * F * F;
  bounds : F * F * F * F * F * F;
  getitem : Z → option (Prism F)
}.
Arguments mkMesh {F}.
Arguments shape {F}. Arguments size {F}. Arguments dims {F}.
Arguments bounds {F}. Arguments getitem {F}.

(** Physical properties: name to value. *)
Abbreviation Props := (gmap string Q).

(** [{'index': n, 'props': props}]: a seed, or an entry returned by
    [find_neighbors]. *)
Record Cell := mkCell { index : Z; props : Props }.

(** A frontier entry: the cell together with its ['neighbors'] key, the
    result of [find_neighbors(n, mesh, full=True)] stored when the entry is
    created. *)
Record Neighbor := mkNeighbor { cell : Cell; around : list Cell }.

(** ** Grid index: [find_neighbors] *)

Section Grid.
Context {F : Type}.

(** [if a is not None and b is not None: append(f a b)] *)
Definition both2 (a b : option Z) (v : Z → Z → Z) : list Z :=
  match a, b with Some x, Some y => [v x y] | _, _ => [] end.

Definition both3 (a b c : option Z) (v : Z → Z → Z → Z) : list Z :=
  match a, b, c with Some x, Some y, Some z => [v x y z] | _, _, _ => [] end.

(** The six face neighbours, each [None] unless its test passes.  The
    names are those of the source; [left] and [right] carry a quote because
    the bare names are constructors of the standard library. *)
Definition above (n : Z) (mesh : Mesh F) (up : bool) : option Z :=
  let '(nz, ny, nx) := shape mesh in
  if up && (0 <? n - nx * ny) then Some (n - nx * ny) else None.

Definition bellow (n : Z) (mesh : Mesh F) (down : bool) : option Z :=
  let '(nz, ny, nx) := shape mesh in
  if down && (n + nx * ny <? size mesh) then Some (n + nx * ny) else None.

Definition front (n : Z) (mesh : Mesh F) : option Z :=
  let '(nz, ny, nx) := shape mesh in
  if n mod nx <? nx - 1 then Some (n + 1) else None.

Definition back (n : Z) (mesh : Mesh F) : option Z :=
  let '(nz, ny, nx) := shape mesh in
  if negb (n mod nx =? 0) then Some (n - 1) else None.

Definition left' (n : Z) (mesh : Mesh F) : option Z :=
  let '(nz, ny, nx) := shape mesh in
  if n mod (nx * ny) <? nx * (ny - 1) then Some (n + nx) else None.

Definition right' (n : Z) (mesh : Mesh F) : option Z :=
  let '(nz, ny, nx) := shape mesh in
  if nx <=? n mod (nx * ny) then Some (n - nx) else None.

(** [indexes = [above, bellow, front, back, left, right]] *)
Definition face_indexes (n : Z) (mesh : Mesh F) (up down : bool)
  : list (option Z) :=
  [above n mesh up; bellow n mesh down; front n mesh; back n mesh;
   left' n mesh; right' n mesh].

(** The twenty diagonal neighbours appended when [full] is set. *)
Definition diagonal_indexes (n : Z) (mesh : Mesh F) (up down : bool) : list Z :=
  let '(nz, ny, nx) := shape mesh in
  let a := above n mesh up in
  let b := bellow n mesh down in
  let f := front n mesh in
  let k := back n mesh in
  let l := left' n mesh in
  let r := right' n mesh in
  both2 f l (λ _ l, l + 1) ++
  both2 f r (λ _ r, r + 1) ++
  both2 k l (λ _ l, l - 1) ++
  both2 k r (λ _ r, r - 1) ++
  both2 a l (λ a _, a + nx) ++
  both2 a r (λ a _, a - nx) ++
  both2 a f (λ a _, a + 1) ++
  both2 a k (λ a _, a - 1) ++
  both3 a f l (λ a _ _, a + nx + 1) ++
  both3 a f r (λ a _ _, a - nx + 1) ++
  both3 a k l (λ a _ _, a + nx - 1) ++
  both3 a k r (λ a _ _, a - nx - 1) ++
  both2 b l (λ b _, b + nx) ++
  both2 b r (λ b _, b - nx) ++
  both2 b f (λ b _, b + 1) ++
  both2 b k (λ b _, b - 1) ++
  both3 b f l (λ b _ _, b + nx + 1) ++
  both3 b f r (λ b _ _, b - nx + 1) ++
  both3 b k l (λ b _ _, b + nx - 1) ++
  both3 b k r (λ b _ _, b - nx - 1).

(** [i is not None and mesh[i] is not None] *)
Definition present (mesh : Mesh F) (i : option Z) : option Z :=
  match i with
  | Some j => if getitem mesh j is Some _ then Some j else None
  | None => None
  end.

(** The indices returned by [find_neighbors], masked cells filtered out. *)
Definition neighbor_indexes (n : Z) (mesh : Mesh F) (full up down : bool)
  : list Z :=
  let indexes :=
    face_indexes n mesh up down ++
    (if full then Some <$> diagonal_indexes n mesh up down else []) in
  omap (present mesh) indexes.

(** [find_neighbors(neighbor, mesh, full=False, up=True, down=True)]:
    every returned entry carries the properties of [neighbor]. *)
Definition find_neighbors (neighbor : Cell) (mesh : Mesh F)
    (full up down : bool) : list Cell :=
  (λ i, mkCell i (props neighbor)) <$>
    neighbor_indexes (index neighbor) mesh full up down.

(** A regular grid: positive shape and [size = nz * ny * nx]. *)
Definition mesh_wf (mesh : Mesh F) : Prop :=
  let '(nz, ny, nx) := shape mesh in
  0 < nz ∧ 0 < ny ∧ 0 < nx ∧ size mesh = nz * ny * nx.

End Grid.

(** ** Exceptions *)

(** The exceptions the modelled code can raise. *)
Inductive Exn :=
| ValueError (msg : string)
| IndexError
| KeyError
| TypeError
| NameError
| AttributeError
| ZeroDivisionError.

Inductive Result (A : Type) :=
| Ok (a : A)
| Raise (e : Exn).
Arguments Ok {A}. Arguments Raise {A}.

#[export] Instance result_ret : MRet Result := λ A a, Ok a.
#[export] Instance result_bind : MBind Result := λ A B k r,
  match r with Ok a => k a | Raise e => Raise e end.

(** [l[i]] on a Python list, for a non-negative [i]. *)
Definition item {A} (l : list A) (i : nat) : Result A :=
  match l !! i with Some a => Ok a | None => Raise IndexError end.

(** [x / y] on Python floats: a zero divisor raises [ZeroDivisionError].
    (On numpy scalars the quotient is [inf] or [nan] and a warning; the
    properties below that look at a quotient assume its divisor is not
    zero, and so hold of both kinds of float.) *)
Definition fdiv (x y : Q) : Result Q :=
  if Qeq_bool y 0 then Raise ZeroDivisionError else Ok (x / y)%Q.

(** A comprehension [[a for a in l if f(a)]] whose test can raise: the
    elements are tested in order and the first exception ends it. *)
Fixpoint filterM {A} (f : A → Result bool) (l : list A) : Result (list A) :=
  match l with
  | [] => Ok []
  | a :: l' =>
      b ← f a;
      rest ← filterM f l';
      Ok (if b : bool then a :: rest else rest)
  end.

(** The outcome of a test that did not raise. *)
Definition ok_true (r : Result bool) : bool :=
  match r with Ok b => b | Raise _ => false end.

(** ** The estimate *)

(** Modelled from the spec: [utils.SparseList] is not part of the sources at
    hand.  Section 3 of the specification describes it as a sparse array of
    the size of the mesh whose entries default to zero; it is a finite map
    from cell index to value, read with default [0]. *)
Definition sl_get (sl : gmap Z Q) (i : Z) : Q := default 0%Q (sl !! i).

(** [estimate[p][n]].  A property that is not a key of the estimate reads
    here as an empty sparse list, where the source raises [KeyError].
    [grow] creates the key of every seed property before any read and
    only ever reads the properties of its frontier ([frontier_declared]
    holds of all its states), so the two agree on the states of [grow];
    a property stated for other estimates says when it needs the keys. *)
Definition est_get (estimate : gmap string (gmap Z Q)) (p : string) (n : Z) : Q :=
  sl_get (default ∅ (estimate !! p)) n.

(** [estimate[p][n] = v]; for a property that is not a key, see
    [est_get]. *)
Definition est_set (estimate : gmap string (gmap Z Q)) (p : string) (n : Z) (v : Q)
  : gmap string (gmap Z Q) :=
  <[p := <[n := v]> (default ∅ (estimate !! p))]> estimate.

(** [for p in c['props']: estimate[p][c['index']] = c['props'][p]] *)
Definition set_props (estimate : gmap string (gmap Z Q)) (c : Cell)
  : gmap string (gmap Z Q) :=
  map_fold (λ p v e, est_set e p (index c) v) estimate (props c).

(** [for p in seed['props']: if p not in estimate: estimate[p] = SparseList(size)] *)
Definition declare_props (estimate : gmap string (gmap Z Q)) (c : Cell)
  : gmap string (gmap Z Q) :=
  map_fold (λ p _ e, if e !! p is Some _ then e else <[p := ∅]> e)
           estimate (props c).

(** [x != 0] on floats *)
Definition nonzero (x : Q) : bool := negb (Qeq_bool x 0).

(** [in_estimate(estimate, neighbor)] *)
Definition in_estimate (estimate : gmap string (gmap Z Q)) (neighbor : Cell) : bool :=
  existsb (λ pv, nonzero (est_get estimate pv.1 (index neighbor)))
          (map_to_list (props neighbor)).

(** [free_neighbors(estimate, neighbors)] *)
Definition free_neighbors (estimate : gmap string (gmap Z Q)) (neighbors : list Cell)
  : list Cell :=
  List.filter (λ n, negb (in_estimate estimate n)) neighbors.

(** [True in [p in pi for p in pj]]: some property name of [pj] is a key of
    [pi]. *)
Definition shares (pj pi : Props) : bool :=
  existsb (λ pv, bool_decide (is_Some (pi !! pv.1))) (map_to_list pj).

(** [in_tha_hood(neighborhood, neighbor)] *)
Definition in_tha_hood (neighborhood : list (list Neighbor)) (neighbor : Cell) : bool :=
  existsb (λ neighbors,
    existsb (λ tmp, (index neighbor =? index (cell tmp)) &&
                    shares (props neighbor) (props (cell tmp)))
            neighbors)
    neighborhood.

(** [not_neighbors(neighborhood, neighbors)] *)
Definition not_neighbors (neighborhood : list (list Neighbor)) (neighbors : list Cell)
  : list Cell :=
  List.filter (λ n, negb (in_tha_hood neighborhood n)) neighbors.

(** [is_compact(estimate, mesh, neighbor, compact)] *)
Definition is_compact (estimate : gmap string (gmap Z Q)) (neighbor : Neighbor)
    (compact : Z) : bool :=
  let free := free_neighbors estimate (around neighbor) in
  compact <=? Z.of_nat (length (around neighbor)) - Z.of_nat (length free).

(** How many of the cells stored under the ['neighbors'] key of a frontier
    entry are set in the estimate. *)
Definition committed_around (estimate : gmap string (gmap Z Q)) (neighbor : Neighbor) : Z :=
  Z.of_nat (length (List.filter (in_estimate estimate) (around neighbor))).

(** [n['neighbors'] = find_neighbors(n, mesh, full=True)] *)
Definition with_around {F} (mesh : Mesh F) (n : Cell) : Neighbor :=
  mkNeighbor n (find_neighbors n mesh true true true).

(** ** numpy helpers *)

(** [numpy.argmin]: the index of the first minimal element ([0] on the empty
    list, on which numpy raises; the juries only call it on non-empty
    lists). *)
Fixpoint argmin_from (best : Q) (besti : nat) (i : nat) (l : list Q) : nat :=
  match l with
  | [] => besti
  | x :: l' =>
      if Qlt_le_dec x best then argmin_from x i (S i) l'
      else argmin_from best besti (S i) l'
  end.

Definition argmin (l : list Q) : nat :=
  match l with
  | [] => 0%nat
  | x :: l' => argmin_from x 0 1 l'
  end.

(** Sum of a list of floats, as the builtin [sum] started at [0]. *)
Definition qsum (l : list Q) : Q := foldl Qplus 0%Q l.

(** [enumerate(l)] *)
Definition enumerate {A} (l : list A) : list (nat * A) := imap (λ i a, (i, a)) l.

(** [x < y] on floats *)
Definition Qltb (x y : Q) : bool := negb (Qle_bool y x).

(** ** Acceptance policies: [standard_jury] and [shape_jury] *)

(** The test both juries apply to a candidate value [m] against the current
    value [misfit]: [m < misfit and abs(m - misfit)/misfit >= thresh].  The
    conjunction is short-circuit: the quotient is only computed for a
    candidate below the current value. *)
Definition decreases (thresh misfit m : Q) : Result bool :=
  if Qltb m misfit then
    q ← fdiv (Qabs (m - misfit)) misfit;
    Ok (Qle_bool thresh q)
  else Ok false.

Section Juries.
(** The data modules handed to the juries of [grow] offer [new_predicted],
    [misfit] and [shape_of_anomaly]; the class that implements them is not
    among the sources, so the three methods are parameters.  So is the
    regularizer object: calling it gives a value and may fill its distance
    cache, [update] folds the chosen neighbour in. *)
Context {DMod Vec Reg : Type}.
Variable new_predicted : DMod → Neighbor → Vec.
Variable dm_misfit : DMod → Vec → Q.
Variable shape_of_anomaly : DMod → Vec → Q.
Variable reg_call : Reg → Neighbor → Cell → Q * Reg.
Variable reg_update : Reg → Neighbor → Reg.

(** [sum(dm.misfit(p) for dm, p in zip(datamods, pred[i]))] where
    [pred[i] = [dm.new_predicted(n, mesh) for dm in datamods]] *)
Definition candidate_misfit (datamods : list DMod) (n : Neighbor) : Q :=
  qsum ((λ dm, dm_misfit dm (new_predicted dm n)) <$> datamods).

(** [sum(dm.shape_of_anomaly(p) for dm, p in zip(datamods, pred[i]))] *)
Definition candidate_soa (datamods : list DMod) (n : Neighbor) : Q :=
  qsum ((λ dm, shape_of_anomaly dm (new_predicted dm n)) <$> datamods).

(** The regularizer called on each candidate in turn, left to right. *)
Fixpoint reg_calls (r : Reg) (seed : Cell) (cands : list Neighbor)
  : list Q * Reg :=
  match cands with
  | [] => ([], r)
  | n :: cands' =>
      let '(v, r1) := reg_call r n seed in
      let '(vs, r2) := reg_calls r1 seed cands' in
      (v :: vs, r2)
  end.

(** The candidates of [standard_jury] that pass the misfit filter:
    triples (position in [neighbors], the neighbour at that position, its
    total misfit).  The source keeps pairs [(i, m)] and reads
    [neighbors[i]] back; the neighbour is carried along here. *)
Definition standard_decreased (thresh : Q) (neighbors : list Neighbor)
    (datamods : list DMod) (misfit : Q) : Result (list (nat * Neighbor * Q)) :=
  let left := enumerate neighbors in
  let misfits := (λ '(i, n), (i, n, candidate_misfit datamods n)) <$> left in
  filterM (λ '(i, n, m), decreases thresh misfit m) misfits.

(** [goals] of [standard_jury], with the regularizer after the calls. *)
Definition standard_goals (regularizer : option Reg) (seed : Cell)
    (decreased : list (nat * Neighbor * Q)) : list Q * option Reg :=
  match regularizer with
  | Some r =>
      let '(regs, r') := reg_calls r seed ((λ c, c.1.2) <$> decreased) in
      (zip_with Qplus (snd <$> decreased) regs, Some r')
  | None => (snd <$> decreased, None)
  end.

(** The closure returned by [standard_jury(regularizer, thresh, tol)].  It
    returns the choice [(i, m)] or [None], and the regularizer as the call
    leaves it. *)
Definition standard_jury (regularizer : option Reg) (thresh : Q)
    (seed : Cell) (neighbors : list Neighbor)
    (estimate : gmap string (gmap Z Q)) (datamods : list DMod)
    (misfit : Q) (it nseeds : Z)
  : Result (option (nat * Q) * option Reg) :=
  decreased ← standard_decreased thresh neighbors datamods misfit;
  match decreased with
  | [] => Ok (None, regularizer)
  | _ =>
      let '(goals, r) := standard_goals regularizer seed decreased in
      '(i, n, m) ← item decreased (argmin goals);
      Ok (Some (i, m), (λ r, reg_update r n) <$> r)
  end.

(** [compact = 1 + it/nseeds], capped at [maxcmp].  [it] and [nseeds] are
    integers and the division is the floor division of Python 2, which
    raises for [nseeds = 0]. *)
Definition compact_threshold (maxcmp it nseeds : Z) : Result Z :=
  if nseeds =? 0 then Raise ZeroDivisionError
  else
    let compact := 1 + it / nseeds in
    Ok (if maxcmp <? compact then maxcmp else compact).

(** [left] of [shape_jury]: the candidates that satisfy the compactness
    criterion. *)
Definition shape_left (compact : Z) (neighbors : list Neighbor)
    (estimate : gmap string (gmap Z Q)) : list (nat * Neighbor) :=
  List.filter (λ '(i, n), is_compact estimate n compact) (enumerate neighbors).

(** [goals] of [shape_jury]: the misfit of each candidate in [left] plus
    its regularizer value. *)
Definition shape_goals (regularizer : option Reg) (seed : Cell)
    (datamods : list DMod) (left : list (nat * Neighbor))
  : list (nat * Neighbor * Q) * option Reg :=
  let misfits := (λ '(i, n), (i, n, candidate_misfit datamods n)) <$> left in
  match regularizer with
  | Some r =>
      let '(regs, r') := reg_calls r seed (snd <$> left) in
      (zip_with (λ '(i, n, m) v, (i, n, (m + v)%Q)) misfits regs, Some r')
  | None => (misfits, None)
  end.

(** The closure returned by [shape_jury(regularizer, thresh, maxcmp, tol)]. *)
Definition shape_jury (regularizer : option Reg) (thresh : Q) (maxcmp : Z)
    (seed : Cell) (neighbors : list Neighbor)
    (estimate : gmap string (gmap Z Q)) (datamods : list DMod)
    (goal : Q) (it nseeds : Z)
  : Result (option (nat * Q) * option Reg) :=
  compact ← compact_threshold maxcmp it nseeds;
  let left := shape_left compact neighbors estimate in
  let '(goals, r) := shape_goals regularizer seed datamods left in
  decreased ← filterM (λ '(i, n, g), decreases thresh goal g) goals;
  match decreased with
  | [] => Ok (None, r)
  | _ =>
      let soa := (λ '(i, n, g), candidate_soa datamods n) <$> decreased in
      '(i, n, g) ← item decreased (argmin soa);
      Ok (Some (i, g), (λ r, reg_update r n) <$> r)
  end.

End Juries.

(** ** The growth loop: [grow] *)

(** What [grow] holds between two accretions.  The first four fields are the
    keys of the changeset it yields.  [jury_state] is whatever the jury
    closure owns (its regularizer).  [harvested] is a ghost record kept for
    the proofs only: the seeds, then every accretion, each with the number
    of the seed that made it; the source keeps one estimate shared by all
    seeds and no such record. *)
Record State (D J : Type) := mkState {
  estimate : gmap string (gmap Z Q);
  neighborhood : list (list Neighbor);
  goal : Q;
  datamods : D;
  jury_state : J;
  harvested : list (nat * Cell)
}.
Arguments mkState {D J}.
Arguments estimate {D J}. Arguments neighborhood {D J}. Arguments goal {D J}.
Arguments datamods {D J}. Arguments jury_state {D J}. Arguments harvested {D J}.

(** The outcome of offering one seed the chance to grow. *)
Inductive Attempt (D J : Type) :=
| Grew (st : State D J)
| Declined (st : State D J)
| Failed (e : Exn).
Arguments Grew {D J}. Arguments Declined {D J}. Arguments Failed {D J}.

Section Grow.
Context {F D J : Type}.
Variable mesh : Mesh F.
(** [for dm in datamods: dm.update(c, mesh)] *)
Variable dm_update : D → Cell → D.
(** [sum(dm.misfit(dm.predicted) for dm in datamods)] *)
Variable dm_total_misfit : D → Q.
(** The jury: any chooser of a position in [neighbors] and a new goal. *)
Variable jury : J → Cell → list Neighbor → gmap string (gmap Z Q) → D → Q →
                  Z → Z → Result (option (nat * Q) * J).

(** The new frontier entries found around a cell. *)
Definition fresh_neighbors (estimate : gmap string (gmap Z Q))
    (neighborhood : list (list Neighbor)) (c : Cell) : list Neighbor :=
  with_around mesh <$>
    not_neighbors neighborhood
      (free_neighbors estimate (find_neighbors c mesh false true true)).

(** The state at the first [yield]. *)
Definition grow_init (seeds : list Cell) (dms : D) (js : J) : State D J :=
  let estimate := foldl declare_props ∅ seeds in
  let estimate := foldl set_props estimate seeds in
  let dms := foldl dm_update dms seeds in
  let neighborhood :=
    foldl (λ hood seed, hood ++ [fresh_neighbors estimate hood seed]) [] seeds in
  mkState estimate neighborhood (dm_total_misfit dms) dms js
          (enumerate seeds).

(** The body of the loop over [zip(seeds, neighborhood)] for the seed
    number [k]. *)
Definition try_seed (it nseeds : Z) (k : nat) (seed : Cell) (st : State D J)
  : Attempt D J :=
  match neighborhood st !! k with
  | None => Declined st
  | Some neighbors =>
    match jury (jury_state st) seed neighbors (estimate st) (datamods st)
               (goal st) it nseeds with
    | Raise e => Failed e
    | Ok (None, js) =>
        Declined (mkState (estimate st) (neighborhood st) (goal st)
                          (datamods st) js (harvested st))
    | Ok (Some (j, g), js) =>
        match neighbors !! j with
        | None => Failed IndexError
        | Some best =>
            let est := set_props (estimate st) (cell best) in
            let dms := dm_update (datamods st) (cell best) in
            let popped := delete j neighbors in
            let hood := <[k := popped]> (neighborhood st) in
            let newneighbors := fresh_neighbors est hood (cell best) in
            Grew (mkState est (<[k := popped ++ newneighbors]> hood) g dms js
                          (harvested st ++ [(k, cell best)]))
        end
    end
  end.

(** One pass over the seeds: the changesets yielded, the state reached,
    [onegrew], and the exception that ended the pass if one was raised. *)
Fixpoint sweep (it nseeds : Z) (todo : list (nat * Cell)) (st : State D J)
    (onegrew : bool) : list (State D J) * State D J * bool * option Exn :=
  match todo with
  | [] => ([], st, onegrew, None)
  | (k, seed) :: todo' =>
      match try_seed it nseeds k seed st with
      | Failed e => ([], st, onegrew, Some e)
      | Declined st' => sweep it nseeds todo' st' onegrew
      | Grew st' =>
          let '(ys, st'', g, e) := sweep it nseeds todo' st' true in
          (st' :: ys, st'', g, e)
      end
  end.

(** [for iteration in xrange(mesh.size - nseeds)], [fuel] iterations being
    left: the changesets yielded from [iteration = it] on. *)
Fixpoint passes (fuel : nat) (it : Z) (seeds : list Cell) (st : State D J)
  : list (State D J) :=
  match fuel with
  | O => []
  | S fuel' =>
      let nseeds := Z.of_nat (length seeds) in
      let '(ys, st', onegrew, e) := sweep it nseeds (enumerate seeds) st false in
      match e with
      | Some _ => ys
      | None => if onegrew then ys ++ passes fuel' (it + 1) seeds st' else ys
      end
  end.

(** [grow(seeds, mesh, datamods, jury)]: every changeset the generator
    yields, in order; the first one is the state before any accretion. *)
Definition grow (seeds : list Cell) (dms : D) (js : J) : list (State D J) :=
  let st := grow_init seeds dms js in
  st :: passes (Z.to_nat (size mesh - Z.of_nat (length seeds))) 0 seeds st.

(** The number of accretions of a run. *)
Definition accretions (seeds : list Cell) (dms : D) (js : J) : nat :=
  length (passes (Z.to_nat (size mesh - Z.of_nat (length seeds))) 0 seeds
                 (grow_init seeds dms js)).

End Grow.

(** ** The prism data module: [DMPrism] *)

Module DM.

(** The fields of a [DMPrism] the methods below read or write.  [shaped]
    records that [use_shape] replaced [misfit] by a shape-of-anomaly
    function; the observation points and the mesh only feed
    [_effect_of_prism] and stay inside that parameter. *)
Record t := mk {
  data : list Q;
  predicted : list Q;
  effect : gmap Z (list Q);
  prop_type : option string;
  weight : Q;
  norm : Z;
  shaped : bool;
  data_l2norm : Q
}.

(** Elementwise numpy arithmetic on arrays of one length. *)
Definition vadd (u v : list Q) : list Q := zip_with Qplus u v.
Definition vsub (u v : list Q) : list Q := zip_with Qminus u v.
Definition vmul (u v : list Q) : list Q := zip_with Qmult u v.
Definition vdiv (u v : list Q) : list Q := zip_with Qdiv u v.
Definition vscale (a : Q) (v : list Q) : list Q := Qmult a <$> v.

(** [numpy.max] of a non-empty array. *)
Definition vmax (v : list Q) : Q :=
  match v with
  | [] => 0%Q
  | x :: v' => foldl (λ a b, if Qlt_le_dec a b then b else a) x v'
  end.

(** [prop_type in props] *)
Definition tracks (dm : t) (props : Props) : bool :=
  match prop_type dm with
  | Some p => bool_decide (is_Some (props !! p))
  | None => false
  end.

Section Methods.
(** [numpy.linalg.norm(v, ord)] and the effect of one prism, which the
    derived classes supply, are parameters. *)
Variable linalg_norm : list Q → Z → Q.
Variable effect_of_prism : Z → Props → list Q.

(** [DMPrism.__init__], after which the derived class sets [prop_type].
    With [use_shape] the constructor sets no [weight]; the field is
    then never read and holds 0 here. *)
Definition init (data : list Q) (use_shape : bool) (norm : Z)
    (prop_type : option string) : Result t :=
  if (norm =? 1) || (norm =? 2) then
    Ok (mk data ((λ _, 0%Q) <$> data) ∅ prop_type
           (if use_shape then 0%Q else (1 / linalg_norm data norm)%Q)
           norm use_shape
           (if use_shape && (norm =? 2) then (linalg_norm data 2 ^ 2)%Q else 0%Q))
  else Raise (ValueError "Invalid norm: must be 1 or 2").

Definition _shape_of_anomaly_l2 (dm : t) (predicted : list Q) : Q :=
  let alpha := (qsum (vmul (data dm) predicted) / data_l2norm dm)%Q in
  linalg_norm (vsub (vscale alpha (data dm)) predicted) 2.

Definition _shape_of_anomaly_l1 (dm : t) (predicted : list Q) : Q :=
  let alpha := vmax (vdiv predicted (data dm)) in
  linalg_norm (vsub (vscale alpha (data dm)) predicted) 1.

(** [self.misfit(predicted)], whichever function [use_shape] left there:
    the l2 shape-of-anomaly for [norm == 2], the l1 one for [norm == 1]. *)
Definition misfit (dm : t) (predicted : list Q) : Q :=
  if shaped dm && (norm dm =? 1) then _shape_of_anomaly_l1 dm predicted
  else if shaped dm && (norm dm =? 2) then _shape_of_anomaly_l2 dm predicted
  else (weight dm * linalg_norm (vsub (data dm) predicted) (norm dm))%Q.

(** [self.effect[index]], computed and stored when absent. *)
Definition cached_effect (dm : t) (element : Cell) : list Q * gmap Z (list Q) :=
  match effect dm !! index element with
  | Some e => (e, effect dm)
  | None =>
      let e := effect_of_prism (index element) (props element) in
      (e, <[index element := e]> (effect dm))
  end.

(** [DMPrism.update(element)] *)
Definition update (dm : t) (element : Cell) : t :=
  if tracks dm (props element) then
    let '(e, _) := cached_effect dm element in
    mk (data dm) (vadd (predicted dm) e) (delete (index element) (effect dm))
       (prop_type dm) (weight dm) (norm dm) (shaped dm) (data_l2norm dm)
  else dm.

(** [DMPrism.testdrive(element)]: the misfit, and the module as the call
    leaves it. *)
Definition testdrive (dm : t) (element : Cell) : Q * t :=
  if negb (tracks dm (props element)) then (misfit dm (predicted dm), dm)
  else
    let '(e, cache) := cached_effect dm element in
    let tmp := vadd (predicted dm) e in
    (misfit dm tmp,
     mk (data dm) (predicted dm) cache (prop_type dm) (weight dm) (norm dm)
        (shaped dm) (data_l2norm dm)).

(** [sum(dm.testdrive(n) for dm in dms)], the modules visited in order. *)
Fixpoint testdrive_all (acc : Q) (dms : list t) (n : Cell) : Q * list t :=
  match dms with
  | [] => (acc, [])
  | dm :: dms' =>
      let '(m, dm') := testdrive dm n in
      let '(total, dms'') := testdrive_all (acc + m)%Q dms' n in
      (total, dm' :: dms'')
  end.

End Methods.

End DM.

(** ** Seed construction: [sow] *)

(** [numpy.arange(start, stop, step)] with its arithmetic taken exactly:
    [ceil((stop - start)/step)] values [start + i*step].  numpy computes
    them in floating point, so that an edge after the first can sit a
    rounding error away from the value here; what is proved of a point
    and the edges around it is therefore stated over the edges themselves
    ([locate_in]), and the rational edges only stand in for them where a
    property does not depend on their values. *)
Definition arange (start stop step : Q) : list Q :=
  (λ i, (start + inject_Z (Z.of_nat i) * step)%Q) <$>
    seq 0 (Z.to_nat (Qceiling ((stop - start) / step))).

(** [bisect.bisect_left(a, x)] on a sorted list: the number of leading
    elements smaller than [x]. *)
Fixpoint bisect_left (a : list Q) (x : Q) : Z :=
  match a with
  | [] => 0
  | y :: a' => if Qlt_le_dec y x then 1 + bisect_left a' x else 0
  end.

(** The body of the loop of [sow] that resolves one point against the
    edges [xs], [ys] and [zs]: the index of the cell that holds it, or
    [None] where the source leaves [found] false. *)
Definition locate_in (xs ys zs : list Q) (mesh : Mesh Q) (point : Q * Q * Q)
  : option Z :=
  let '(x1, x2, y1, y2, z1, z2) := bounds mesh in
  let '(nz, ny, nx) := shape mesh in
  let '(x, y, z) := point in
  if Qle_bool x x2 && Qle_bool x1 x && Qle_bool y y2 && Qle_bool y1 y &&
     Qle_bool z z2 && Qle_bool z1 z then
    let k := bisect_left zs z - 1 in
    let j := bisect_left ys y - 1 in
    let i := bisect_left xs x - 1 in
    let s := i + j * nx + k * nx * ny in
    if getitem mesh s is Some _ then Some s else None
  else None.

(** The same with the edges [sow] computes from the bounds and the cell
    sizes of the mesh. *)
Definition locate (mesh : Mesh Q) (point : Q * Q * Q) : option Z :=
  let '(x1, x2, y1, y2, z1, z2) := bounds mesh in
  let '(dx, dy, dz) := dims mesh in
  locate_in (arange x1 x2 dx) (arange y1 y2 dy) (arange z1 z2 dz) mesh point.

(** The edges come in increasing order, as [bisect_left] needs them. *)
Definition ascending (xs : list Q) : Prop :=
  ∀ p q a b, (p ≤ q)%nat → xs !! p = Some a → xs !! q = Some b → (a <= b)%Q.

(** [duplicates] of [sow]: the pairs [i < j] of seeds in one cell that share
    a property name. *)
Definition duplicates (seeds : list Cell) : list (nat * nat) :=
  '(i, si) ← enumerate seeds;
  '(j, sj) ← enumerate seeds;
  if (i <? j)%nat && (index si =? index sj) && shares (props sj) (props si)
  then [(i, j)] else [].

(** [sow(mesh, rawseeds)] *)
Definition sow (mesh : Mesh Q) (rawseeds : list (Q * Q * Q * Props))
  : Result (list Cell) :=
  seeds ← mapM (λ '(point, props),
                  match locate mesh point with
                  | Some s => Ok (mkCell s props)
                  | None => Raise (ValueError "Couldn't find seed at location")
                  end) rawseeds;
  match duplicates seeds with
  | [] => Ok seeds
  | _ => Raise (ValueError "Can't have seeds with same location and physical properties!")
  end.

(** ** The prism seed and the solver: [SeedPrism], [_harvest_solver] *)

Module Seed.

(** The fields of a [SeedPrism].  [seed] is the list [[index, props]], whose
    index is what [_get_index] returned.  [estimate] is [self.estimate]:
    [__init__] sets it to an empty dictionary and no method writes it, since
    the two loops that were to fill it write to a bare name [estimate]
    instead.  [neighbors] holds elements [[index, props]]. *)
Record t := mk {
  props : Props;
  delta : Q;
  compact : bool;
  seed : option Z * Props;
  estimate : gmap string (list (Z * Q));
  weight : Q;
  mu : Q;
  neighbors : list Cell;
  reg : Q;
  distance : gmap Z Q
}.

(** [SeedPrism._get_index(point, mesh)]: the body is [pass], so the call
    returns [None]. *)
Definition _get_index (point : Q * Q * Q) (mesh : Mesh Q) : option Z := None.

(** [for prop in props: estimate[prop]...], in [__init__] and in [grow]:
    the name [estimate] is bound neither in the method nor in the module, so
    the first turn of the loop raises [NameError]; the loop over an empty
    dictionary does nothing. *)
Definition unbound_estimate (props : Props) : Result unit :=
  if decide (props = ∅) then Ok () else Raise NameError.

(** [SeedPrism.__init__(point, props, mesh, mu, delta, compact)] *)
Definition init (point : Q * Q * Q) (props : Props) (mesh : Mesh Q)
    (mu delta : Q) (compact : bool) : Result t :=
  let index := _get_index point mesh in
  _ ← unbound_estimate props;
  let '(nz, ny, nx) := shape mesh in
  let '(dx, dy, dz) := dims mesh in
  weight ← fdiv 1 ((0 + inject_Z nx * dx + inject_Z ny * dy + inject_Z nz * dz) / 3);
  Ok (mk props delta compact (index, props) ∅ weight (mu * weight)%Q [] 0%Q ∅).

(** [sprops] of [sow_prisms]: [props[p][i]] for every property [p]. *)
Definition sprops (props : gmap string (list Q)) (i : nat) : Result Props :=
  if bool_decide (map_Forall (λ _ vs, (i < length vs)%nat) props)
  then Ok (omap (λ vs : list Q, vs !! i) props)
  else Raise IndexError.

(** The loop of [sow_prisms], [seeds] being the list built so far. *)
Fixpoint sow_prisms_from (todo : list (nat * (Q * Q * Q)))
    (props : gmap string (list Q)) (mesh : Mesh Q) (mu delta : Q)
    (seeds : list t) : Result (list t) :=
  match todo with
  | [] => Ok seeds
  | (i, point) :: todo' =>
      sp ← sprops props i;
      s ← init point sp mesh mu delta false;
      if bool_decide ((seed s).1 ∈ (λ s', (seed s').1) <$> seeds)
      then sow_prisms_from todo' props mesh mu delta seeds
      else sow_prisms_from todo' props mesh mu delta (seeds ++ [s])
  end.

(** [sow_prisms(points, props, mesh, mu, delta)]; the message the source
    logs when it skips a seed is not modelled. *)
Definition sow_prisms (points : list (Q * Q * Q))
    (props : gmap string (list Q)) (mesh : Mesh Q) (mu delta : Q)
  : Result (list t) :=
  sow_prisms_from (enumerate points) props mesh mu delta [].

(** [abs(m - misfit)/misfit >= self.delta] *)
Definition changes (delta misfit m : Q) : Result bool :=
  q ← fdiv (Qabs (m - misfit)) misfit;
  Ok (Qle_bool delta q).

(** [decreased] of [_standard_judge] *)
Definition judge_decreased (delta : Q) (misfits : list Q) (misfit : Q)
  : Result (list nat) :=
  passed ← filterM (λ '(i, m), changes delta misfit m) (enumerate misfits);
  Ok (fst <$> (passed : list (nat * Q))).

(** [SeedPrism._standard_judge(goals, misfits, goal, misfit)] *)
Definition _standard_judge (self : t) (goals misfits : list Q) (goal misfit : Q)
  : Result (option (nat * Q * Q)) :=
  decreased ← judge_decreased (delta self) misfits misfit;
  match decreased with
  | [] => Ok None
  | _ =>
      gs ← mapM (item goals) decreased;
      best ← item decreased (argmin gs);
      g ← item goals best;
      m ← item misfits best;
      Ok (Some (best, g, m))
  end.

(** The bodies [_compact_judge] and [_update_neighbors] have in the class:
    [pass].  The judge returns [None]; the frontier is left as it is. *)
Definition _compact_judge_pass (self : t) (goals misfits : list Q) (goal misfit : Q)
  : Result (option (nat * Q * Q)) := Ok None.

Definition _update_neighbors_pass (k i : nat) (seeds : list t) : list t := seeds.

(** [_cat_estimate(seeds)]: it starts by reading [seeds[0].kind], an
    attribute that [SeedPrism] does not have. *)
Definition _cat_estimate (seeds : list t) : Result (gmap string (gmap Z Q)) :=
  match seeds with
  | [] => Raise IndexError
  | _ :: _ => Raise AttributeError
  end.

Section Solver.
Variable linalg_norm : list Q → Z → Q.
Variable effect_of_prism : Z → Props → list Q.
(** [_compact_judge] and [_update_neighbors] are the two methods a
    seed class has to fill in; [grow] and the solver are modelled over any
    pair of them, [_compact_judge_pass] and [_update_neighbors_pass]
    being the pair of the source.  [_update_neighbors] is given the
    position of [self] in [seeds] and may rewrite any seed. *)
Variable _compact_judge : t → list Q → list Q → Q → Q → Result (option (nat * Q * Q)).
Variable _update_neighbors : nat → nat → list t → list t.

Definition _judge (self : t) :=
  if compact self then _compact_judge self else _standard_judge self.

(** [misfits] of [grow]: every neighbour test-driven through all the
    data modules. *)
Fixpoint testdrives (dms : list DM.t) (ns : list Cell) : list Q * list DM.t :=
  match ns with
  | [] => ([], dms)
  | n :: ns' =>
      let '(m, dms1) := DM.testdrive_all linalg_norm effect_of_prism 0%Q dms n in
      let '(ms, dms2) := testdrives dms1 ns' in
      (m :: ms, dms2)
  end.

(** [m + sum((s.reg for s in seeds), self.mu*self.distance[n[0]])] *)
Definition goal_of (self : t) (seeds : list t) (n : Cell) (m : Q) : Result Q :=
  match distance self !! index n with
  | Some d => Ok (m + foldl Qplus (mu self * d) (reg <$> seeds))%Q
  | None => Raise KeyError
  end.

(** [SeedPrism.grow(dms, seeds, goal, misfit)] for the seed at position
    [k] of [seeds]: the change [[params, goal, misfit]] or [None], with
    the data modules and the seeds as the call leaves them.  Once a
    neighbour is chosen the method runs the loop over [self.props] that
    names the unbound [estimate]. *)
Definition grow (k : nat) (dms : list DM.t) (seeds : list t) (goal misfit : Q)
  : Result (option (Cell * Q * Q) * list DM.t * list t) :=
  self ← item seeds k;
  let '(misfits, dms') := testdrives dms (neighbors self) in
  goals ← mapM (λ '(n, m), goal_of self seeds n m) (zip (neighbors self) misfits);
  best ← _judge self goals misfits goal misfit;
  match best with
  | None => Ok (None, dms', seeds)
  | Some (i, goal, misfit) =>
      params ← item (neighbors self) i;
      _ ← unbound_estimate (props self);
      Ok (Some (params, goal, misfit), dms', _update_neighbors k i seeds)
  end.

(** What [_harvest_solver] carries around its loop. *)
Record Run := mkRun {
  dms : list DM.t;
  seeds : list t;
  goals : list Q;
  misfits : list Q;
  goal : Q;
  misfit : Q
}.

(** [for seed in seeds: ...] of [_harvest_solver], from position [k]. *)
Fixpoint solver_pass (todo : list nat) (r : Run) (grew : bool)
  : Result (Run * bool) :=
  match todo with
  | [] => Ok (r, grew)
  | k :: todo' =>
      change ← grow k (dms r) (seeds r) (goal r) (misfit r);
      match change with
      | (None, dms', seeds') =>
          solver_pass todo'
            (mkRun dms' seeds' (goals r) (misfits r) (goal r) (misfit r)) grew
      | (Some (params, g, m), dms', seeds') =>
          solver_pass todo'
            (mkRun ((λ dm, DM.update effect_of_prism dm params) <$> dms') seeds'
                   (goals r ++ [g]) (misfits r ++ [m]) g m) true
      end
  end.

(** The [while True] loop of [_harvest_solver], cut after [fuel] passes:
    [None] when the loop has not ended by then. *)
Fixpoint solver_loop (fuel : nat) (r : Run) : Result (option Run) :=
  match fuel with
  | O => Ok None
  | S fuel' =>
      match solver_pass (seq 0 (length (seeds r))) r false with
      | Raise e => Raise e
      | Ok (r', grew) => if grew then solver_loop fuel' r' else Ok (Some r')
      end
  end.

(** [_harvest_solver(dms, seeds, first_goal)]: [[estimate, goals, misfits]],
    or [None] when the loop has not ended after [fuel] passes. *)
Definition _harvest_solver (fuel : nat) (dms : list DM.t) (seeds : list t)
    (first_goal : Q)
  : Result (option (gmap string (gmap Z Q) * list Q * list Q)) :=
  run ← solver_loop fuel
          (mkRun dms seeds [first_goal] [first_goal] first_goal first_goal);
  match run with
  | None => Ok None
  | Some (mkRun _ seeds goals misfits _ _) =>
      estimate ← _cat_estimate seeds;
      Ok (Some (estimate, goals, misfits))
  end.

End Solver.

End Seed.

(** ** The compactness regularizer: [ConcentrationRegularizer] *)

Module Regularizer.
Local Open Scope R_scope.

(** The fields of the regularizer.  [power] is the integer exponent, the
    mesh has real coordinates, [dists] is the distance cache keyed by the
    index of the neighbour. *)
Record t := mk {
  mu : R;
  power : nat;
  mesh : Mesh R;
  reg : R;
  timeline : list R;
  dists : gmap Z R;
  weight : R
}.

(** The default of the [power] argument. *)
Definition default_power : nat := 3.

(** [ConcentrationRegularizer.__init__(seeds, mesh, mu, power, weight)] *)
Definition init (seeds : list Cell) (mesh : Mesh R) (mu : R) (power : nat)
    (weight : bool) : t :=
  mk mu power mesh 0 [0] ∅
     (if weight then
        let '(nz, ny, nx) := shape mesh in
        let '(dx, dy, dz) := dims mesh in
        1 / ((0 + IZR nx * dx + IZR ny * dy + IZR nz * dz) / 3)
      else 1).

(** [calc_dist(cell1, cell2)] *)
Definition calc_dist (cell1 cell2 : Prism R) : R :=
  let dx := Rabs (x1 cell1 - x1 cell2) in
  let dy := Rabs (y1 cell1 - y1 cell2) in
  let dz := Rabs (z1 cell1 - z1 cell2) in
  sqrt (dx ^ 2 + dy ^ 2 + dz ^ 2).

(** [self.dists[n]], filled from [calc_dist] when the key is absent; a
    masked cell has no ['x1'] to read. *)
Definition cached_dist (r : t) (n s : Z) : Result (R * gmap Z R) :=
  match dists r !! n with
  | Some d => Ok (d, dists r)
  | None =>
      match getitem (mesh r) n, getitem (mesh r) s with
      | Some cn, Some cs =>
          let d := calc_dist cn cs in Ok (d, <[n := d]> (dists r))
      | _, _ => Raise TypeError
      end
  end.

(** [ConcentrationRegularizer.__call__(neighbor, seed)] *)
Definition call (r : t) (neighbor seed : Cell) : Result (R * t) :=
  '(d, cache) ← cached_dist r (index neighbor) (index seed);
  Ok (reg r + weight r * mu r * d ^ power r,
      mk (mu r) (power r) (mesh r) (reg r) (timeline r) cache (weight r)).

(** [ConcentrationRegularizer.update(neighbor)] *)
Definition update (r : t) (neighbor : Cell) : Result t :=
  match dists r !! index neighbor with
  | Some d =>
      let reg' := reg r + weight r * mu r * d ^ power r in
      Ok (mk (mu r) (power r) (mesh r) reg' (timeline r ++ [reg'])
             (delete (index neighbor) (dists r)) (weight r))
  | None => Raise KeyError
  end.

(** The regularizer with another distance cache. *)
Definition with_dists (r : t) (cache : gmap Z R) : t :=
  mk (mu r) (power r) (mesh r) (reg r) (timeline r) cache (weight r).

(** The centre of a prism along each axis. *)
Definition cx (c : Prism R) : R := (x1 c + x2 c) / 2.
Definition cy (c : Prism R) : R := (y1 c + y2 c) / 2.
Definition cz (c : Prism R) : R := (z1 c + z2 c) / 2.

(** The Euclidean distance between the centres of two prisms. *)
Definition center_dist (c1 c2 : Prism R) : R :=
  sqrt ((cx c1 - cx c2) ^ 2 + (cy c1 - cy c2) ^ 2 + (cz c1 - cz c2) ^ 2).

(** Two prisms of one extent along every axis, as the cells of a regular
    mesh are. *)
Definition same_extent (c1 c2 : Prism R) : Prop :=
  x2 c1 - x1 c1 = x2 c2 - x1 c2 ∧
  y2 c1 - y1 c1 = y2 c2 - y1 c2 ∧
  z2 c1 - z1 c1 = z2 c2 - z1 c2.

(** The score in the words of the specification: [weight * mu * d^power]
    with [weight] the reciprocal of the average cell dimension of the
    mesh and [d] the distance between the cell centres. *)
Definition spec_weight (mesh : Mesh R) : R :=
  let '(dx, dy, dz) := dims mesh in 1 / ((dx + dy + dz) / 3).

Definition spec_score (mesh : Mesh R) (mu : R) (power : nat)
    (candidate origin : Prism R) : R :=
  spec_weight mesh * mu * center_dist candidate origin ^ power.

End Regularizer.

(** ** Concrete inputs *)

Module Examples.

(** The unit cube whose lower corner is [(i, j, k)]. *)
Definition unit_cube (i j k : Z) : Prism Q :=
  mkPrism (inject_Z i) (inject_Z (i + 1)) (inject_Z j) (inject_Z (j + 1))
          (inject_Z k) (inject_Z (k + 1)).

(** A mesh of [nz * ny * nx] unit cubes from the origin, none masked. *)
Definition unit_mesh (nz ny nx : Z) : Mesh Q :=
  mkMesh (nz, ny, nx) (nz * ny * nx) (1, 1, 1)%Q
    (0, inject_Z nx, 0, inject_Z ny, 0, inject_Z nz)%Q
    (λ s, if (0 <=? s) && (s <? nz * ny * nx)
          then Some (unit_cube (s mod nx) ((s / nx) mod ny) (s / (nx * ny)))
          else None).

(** A data module for the juries of [grow] whose state is its current
    misfit, and whose misfit halves with every cell that is added. *)
Definition halving_new_predicted (dm : Q) (n : Neighbor) : Q := (dm / 2)%Q.
Definition halving_misfit (dm : Q) (v : Q) : Q := v.

(** The misfit of a module that observes [0] at one point: the size of
    what is predicted there. *)
Definition size_misfit (dm : Q) (v : Q) : Q := Qabs v.
Definition halving_update (dms : list Q) (c : Cell) : list Q :=
  (λ d, (d / 2)%Q) <$> dms.

(** [standard_jury()] with no regularizer over the halving modules. *)
Definition halving_jury (js : option unit) (seed : Cell) (neighbors : list Neighbor)
    (estimate : gmap string (gmap Z Q)) (dms : list Q) (misfit : Q)
    (it nseeds : Z) : Result (option (nat * Q) * option unit) :=
  standard_jury halving_new_predicted halving_misfit
    (λ r _ _, (0%Q, r)) (λ r _, r) js (1 # 10000)%Q
    seed neighbors estimate dms misfit it nseeds.

(** [grow] with that jury, from one module of misfit 1. *)
Definition halving_grow (mesh : Mesh Q) (seeds : list Cell)
  : list (State (list Q) (option unit)) :=
  grow mesh halving_update qsum halving_jury seeds [1%Q] None.

Definition density (v : Q) : Props := {[ "density"%string := v ]}.
Definition magnetization (v : Q) : Props := {[ "magnetization"%string := v ]}.

(** The seed [SeedPrism(point, {}, mesh)] gives on a mesh whose average
    dimension is 1: the default threshold, [mu = 0], no property and an
    empty frontier. *)
Definition bare_seed : Seed.t :=
  Seed.mk ∅ (1 # 10000)%Q false (None, ∅) ∅ 1%Q 0%Q [] 0%Q ∅.

(** A frontier entry of [unit_mesh 1 3 3] with its stored surroundings. *)
Definition entry (index : Z) : Neighbor :=
  with_around (unit_mesh 1 3 3) (mkCell index (density 1000)).

(** [numpy.linalg.norm(v, 1)]; the argument [ord] is only ever [1] in the
    runs below. *)
Definition l1_norm (v : list Q) (ord : Z) : Q := qsum (Qabs <$> v).

(** A prism effect that overshoots: every cell adds [3] at the single
    observation point. *)
Definition overshoot (index : Z) (props : Props) : list Q := [3%Q].

(** One gravity-like data module observing [1] at one point, nothing
    predicted yet, with the weight [1/norm(data)] of the constructor. *)
Definition one_point_module : DM.t :=
  DM.mk [1%Q] [0%Q] ∅ (Some "density"%string) 1%Q 1 false 0%Q.

(** [bare_seed] after its frontier was set to the element
    [[1, {'density': 1}]], at distance 1. *)
Definition seed_with_frontier : Seed.t :=
  Seed.mk ∅ (1 # 10000)%Q false (None, ∅) ∅ 1%Q 0%Q
          [mkCell 1 (density 1)] 0%Q {[ 1 := 1%Q ]}.

(** Two seeds of different properties at the two ends of a row of three
    cells. *)
Definition two_property_seeds : list Cell :=
  [mkCell 0 (density 1000); mkCell 2 (magnetization 1)].

(** A seed with a zero density next to a seed with a density. *)
Definition zero_valued_seeds : list Cell :=
  [mkCell 2 (density 0); mkCell 1 (density 1000)].

(** One density seed in the middle of a row of three cells. *)
Definition middle_seed : list Cell := [mkCell 1 (density 1000)].

(** The centre of the first cell of a mesh of unit cubes, twice. *)
Definition same_point_twice : list (Q * Q * Q) :=
  [(1 # 2, 1 # 2, 1 # 2)%Q; (1 # 2, 1 # 2, 1 # 2)%Q].

Definition two_densities : gmap string (list Q) :=
  {[ "density"%string := [1000%Q; 1000%Q] ]}.

(** Two raw seeds at one point, both with a density. *)
Definition conflicting_rawseeds : list (Q * Q * Q * Props) :=
  [((1 # 2, 1 # 2, 1 # 2)%Q, density 1000); ((1 # 2, 1 # 2, 1 # 2)%Q, density 500)].

(** The start of a run from one density seed at the centre of the 3 x 3
    layer: the estimate [grow] builds, and the frontier of the seed. *)
Definition center_seed : Cell := mkCell 4 (density 1000).

Definition center_estimate : gmap string (gmap Z Q) :=
  set_props (declare_props ∅ center_seed) center_seed.

Definition center_frontier : list Neighbor :=
  fresh_neighbors (unit_mesh 1 3 3) center_estimate [] center_seed.

(** A cell of the 3 x 3 layer that carries a magnetization only. *)
Definition magnetic_cell : Cell := mkCell 4 (magnetization 1).

(** A row of three unit cubes along x with real coordinates, and a
    regularizer just built over it with [mu = 1] and the default power. *)
Definition real_cell (i : Z) : Prism R :=
  mkPrism (IZR i) (IZR i + 1)%R 0%R 1%R 0%R 1%R.

Definition real_row : Mesh R :=
  mkMesh (1, 1, 3) 3 (1, 1, 1)%R (0, 3, 0, 1, 0, 1)%R
    (λ i, if (0 <=? i) && (i <? 3) then Some (real_cell i) else None).

Definition fresh_regularizer : Regularizer.t :=
  Regularizer.init [] real_row 1%R Regularizer.default_power true.

End Examples.

(** ** Invariants of the growth loop *)

(** No property of the dictionary has the value zero. *)
Definition props_nonzero (props : Props) : Prop :=
  ∀ p v, props !! p = Some v → ¬ (v == 0)%Q.

(** Two cells do not claim one (cell, property) pair: if they have the same
    index they share no property name. *)
Definition claims_apart (c1 c2 : Cell) : Prop :=
  index c1 = index c2 →
  ∀ p, is_Some (props c1 !! p) → is_Some (props c2 !! p) → False.

(** [P] holds between every two entries at different positions, the earlier
    one on the left. *)
Fixpoint Pairwise {A} (P : A → A → Prop) (l : list A) : Prop :=
  match l with
  | [] => True
  | a :: l' => Forall (P a) l' ∧ Pairwise P l'
  end.

(** All the frontier entries of all the seeds. *)
Definition frontier {D J} (st : State D J) : list Cell :=
  cell <$> mjoin (neighborhood st).

(** What holds of every state of [grow]. *)
Record grow_inv {D J} (st : State D J) : Prop := mk_grow_inv {
  inv_frontier_apart : Pairwise claims_apart (frontier st);
  inv_frontier_free : ∀ n, n ∈ frontier st → in_estimate (estimate st) n = false;
  inv_frontier_nonzero : ∀ n, n ∈ frontier st → props_nonzero (props n);
  inv_harvested_set : ∀ c p v,
    c ∈ (harvested st).*2 → props c !! p = Some v →
    est_get (estimate st) p (index c) = v ∧ ¬ (v == 0)%Q;
  inv_harvested_apart : Pairwise claims_apart (harvested st).*2
}.

(** The goals of a list of changesets go strictly down from [g0]. *)
Fixpoint descending {D J} (g0 : Q) (ys : list (State D J)) : Prop :=
  match ys with
  | [] => True
  | y :: ys' => (goal y < g0)%Q ∧ descending (goal y) ys'
  end.

(** A property of states that every attempt of a seed keeps. *)
Definition kept {F D J} (mesh : Mesh F) (dm_update : D → Cell → D)
    (jury : J → Cell → list Neighbor → gmap string (gmap Z Q) → D → Q →
            Z → Z → Result (option (nat * Q) * J))
    (I : State D J → Prop) : Prop :=
  ∀ it nseeds k seed st,
    I st →
    match try_seed mesh dm_update jury it nseeds k seed st with
    | Grew st' => I st'
    | Declined st' => I st'
    | Failed _ => True
    end.

(** The three frontier clauses of the invariant, for a neighbourhood under
    a fixed estimate. *)
Definition frontier_ok (estimate : gmap string (gmap Z Q))
    (hood : list (list Neighbor)) : Prop :=
  Pairwise claims_apart (cell <$> mjoin hood) ∧
  (∀ n, n ∈ cell <$> mjoin hood → in_estimate estimate n = false) ∧
  (∀ n, n ∈ cell <$> mjoin hood → props_nonzero (props n)).

(** Every cell of the frontier and of the record satisfies [good]. *)
Definition cells_good {D J} (good : Cell → Prop) (st : State D J) : Prop :=
  (∀ c, c ∈ frontier st → good c) ∧ (∀ c, c ∈ (harvested st).*2 → good c).

(** The jury handed to [grow] when it is the closure of [standard_jury];
    the value the loop calls [goal] is the total misfit under this jury. *)
Definition the_standard_jury {DMod Vec Reg : Type}
    (new_predicted : DMod → Neighbor → Vec) (dm_misfit : DMod → Vec → Q)
    (reg_call : Reg → Neighbor → Cell → Q * Reg)
    (reg_update : Reg → Neighbor → Reg) (thresh : Q)
    (js : option Reg) (seed : Cell)
    (neighbors : list Neighbor) (estimate : gmap string (gmap Z Q))
    (datamods : list DMod) (misfit : Q) (it nseeds : Z) :=
  standard_jury new_predicted dm_misfit reg_call reg_update js thresh seed
    neighbors estimate datamods misfit it nseeds.

(** ** Further notions about a run of [grow] *)

(** Every value of the estimate that is not zero sits at a recorded cell
    that carries the property. *)
Definition estimate_supported {D J} (st : State D J) : Prop :=
  ∀ p n, ¬ (est_get (estimate st) p n == 0)%Q →
    ∃ k c, (k, c) ∈ harvested st ∧ index c = n ∧ is_Some (props c !! p).

(** Every frontier entry of the seed number [k] came out of
    [find_neighbors] around a cell recorded for [k]. *)
Definition frontier_rooted {F D J} (mesh : Mesh F) (st : State D J) : Prop :=
  ∀ k l n, neighborhood st !! k = Some l → n ∈ l →
    ∃ pos c, harvested st !! pos = Some (k, c) ∧
             cell n ∈ find_neighbors c mesh false true true.

(** From position [nseeds] on, every recorded cell came out of
    [find_neighbors] around an earlier cell recorded for the same seed. *)
Definition grown_by_faces {F} (mesh : Mesh F) (nseeds : nat)
    (h : list (nat * Cell)) : Prop :=
  ∀ pos k c, h !! pos = Some (k, c) → (nseeds ≤ pos)%nat →
    ∃ pos' c', (pos' < pos)%nat ∧ h !! pos' = Some (k, c') ∧
               c ∈ find_neighbors c' mesh false true true.

(** The record starts with the seeds, each under its own number. *)
Definition seeds_recorded (seeds : list Cell) (h : list (nat * Cell)) : Prop :=
  ∀ k s, seeds !! k = Some s → h !! k = Some (k, s).

(** What the connectivity of the bodies rests on, for a run started from
    [nseeds] seeds. *)
Definition faces_inv {F D J} (mesh : Mesh F) (nseeds : nat) (st : State D J) : Prop :=
  grown_by_faces mesh nseeds (harvested st) ∧ frontier_rooted mesh st ∧
  (nseeds ≤ length (harvested st))%nat.

(** The jury handed to [grow] when it is the closure of [shape_jury]. *)
Definition the_shape_jury {DMod Vec Reg : Type}
    (new_predicted : DMod → Neighbor → Vec) (dm_misfit : DMod → Vec → Q)
    (shape_of_anomaly : DMod → Vec → Q)
    (reg_call : Reg → Neighbor → Cell → Q * Reg)
    (reg_update : Reg → Neighbor → Reg) (thresh : Q) (maxcmp : Z)
    (js : option Reg) (seed : Cell)
    (neighbors : list Neighbor) (estimate : gmap string (gmap Z Q))
    (datamods : list DMod) (goal : Q) (it nseeds : Z) :=
  shape_jury new_predicted dm_misfit shape_of_anomaly reg_call reg_update js
    thresh maxcmp seed neighbors estimate datamods goal it nseeds.

(** ** Further notions about the regularizer *)

(** No cached distance is negative. *)
Definition cache_nonneg (r : Regularizer.t) : Prop :=
  map_Forall (λ _ d, (0 <= d)%R) (Regularizer.dists r).

(** ** Further notions about the data modules and the solver *)

(** [sum(dm.misfit(dm.predicted) for dm in dms)]: the total misfit of the
    data modules as they stand, the value [harvest] starts the solver
    from. *)
Definition total_misfit (linalg_norm : list Q → Z → Q) (dms : list DM.t) : Q :=
  qsum ((λ dm, DM.misfit linalg_norm dm (DM.predicted dm)) <$> dms).

(** [dm'] is [dm] with, possibly, more effects in its cache: the same data,
    settings and predicted data, and every cached effect of [dm] still
    there. *)
Definition cache_extends (dm dm' : DM.t) : Prop :=
  DM.data dm' = DM.data dm ∧ DM.predicted dm' = DM.predicted dm ∧
  DM.prop_type dm' = DM.prop_type dm ∧ DM.weight dm' = DM.weight dm ∧
  DM.norm dm' = DM.norm dm ∧ DM.shaped dm' = DM.shaped dm ∧
  DM.data_l2norm dm' = DM.data_l2norm dm ∧
  ∀ i e, DM.effect dm !! i = Some e → DM.effect dm' !! i = Some e.

(** A judge hands back the misfit it was given for the neighbour it
    chooses, as [_standard_judge] does with [misfits[best]]. *)
Definition judge_reports_misfit
    (judge : Seed.t → list Q → list Q → Q → Q → Result (option (nat * Q * Q)))
  : Prop :=
  ∀ self goals misfits goal misfit i g m,
    judge self goals misfits goal misfit = Ok (Some (i, g, m)) →
    misfits !! i = Some m.

(** ** Grid coordinates *)

(** The position [(i, j, k)] of the cell number [n] along x, y and z: the
    mesh numbers its cells as [s = i + j*nx + k*nx*ny], the formula of
    [sow]. *)
Definition coords {F} (mesh : Mesh F) (n : Z) : Z * Z * Z :=
  let '(nz, ny, nx) := shape mesh in
  (n mod nx, (n / nx) mod ny, n / (nx * ny)).

(** Two cells are at most one step apart along every axis. *)
Definition adjacent {F} (mesh : Mesh F) (n i : Z) : Prop :=
  let '(x, y, z) := coords mesh n in
  let '(x', y', z') := coords mesh i in
  Z.abs (x' - x) ≤ 1 ∧ Z.abs (y' - y) ≤ 1 ∧ Z.abs (z' - z) ≤ 1.

(** The steps [(dx, dy, dz)] from a cell to the 26 cells around it, in the
    order [find_neighbors] looks at them: the six faces, then the
    diagonals. *)
Definition neighbor_offsets : list (Z * Z * Z) :=
  [(0, 0, -1); (0, 0, 1); (1, 0, 0); (-1, 0, 0); (0, 1, 0); (0, -1, 0);
   (1, 1, 0); (1, -1, 0); (-1, 1, 0); (-1, -1, 0);
   (0, 1, -1); (0, -1, -1); (1, 0, -1); (-1, 0, -1);
   (1, 1, -1); (1, -1, -1); (-1, 1, -1); (-1, -1, -1);
   (0, 1, 1); (0, -1, 1); (1, 0, 1); (-1, 0, 1);
   (1, 1, 1); (1, -1, 1); (-1, 1, 1); (-1, -1, 1)].

(** Two cells are one step apart along one axis and share the other two
    coordinates. *)
Definition face_adjacent {F} (mesh : Mesh F) (n i : Z) : Prop :=
  let '(x, y, z) := coords mesh n in
  let '(x', y', z') := coords mesh i in
  Z.abs (x' - x) + Z.abs (y' - y) + Z.abs (z' - z) = 1.

(** A jury that answers every call of the iteration [it] of a run with
    [nseeds] seeds, and with a position of the frontier it was given when
    it chooses. *)
Definition jury_answers {D J}
    (jury : J → Cell → list Neighbor → gmap string (gmap Z Q) → D → Q →
            Z → Z → Result (option (nat * Q) * J)) (it nseeds : Z) : Prop :=
  ∀ js seed neighbors estimate dms goal,
    match jury js seed neighbors estimate dms goal it nseeds with
    | Raise _ => False
    | Ok (Some (j, g), _) => is_Some (neighbors !! j)
    | Ok (None, _) => True
    end.

(** Every property name of the cell is a key of the estimate. *)
Definition declared (estimate : gmap string (gmap Z Q)) (c : Cell) : Prop :=
  ∀ p, is_Some (props c !! p) → is_Some (estimate !! p).

(** The estimate has a sparse list for every property a pass of [grow]
    reads or writes: the properties of every frontier entry and of the
    cells stored around it. *)
Definition frontier_declared {D J} (st : State D J) : Prop :=
  ∀ k l n, neighborhood st !! k = Some l → n ∈ l →
    declared (estimate st) (cell n) ∧
    ∀ c, c ∈ around n → declared (estimate st) c.

(** [Examples.bare_seed] after its frontier was set to the element
    [[1, {'density': 1}]], with no distance recorded for it:
    [self.distance] as [__init__] leaves it. *)
Definition unmeasured_seed : Seed.t :=
  Seed.mk ∅ (1 # 10000)%Q false (None, ∅) ∅ 1%Q 0%Q
          [mkCell 1 (Examples.density 1)] 0%Q ∅.

(** * Properties *)

(** ** Grid index *)

(** On a regular grid with at least two layers the cell right under cell 0
    does not see it: the test [tmp > 0] of "the guy above" leaves out the
    index 0, while cell 0 does list that cell as "the guy bellow". *)
Lemma above_first_cell {F} (mesh : Mesh F) nz ny nx :
  shape mesh = (nz, ny, nx) →
  above (nx * ny) mesh true = None.
Proof.
  intros Hs. unfold above. rewrite Hs.
  replace (nx * ny - nx * ny) with 0 by lia. reflexivity.
Qed.

Lemma bellow_first_cell {F} (mesh : Mesh F) nz ny nx :
  shape mesh = (nz, ny, nx) → size mesh = nz * ny * nx →
  0 < nx → 0 < ny → 1 < nz →
  bellow 0 mesh true = Some (nx * ny).
Proof.
  intros Hs Hz Hx Hy Hn. unfold bellow. rewrite Hs, Hz.
  rewrite Z.add_0_l, andb_true_l.
  destruct (Z.ltb_spec (nx * ny) (nz * ny * nx)) as [_|Hge]; [reflexivity|].
  exfalso. nia.
Qed.

(** C3 (face adjacency is symmetric between existing cells): fails on the
    code.  In the mesh of two unit cells stacked along z, neither of them
    masked, cell 1 is returned among the face neighbours of cell 0, but cell 0
    is not returned among the face neighbours of cell 1. *)
Theorem find_neighbors_asymmetric :
  let mesh := Examples.unit_mesh 2 1 1 in
  let a := mkCell 1 (Examples.density 1000) in
  let b := mkCell 0 (Examples.density 1000) in
  is_Some (getitem mesh (index a)) ∧ is_Some (getitem mesh (index b)) ∧
  index <$> find_neighbors b mesh false true true = [index a] ∧
  index <$> find_neighbors a mesh false true true = [].
Proof.
  cbv zeta. repeat split; try (vm_compute; eauto; fail).
Qed.

(** ** The prism data module *)

Section DataModule.
Variable linalg_norm : list Q → Z → Q.
Variable effect_of_prism : Z → Props → list Q.

Lemma cached_effect_again dm element e cache :
  DM.cached_effect effect_of_prism dm element = (e, cache) →
  cache !! index element = Some e.
Proof.
  unfold DM.cached_effect.
  destruct (DM.effect dm !! index element) as [e'|] eqn:Hc;
    intros [= <- <-]; [assumption|].
  apply lookup_insert_eq.
Qed.

(** C8 (test-driving twice gives the same misfit and leaves the predicted
    data alone): for every data module and element, a second [testdrive]
    of the element right after a first one returns the same misfit, and
    the predicted data vector is the same before, between and after the
    calls. *)
Theorem testdrive_twice (dm : DM.t) (element : Cell) :
  let '(m1, dm1) := DM.testdrive linalg_norm effect_of_prism dm element in
  let '(m2, dm2) := DM.testdrive linalg_norm effect_of_prism dm1 element in
  m1 = m2 ∧ DM.predicted dm1 = DM.predicted dm ∧ DM.predicted dm2 = DM.predicted dm.
Proof.
  unfold DM.testdrive at 1.
  destruct (DM.tracks dm (props element)) eqn:Ht; simpl.
  - destruct (DM.cached_effect effect_of_prism dm element) as [e cache] eqn:Hc.
    apply cached_effect_again in Hc.
    unfold DM.testdrive, DM.tracks, DM.cached_effect; simpl.
    unfold DM.tracks in Ht. rewrite Ht, Hc. simpl.
    unfold DM.misfit; simpl. auto.
  - unfold DM.testdrive. rewrite Ht. simpl. auto.
Qed.

(** C10 (an element without the tracked property leaves the module
    alone): when the property type of the module is not a key of the
    properties of the element, [update] returns the module unchanged, so
    its predicted data and its effect cache are what they were. *)
Theorem update_untracked (dm : DM.t) (element : Cell) :
  DM.tracks dm (props element) = false →
  DM.update effect_of_prism dm element = dm ∧
  DM.predicted (DM.update effect_of_prism dm element) = DM.predicted dm ∧
  DM.effect (DM.update effect_of_prism dm element) = DM.effect dm.
Proof.
  intros Ht. unfold DM.update. rewrite Ht. auto.
Qed.

End DataModule.

(** ** [numpy.argmin] *)

Lemma argmin_from_least (p l : list Q) best besti :
  p !! besti = Some best →
  (∀ j y, p !! j = Some y → (best <= y)%Q) →
  (∀ j y, (j < besti)%nat → p !! j = Some y → (best < y)%Q) →
  ∃ x, (p ++ l) !! argmin_from best besti (length p) l = Some x ∧
       (∀ j y, (p ++ l) !! j = Some y → (x <= y)%Q) ∧
       (∀ j y, (j < argmin_from best besti (length p) l)%nat →
               (p ++ l) !! j = Some y → (x < y)%Q).
Proof.
  revert p best besti.
  induction l as [|x l IH]; intros p best besti Hb Hle Hlt; simpl.
  - rewrite app_nil_r. eauto.
  - replace (p ++ x :: l) with ((p ++ [x]) ++ l) by (rewrite <- app_assoc; reflexivity).
    replace (S (length p)) with (length (p ++ [x])) by (rewrite length_app; simpl; lia).
    destruct (Qlt_le_dec x best) as [Hx|Hx].
    + apply IH.
      * rewrite lookup_app_r by lia. rewrite Nat.sub_diag. reflexivity.
      * intros j y Hj. apply lookup_app_Some in Hj as [Hj|[_ Hj]].
        -- apply Qlt_le_weak. eapply Qlt_le_trans; [exact Hx|]. eauto.
        -- destruct (j - length p)%nat; [|done]. injection Hj as <-. apply Qle_refl.
      * intros j y Hjl Hj. apply lookup_app_Some in Hj as [Hj|[Hge _]]; [|lia].
        eapply Qlt_le_trans; [exact Hx|]. eauto.
    + apply IH.
      * apply lookup_app_l_Some. exact Hb.
      * intros j y Hj. apply lookup_app_Some in Hj as [Hj|[_ Hj]]; [eauto|].
        destruct (j - length p)%nat; [|done]. injection Hj as <-. exact Hx.
      * intros j y Hjl Hj. apply lookup_app_Some in Hj as [Hj|[Hge _]]; [eauto|].
        apply lookup_lt_Some in Hb. lia.
Qed.

(** On a non-empty list [argmin] is the position of a least element, and
    every element before it is strictly larger. *)
Lemma argmin_least (l : list Q) :
  l ≠ [] →
  ∃ x, l !! argmin l = Some x ∧
       (∀ j y, l !! j = Some y → (x <= y)%Q) ∧
       (∀ j y, (j < argmin l)%nat → l !! j = Some y → (x < y)%Q).
Proof.
  destruct l as [|x l]; [done|]. intros _. simpl.
  apply (argmin_from_least [x] l x 0%nat).
  - reflexivity.
  - intros [|j] y Hj; [|done]. injection Hj as <-. apply Qle_refl.
  - intros j y Hj. lia.
Qed.

Lemma argmin_lt_length (l : list Q) : l ≠ [] → (argmin l < length l)%nat.
Proof.
  intros Hl. destruct (argmin_least l Hl) as (x & Hx & _).
  eapply lookup_lt_Some. exact Hx.
Qed.

Lemma lookup_enumerate {A} (l : list A) i :
  enumerate l !! i = (λ a, (i, a)) <$> l !! i.
Proof. unfold enumerate. apply list_lookup_imap. Qed.

Lemma elem_of_enumerate {A} (l : list A) i a :
  (i, a) ∈ enumerate l ↔ l !! i = Some a.
Proof.
  unfold enumerate. rewrite elem_of_lookup_imap. split.
  - intros (j & y & [= -> ->] & H). exact H.
  - intros H. eauto.
Qed.

Lemma elem_of_List_filter {A} (f : A → bool) (l : list A) x :
  x ∈ List.filter f l ↔ x ∈ l ∧ f x = true.
Proof. rewrite !list_elem_of_In. apply filter_In. Qed.

Lemma List_filter_split_length {A} (f : A → bool) (l : list A) :
  (length (List.filter f l) + length (List.filter (λ x, negb (f x)) l))%nat = length l.
Proof.
  induction l as [|a l IH]; simpl; [reflexivity|].
  destruct (f a); simpl; lia.
Qed.

Lemma item_Ok {A} (l : list A) i a : item l i = Ok a ↔ l !! i = Some a.
Proof.
  unfold item. destruct (l !! i); split; intros H; congruence.
Qed.

(** ** The acceptance policies *)

Lemma mapM_item_Ok {A} (l : list A) (ixs : list nat) :
  (∀ i, i ∈ ixs → (i < length l)%nat) →
  ∃ xs, mapM (item l) ixs = Ok xs ∧ length xs = length ixs ∧
        ∀ pos i, ixs !! pos = Some i → xs !! pos = l !! i.
Proof.
  induction ixs as [|i ixs IH]; intros Hin; simpl.
  - exists []. split; [reflexivity|]. split; [reflexivity|]. intros pos i H. done.
  - destruct IH as (xs & Hxs & Hlen & Hpos).
    { intros j Hj. apply Hin. by right. }
    destruct (lookup_lt_is_Some_2 l i) as [x Hx].
    { apply Hin. by left. }
    exists (x :: xs). split.
    { change (mapM (item l) (i :: ixs))
        with (y ← item l i; k ← mapM (item l) ixs; mret (y :: k)).
      rewrite (proj2 (item_Ok l i x) Hx), Hxs. reflexivity. }
    split; [simpl; lia|].
    intros [|pos] j Hj; simpl in *.
    + injection Hj as <-. by rewrite Hx.
    + by apply Hpos.
Qed.

(** Comparisons and quotients of floats *)

Lemma Qltb_true x y : Qltb x y = true ↔ (x < y)%Q.
Proof.
  unfold Qltb. rewrite negb_true_iff. split.
  - intros H. apply Qnot_le_lt. intros Hle. apply Qle_bool_iff in Hle. congruence.
  - intros H. destruct (Qle_bool y x) eqn:E; [|reflexivity].
    apply Qle_bool_iff in E. exfalso. by eapply Qlt_not_le.
Qed.

Lemma fdiv_Ok x y : ¬ (y == 0)%Q → fdiv x y = Ok (x / y)%Q.
Proof.
  intros H. unfold fdiv. destruct (Qeq_bool y 0) eqn:E; [|reflexivity].
  apply Qeq_bool_iff in E. contradiction.
Qed.

Lemma fdiv_inv x y q : fdiv x y = Ok q → q = (x / y)%Q ∧ ¬ (y == 0)%Q.
Proof.
  unfold fdiv. destruct (Qeq_bool y 0) eqn:E; [discriminate|].
  intros [= <-]. split; [reflexivity|]. by apply Qeq_bool_neq.
Qed.

(** A comprehension whose test raises nowhere is a filter. *)
Lemma filterM_Ok {A} (f : A → Result bool) (l l' : list A) :
  filterM f l = Ok l' →
  l' = List.filter (λ a, ok_true (f a)) l ∧ ∀ a, a ∈ l → ∃ b, f a = Ok b.
Proof.
  revert l'. induction l as [|a l IH]; intros l'; simpl.
  - intros [= <-]. split; [reflexivity|]. intros a Ha. inversion Ha.
  - destruct (f a) as [b|e] eqn:Hf; simpl; [|discriminate].
    destruct (filterM f l) as [rest|e]; simpl; [|discriminate].
    intros [= <-]. destruct (IH rest eq_refl) as [-> Hall]. split.
    + reflexivity.
    + intros x Hx. apply elem_of_cons in Hx as [->|Hx]; eauto.
Qed.

Lemma filterM_total {A} (f : A → Result bool) (l : list A) :
  (∀ a, a ∈ l → ∃ b, f a = Ok b) →
  filterM f l = Ok (List.filter (λ a, ok_true (f a)) l).
Proof.
  induction l as [|a l IH]; intros Hall; simpl; [reflexivity|].
  destruct (Hall a) as [b Hb]; [by left|]. rewrite Hb. simpl.
  rewrite IH; [reflexivity|]. intros x Hx. apply Hall. by right.
Qed.

(** A candidate passes [decreases] only when it is below the current
    value, by at least the threshold. *)
Lemma decreases_true thresh misfit m :
  decreases thresh misfit m = Ok true →
  (m < misfit)%Q ∧ (thresh <= Qabs (m - misfit) / misfit)%Q.
Proof.
  unfold decreases. destruct (Qltb m misfit) eqn:Hlt; [|discriminate].
  destruct (fdiv _ _) as [q|e] eqn:Hq; simpl; [|discriminate].
  intros [= Hle]. apply fdiv_inv in Hq as [-> _].
  split; [by apply Qltb_true|by apply Qle_bool_iff].
Qed.

Lemma decreases_Ok thresh misfit m :
  ¬ (misfit == 0)%Q →
  decreases thresh misfit m =
  Ok (Qltb m misfit && Qle_bool thresh (Qabs (m - misfit) / misfit)).
Proof.
  intros H. unfold decreases. rewrite (fdiv_Ok _ _ H).
  by destruct (Qltb m misfit).
Qed.

Lemma decreases_spec thresh misfit m :
  ¬ (misfit == 0)%Q →
  decreases thresh misfit m = Ok true ↔
  (m < misfit)%Q ∧ (thresh <= Qabs (m - misfit) / misfit)%Q.
Proof.
  intros H. split; [apply decreases_true|].
  intros [Hlt Hle]. rewrite (decreases_Ok _ _ _ H).
  apply Qltb_true in Hlt. apply Qle_bool_iff in Hle. by rewrite Hlt, Hle.
Qed.

(** The quotient is not computed for a candidate that is not below the
    current value. *)
Lemma decreases_not_below thresh misfit m :
  (misfit <= m)%Q → decreases thresh misfit m = Ok false.
Proof.
  intros H. unfold decreases. destruct (Qltb m misfit) eqn:E; [|reflexivity].
  apply Qltb_true in E. exfalso. by eapply Qlt_not_le.
Qed.

Lemma changes_Ok delta misfit m :
  ¬ (misfit == 0)%Q →
  Seed.changes delta misfit m = Ok (Qle_bool delta (Qabs (m - misfit) / misfit)).
Proof. intros H. unfold Seed.changes. by rewrite (fdiv_Ok _ _ H). Qed.

Lemma changes_true delta misfit m :
  Seed.changes delta misfit m = Ok true →
  (delta <= Qabs (m - misfit) / misfit)%Q.
Proof.
  unfold Seed.changes. destruct (fdiv _ _) as [q|e] eqn:Hq; simpl; [|discriminate].
  intros [= Hle]. apply fdiv_inv in Hq as [-> _]. by apply Qle_bool_iff.
Qed.

(** The members of [decreased] of [_standard_judge]. *)
Lemma judge_decreased_Ok delta misfits misfit decreased :
  Seed.judge_decreased delta misfits misfit = Ok decreased →
  ∀ i, i ∈ decreased ↔
       ∃ m, misfits !! i = Some m ∧ Seed.changes delta misfit m = Ok true.
Proof.
  unfold Seed.judge_decreased.
  destruct (filterM _ _) as [passed|e] eqn:Hf; simpl; [|discriminate].
  intros [= <-] i. apply filterM_Ok in Hf as [-> _].
  rewrite list_elem_of_fmap. split.
  - intros ([j m] & -> & Hin). apply elem_of_List_filter in Hin as [Hin Hc].
    apply elem_of_enumerate in Hin. exists m. split; [exact Hin|]. simpl.
    destruct (Seed.changes _ _ _) as [[]|]; simpl in Hc; congruence.
  - intros (m & Hm & Hc). exists (i, m). split; [reflexivity|].
    apply elem_of_List_filter. split; [by apply elem_of_enumerate|].
    by rewrite Hc.
Qed.

Lemma judge_decreased_total delta misfits misfit :
  ¬ (misfit == 0)%Q →
  ∃ decreased, Seed.judge_decreased delta misfits misfit = Ok decreased.
Proof.
  intros H. unfold Seed.judge_decreased.
  rewrite (filterM_total _ (enumerate misfits)).
  - simpl. eauto.
  - intros [i m] _. rewrite (changes_Ok _ _ _ H). eauto.
Qed.

(** When [goals] has an entry for every misfit and the filter of
    [_standard_judge] gives [decreased], the judge does not raise; it
    returns [None] exactly when [decreased] is empty, and otherwise a
    member of it with the least goal, together with its goal and misfit. *)
Lemma standard_judge_best (self : Seed.t) goals misfits goal misfit decreased :
  length goals = length misfits →
  Seed.judge_decreased (Seed.delta self) misfits misfit = Ok decreased →
  match Seed._standard_judge self goals misfits goal misfit with
  | Raise _ => False
  | Ok None => decreased = []
  | Ok (Some (best, g, m)) =>
      best ∈ decreased ∧ goals !! best = Some g ∧ misfits !! best = Some m ∧
      ∀ i g', i ∈ decreased → goals !! i = Some g' → (g <= g')%Q
  end.
Proof.
  intros Hlen Hdec. unfold Seed._standard_judge. rewrite Hdec. simpl.
  assert (Hin : ∀ i, i ∈ decreased → (i < length misfits)%nat).
  { intros i Hi. apply (judge_decreased_Ok _ _ _ _ Hdec) in Hi as (m & Hm & _).
    by eapply lookup_lt_Some. }
  clear Hdec.
  destruct decreased as [|c rest]; [reflexivity|].
  remember (c :: rest) as decreased eqn:Hd.
  destruct (mapM_item_Ok goals decreased) as (gs & Hgs & Hlgs & Hpos).
  { intros i Hi. rewrite Hlen. by apply Hin. }
  rewrite Hgs. simpl.
  assert (Hne : gs ≠ []).
  { intros ->. rewrite Hd in Hlgs. simpl in Hlgs. lia. }
  destruct (argmin_least gs Hne) as (g & Hg & Hleast & _).
  destruct (lookup_lt_is_Some_2 decreased (argmin gs)) as [best Hbest].
  { rewrite <- Hlgs. by apply argmin_lt_length. }
  rewrite (proj2 (item_Ok _ _ _) Hbest). simpl.
  rewrite (Hpos _ _ Hbest) in Hg.
  rewrite (proj2 (item_Ok _ _ _) Hg). simpl.
  destruct (lookup_lt_is_Some_2 misfits best) as [m Hm].
  { apply Hin. eapply list_elem_of_lookup_2. exact Hbest. }
  rewrite (proj2 (item_Ok _ _ _) Hm). simpl.
  split; [eapply list_elem_of_lookup_2; exact Hbest|].
  split; [exact Hg|]. split; [exact Hm|].
  intros i g' Hi Hg'. apply list_elem_of_lookup in Hi as [pos Hi].
  apply (Hleast pos). rewrite (Hpos _ _ Hi). exact Hg'.
Qed.

Lemma compact_threshold_Ok maxcmp it nseeds :
  nseeds ≠ 0 →
  compact_threshold maxcmp it nseeds = Ok (Z.min (1 + it / nseeds) maxcmp).
Proof.
  intros H. unfold compact_threshold.
  destruct (nseeds =? 0) eqn:E; [lia|]. f_equal. case_match; lia.
Qed.

Lemma compact_threshold_inv maxcmp it nseeds compact :
  compact_threshold maxcmp it nseeds = Ok compact →
  nseeds ≠ 0 ∧ compact = Z.min (1 + it / nseeds) maxcmp.
Proof.
  unfold compact_threshold. destruct (nseeds =? 0) eqn:E; [discriminate|].
  intros [= <-]. split; [lia|]. case_match; lia.
Qed.

Lemma compact_min_mono maxcmp it it' nseeds :
  0 < nseeds → it ≤ it' →
  Z.min (1 + it / nseeds) maxcmp ≤ Z.min (1 + it' / nseeds) maxcmp.
Proof.
  intros Hn Hit. pose proof (Z.div_le_mono it it' nseeds Hn Hit). lia.
Qed.

Section JuryProperties.
Context {DMod Vec Reg : Type}.
Variable new_predicted : DMod → Neighbor → Vec.
Variable dm_misfit : DMod → Vec → Q.
Variable shape_of_anomaly : DMod → Vec → Q.
Variable reg_call : Reg → Neighbor → Cell → Q * Reg.
Variable reg_update : Reg → Neighbor → Reg.

Lemma reg_calls_length r seed cands :
  length (reg_calls reg_call r seed cands).1 = length cands.
Proof.
  revert r. induction cands as [|n cands IH]; intros r; simpl; [reflexivity|].
  destruct (reg_call r n seed) as [v r1].
  specialize (IH r1). destruct (reg_calls reg_call r1 seed cands) as [vs r2].
  simpl in *. lia.
Qed.

(** When the value the regularizer gives a candidate does not depend on
    the calls made before, the values of a round of calls are those of
    the regularizer the round started with. *)
Lemma reg_calls_stable r seed cands :
  (∀ r n' n, (reg_call (reg_call r n' seed).2 n seed).1 = (reg_call r n seed).1) →
  (reg_calls reg_call r seed cands).1 = (λ n, (reg_call r n seed).1) <$> cands.
Proof.
  intros Hst. revert r. induction cands as [|n cands IH]; intros r; simpl;
    [reflexivity|].
  destruct (reg_call r n seed) as [v r1] eqn:Hc.
  specialize (IH r1). destruct (reg_calls reg_call r1 seed cands) as [vs r2].
  simpl in *. rewrite IH. f_equal.
  apply list_fmap_ext. intros _ n' _. rewrite <- (Hst r n n'). by rewrite Hc.
Qed.

(** The survivors of the filter of [standard_jury] are the neighbours whose
    total misfit passes [decreases], each with its position. *)
Lemma elem_of_standard_decreased thresh neighbors datamods misfit decreased i n m :
  standard_decreased new_predicted dm_misfit thresh neighbors datamods misfit
  = Ok decreased →
  (i, n, m) ∈ decreased ↔
  neighbors !! i = Some n ∧
  m = candidate_misfit new_predicted dm_misfit datamods n ∧
  decreases thresh misfit m = Ok true.
Proof.
  unfold standard_decreased. intros H. apply filterM_Ok in H as [-> _].
  rewrite elem_of_List_filter, list_elem_of_fmap.
  split.
  - intros [([j n'] & Heq & Hin) Hd]. injection Heq as -> -> ->.
    apply elem_of_enumerate in Hin. split; [exact Hin|]. split; [reflexivity|].
    simpl in Hd. destruct (decreases _ _ _) as [[]|]; simpl in Hd; congruence.
  - intros (Hn & -> & Hd). split; [|simpl; by rewrite Hd].
    exists (i, n). split; [reflexivity|]. by apply elem_of_enumerate.
Qed.

Lemma standard_decreased_total thresh neighbors datamods misfit :
  ¬ (misfit == 0)%Q →
  ∃ decreased,
    standard_decreased new_predicted dm_misfit thresh neighbors datamods misfit
    = Ok decreased.
Proof.
  intros H. unfold standard_decreased. eexists. apply filterM_total.
  intros [[i n] m] _. rewrite (decreases_Ok _ _ _ H). eauto.
Qed.

Lemma standard_goals_length regularizer seed decreased :
  length (standard_goals reg_call regularizer seed decreased).1 = length decreased.
Proof.
  unfold standard_goals. destruct regularizer as [r|]; simpl.
  - pose proof (reg_calls_length r seed ((λ c, c.1.2) <$> decreased)) as Hl.
    destruct (reg_calls reg_call r seed ((λ c, c.1.2) <$> decreased)) as [regs r'].
    simpl in *. rewrite length_zip_with, Hl, !length_fmap. lia.
  - by rewrite length_fmap.
Qed.

(** The goal of a survivor: its misfit, plus the value of the regularizer
    when there is one. *)
Lemma standard_goals_lookup regularizer seed decreased pos i n m :
  (∀ r n' n, (reg_call (reg_call r n' seed).2 n seed).1 = (reg_call r n seed).1) →
  decreased !! pos = Some (i, n, m) →
  (standard_goals reg_call regularizer seed decreased).1 !! pos =
  Some (match regularizer with
        | Some r => (m + (reg_call r n seed).1)%Q
        | None => m
        end).
Proof.
  intros Hst Hpos. unfold standard_goals. destruct regularizer as [r|]; simpl.
  - pose proof (reg_calls_stable r seed ((λ c, c.1.2) <$> decreased) Hst) as Hr.
    destruct (reg_calls reg_call r seed ((λ c, c.1.2) <$> decreased)) as [regs r'].
    simpl in *. subst regs.
    rewrite lookup_zip_with, !list_lookup_fmap, Hpos. reflexivity.
  - by rewrite list_lookup_fmap, Hpos.
Qed.

(** When its filter gives [decreased], [standard_jury] does not raise; it
    returns [None] exactly when [decreased] is empty, and otherwise the
    survivor at the position of the first least goal. *)
Lemma standard_jury_best regularizer thresh seed neighbors estimate datamods
    misfit it nseeds decreased :
  standard_decreased new_predicted dm_misfit thresh neighbors datamods misfit
  = Ok decreased →
  let goals := (standard_goals reg_call regularizer seed decreased).1 in
  match standard_jury new_predicted dm_misfit reg_call reg_update regularizer
          thresh seed neighbors estimate datamods misfit it nseeds with
  | Raise _ => False
  | Ok (None, _) => decreased = []
  | Ok (Some (i, m), _) =>
      ∃ pos n g, decreased !! pos = Some (i, n, m) ∧ goals !! pos = Some g ∧
                 (∀ pos' g', goals !! pos' = Some g' → (g <= g')%Q) ∧
                 (∀ pos' g', (pos' < pos)%nat → goals !! pos' = Some g' → (g < g')%Q)
  end.
Proof.
  intros Hdec goals. unfold standard_jury. rewrite Hdec. simpl.
  pose proof (standard_goals_length regularizer seed decreased) as Hlen.
  subst goals. clear Hdec.
  destruct decreased as [|c rest]; [reflexivity|].
  remember (c :: rest) as cands eqn:Hd.
  destruct (standard_goals reg_call regularizer seed cands) as [goals r]; simpl in *.
  assert (Hne : goals ≠ []).
  { intros Hg. rewrite Hg, Hd in Hlen. simpl in Hlen. lia. }
  destruct (argmin_least goals Hne) as (g & Hg & Hleast & Hfirst).
  destruct (lookup_lt_is_Some_2 cands (argmin goals)) as [[[i n] m] Hi].
  { rewrite <- Hlen. by apply argmin_lt_length. }
  unfold item. rewrite Hi. simpl.
  exists (argmin goals), n, g. auto.
Qed.


Lemma is_compact_spec estimate n compact :
  is_compact estimate n compact = true ↔ compact ≤ committed_around estimate n.
Proof.
  unfold is_compact, committed_around, free_neighbors.
  pose proof (List_filter_split_length (in_estimate estimate) (around n)).
  rewrite Z.leb_le. lia.
Qed.

Lemma shape_goals_elem regularizer seed datamods left i n g :
  (i, n, g) ∈ (shape_goals new_predicted dm_misfit reg_call regularizer seed
                 datamods left).1 →
  (i, n) ∈ left.
Proof.
  unfold shape_goals. destruct regularizer as [r|].
  - destruct (reg_calls reg_call r seed left.*2) as [regs r']. simpl.
    intros H. apply elem_of_zip_with in H as ([[i' n'] m] & v & Heq & Hin & _).
    injection Heq as -> -> ->.
    apply list_elem_of_fmap in Hin as ([j k] & Heq & Hin).
    by injection Heq as -> -> _.
  - simpl. intros H. apply list_elem_of_fmap in H as ([j k] & Heq & Hin).
    by injection Heq as -> -> _.
Qed.

Lemma omap_length_le {A B} (f : A → option B) (l : list A) :
  (length (omap f l) ≤ length l)%nat.
Proof.
  induction l as [|a l IH]; csimpl; [lia|]. destruct (f a); csimpl; lia.
Qed.

(** The list stored under ['neighbors'] has at most 26 entries. *)
Lemma find_neighbors_full_length {F} (mesh : Mesh F) c up down :
  (length (find_neighbors c mesh true up down) ≤ 26)%nat.
Proof.
  unfold find_neighbors, neighbor_indexes. rewrite length_fmap.
  etrans; [apply omap_length_le|]. rewrite length_app, length_fmap.
  unfold face_indexes, diagonal_indexes. destruct (shape mesh) as [[nz ny] nx].
  rewrite !length_app. simpl.
  destruct (above _ _ _), (bellow _ _ _), (front _ _), (back _ _),
    (left' _ _), (right' _ _); simpl; lia.
Qed.

(** A neighbour that [shape_jury] chooses passed [is_compact] at the
    threshold of the iteration. *)
Lemma shape_jury_compact regularizer thresh maxcmp seed neighbors
    estimate datamods goal it nseeds i g r :
  shape_jury new_predicted dm_misfit shape_of_anomaly reg_call reg_update
    regularizer thresh maxcmp seed neighbors estimate datamods goal it nseeds
  = Ok (Some (i, g), r) →
  ∃ n compact, neighbors !! i = Some n ∧
    compact_threshold maxcmp it nseeds = Ok compact ∧
    is_compact estimate n compact = true.
Proof.
  unfold shape_jury.
  destruct (compact_threshold maxcmp it nseeds) as [compact|e] eqn:Hc; simpl;
    [|discriminate].
  destruct (shape_goals _ _ _ _ _ _ _) as [goals r0] eqn:Hg.
  destruct (filterM _ goals) as [decreased|e] eqn:Hf; simpl; [|discriminate].
  apply filterM_Ok in Hf as [-> _].
  destruct (List.filter _ goals) as [|c rest] eqn:Hd; [discriminate|].
  rewrite <- Hd.
  destruct (item _ _) as [[[i' n] g']|e] eqn:Hitem; [|discriminate].
  simpl. intros [= -> -> _].
  apply item_Ok, list_elem_of_lookup_2, elem_of_List_filter in Hitem as [Hin _].
  assert (Hleft : (i, n) ∈ shape_left compact neighbors estimate).
  { eapply shape_goals_elem. rewrite Hg. exact Hin. }
  unfold shape_left in Hleft. apply elem_of_List_filter in Hleft as [Hen Hcmp].
  apply elem_of_enumerate in Hen. eauto.
Qed.

End JuryProperties.


(** ** The estimate *)

Lemma nonzero_true x : nonzero x = true ↔ ¬ (x == 0)%Q.
Proof.
  unfold nonzero. rewrite negb_true_iff. split.
  - apply Qeq_bool_neq.
  - intros H. destruct (Qeq_bool x 0) eqn:E; [|reflexivity].
    apply Qeq_bool_iff in E. contradiction.
Qed.

Lemma nonzero_false x : nonzero x = false ↔ (x == 0)%Q.
Proof.
  unfold nonzero. rewrite negb_false_iff. apply Qeq_bool_iff.
Qed.

Lemma shares_true (pj pi : Props) :
  shares pj pi = true ↔ ∃ p, is_Some (pj !! p) ∧ is_Some (pi !! p).
Proof.
  unfold shares. rewrite existsb_exists. split.
  - intros ([p v] & Hin & Hp). apply list_elem_of_In, elem_of_map_to_list in Hin.
    apply bool_decide_eq_true in Hp. exists p. eauto.
  - intros (p & [v Hv] & Hp). exists (p, v). split.
    + by apply list_elem_of_In, elem_of_map_to_list.
    + by apply bool_decide_eq_true.
Qed.

Lemma shares_false (pj pi : Props) :
  shares pj pi = false ↔ ∀ p, is_Some (pj !! p) → is_Some (pi !! p) → False.
Proof.
  rewrite <- not_true_iff_false, shares_true. naive_solver.
Qed.

Lemma in_estimate_false estimate c :
  in_estimate estimate c = false ↔
  ∀ p, is_Some (props c !! p) → (est_get estimate p (index c) == 0)%Q.
Proof.
  unfold in_estimate. rewrite <- not_true_iff_false, existsb_exists. split.
  - intros H p [v Hv]. apply nonzero_false.
    destruct (nonzero _) eqn:E; [|reflexivity]. exfalso. apply H.
    exists (p, v). split; [|exact E].
    by apply list_elem_of_In, elem_of_map_to_list.
  - intros H ([p v] & Hin & Hp). apply list_elem_of_In, elem_of_map_to_list in Hin.
    apply nonzero_true in Hp. apply Hp, H. eauto.
Qed.

Lemma est_get_set estimate p n v q i :
  est_get (est_set estimate p n v) q i =
  if decide (p = q ∧ n = i) then v else est_get estimate q i.
Proof.
  unfold est_get, est_set, sl_get.
  destruct (decide (p = q)) as [->|Hp].
  - rewrite lookup_insert_eq. simpl.
    destruct (decide (n = i)) as [->|Hn].
    + rewrite lookup_insert_eq. simpl. by rewrite decide_True.
    + rewrite lookup_insert_ne by done. rewrite decide_False by naive_solver. done.
  - rewrite lookup_insert_ne by done. by rewrite decide_False by naive_solver.
Qed.

(** After [set_props] the estimate holds the properties of the cell at its
    index and is unchanged everywhere else. *)
Lemma est_get_set_props estimate c q i :
  est_get (set_props estimate c) q i =
  if decide (i = index c) then default (est_get estimate q i) (props c !! q)
  else est_get estimate q i.
Proof.
  unfold set_props.
  apply (map_fold_weak_ind (λ e (m : Props),
    est_get e q i = if decide (i = index c)
                    then default (est_get estimate q i) (m !! q)
                    else est_get estimate q i)).
  - rewrite lookup_empty. simpl. by case_decide.
  - intros p v m e Hp IH. rewrite est_get_set, IH.
    destruct (decide (i = index c)) as [->|Hi].
    + destruct (decide (p = q)) as [->|Hpq].
      * rewrite decide_True by done. by rewrite lookup_insert_eq.
      * rewrite decide_False by naive_solver. by rewrite lookup_insert_ne.
    + by rewrite decide_False by naive_solver.
Qed.

(** Declaring the properties of a seed changes no entry of the estimate. *)
Lemma est_get_declare_props estimate c q i :
  est_get (declare_props estimate c) q i = est_get estimate q i.
Proof.
  unfold declare_props.
  apply (map_fold_weak_ind (λ e (m : Props), est_get e q i = est_get estimate q i)).
  - reflexivity.
  - intros p v m e Hp IH. destruct (e !! p) eqn:He; [exact IH|].
    rewrite <- IH. unfold est_get.
    destruct (decide (p = q)) as [->|Hpq].
    + by rewrite lookup_insert_eq, He.
    + by rewrite lookup_insert_ne.
Qed.

(** ** Pairwise properties of lists *)

Section PairwiseFacts.
Context {A : Type} (P : A → A → Prop).

Lemma Pairwise_app l1 l2 :
  Pairwise P (l1 ++ l2) ↔
  Pairwise P l1 ∧ Pairwise P l2 ∧ ∀ a b, a ∈ l1 → b ∈ l2 → P a b.
Proof.
  induction l1 as [|x l1 IH]; simpl.
  - split; [intros H; repeat split; [exact H | intros a b Ha; inversion Ha]|tauto].
  - rewrite IH, Forall_app, !Forall_forall. split.
    + intros [[H1 H2] (H3 & H4 & H5)]. repeat split; try assumption.
      intros a b Ha Hb. apply elem_of_cons in Ha as [->|Ha]; auto.
    + intros ([H1 H2] & H3 & H4). repeat split; try assumption.
      * intros b Hb. apply H4; [by left|exact Hb].
      * intros a b Ha Hb. apply H4; [by right|exact Hb].
Qed.

Hypothesis P_sym : ∀ a b, P a b → P b a.

Lemma Pairwise_Permutation l1 l2 :
  l1 ≡ₚ l2 → Pairwise P l1 → Pairwise P l2.
Proof.
  induction 1 as [|x l1 l2 Hp IH|x y l|l1 l2 l3 _ IH1 _ IH2]; simpl.
  - done.
  - intros [H1 H2]. split; [by rewrite <- Hp|auto].
  - intros [H1 [H2 H3]]. apply Forall_cons in H1 as [H1 H1'].
    split; [apply Forall_cons; split; [by apply P_sym|exact H2]|].
    split; assumption.
  - auto.
Qed.

Lemma Pairwise_sublist l1 l2 :
  l1 `sublist_of` l2 → Pairwise P l2 → Pairwise P l1.
Proof.
  induction 1 as [|x l1 l2 Hs IH|x l1 l2 Hs IH]; simpl.
  - done.
  - intros [H1 H2]. split; [|auto].
    rewrite Forall_forall in *. intros a Ha. apply H1.
    eapply sublist_subseteq; eauto.
  - intros [_ H2]. auto.
Qed.

(** A list whose entries all differ under [f] is pairwise related as soon
    as entries that differ under [f] are. *)
Lemma Pairwise_NoDup {B} (f : A → B) l :
  (∀ a b, f a ≠ f b → P a b) → NoDup (f <$> l) → Pairwise P l.
Proof.
  intros Hf. induction l as [|x l IH]; simpl; [done|].
  rewrite NoDup_cons. intros [Hx Hnd]. split; [|auto].
  apply Forall_forall. intros a Ha. apply Hf. intros Heq.
  apply Hx. rewrite Heq. apply list_elem_of_fmap. eauto.
Qed.

Lemma Pairwise_lookup l i j a b :
  Pairwise P l → i ≠ j → l !! i = Some a → l !! j = Some b → P a b.
Proof.
  revert i j. induction l as [|x l IH]; intros i j Hpw Hij Hi Hj; [done|].
  destruct Hpw as [Hx Hpw]. rewrite Forall_forall in Hx.
  destruct i as [|i], j as [|j]; simpl in *.
  - done.
  - injection Hi as <-. apply Hx. eapply list_elem_of_lookup_2; eauto.
  - injection Hj as <-. apply P_sym, Hx. eapply list_elem_of_lookup_2; eauto.
  - apply (IH i j); auto.
Qed.

End PairwiseFacts.

Lemma claims_apart_sym c1 c2 : claims_apart c1 c2 → claims_apart c2 c1.
Proof. unfold claims_apart. intros H Hi p H1 H2. eapply H; eauto. Qed.

(** ** Grid index: the face neighbours are distinct and inside the grid *)

Lemma omap_present_sublist {F} (mesh : Mesh F) (l : list (option Z)) :
  omap (present mesh) l `sublist_of` omap Datatypes.id l.
Proof.
  induction l as [|[j|] l IH]; simpl; [constructor| |exact IH].
  destruct (getitem mesh j); simpl; by constructor.
Qed.

Lemma elem_of_omap_present {F} (mesh : Mesh F) (l : list (option Z)) i :
  i ∈ omap (present mesh) l → Some i ∈ l ∧ is_Some (getitem mesh i).
Proof.
  rewrite list_elem_of_omap. intros ([j|] & Hin & Hp); simpl in Hp; [|done].
  destruct (getitem mesh j) eqn:E; [|done]. injection Hp as ->. eauto.
Qed.

Ltac grid_facts n nz ny nx :=
  let P := fresh "P" in
  let HP := fresh "HP" in
  assert (HP : nx * (ny - 1) = nx * ny - nx) by ring;
  pose proof (Z.mod_pos_bound n nx ltac:(lia));
  pose proof (Z.mod_pos_bound n (nx * ny) ltac:(nia));
  assert (nx <= nx * ny) by nia;
  remember (nx * ny) as P;
  remember (n mod nx) as rx;
  remember (n mod P) as rp.

Lemma face_indexes_NoDup {F} (mesh : Mesh F) n up down :
  mesh_wf mesh → NoDup (omap Datatypes.id (face_indexes n mesh up down)).
Proof.
  unfold mesh_wf, face_indexes, above, bellow, front, back, left', right'.
  destruct (shape mesh) as [[nz ny] nx]. intros (Hz & Hy & Hx & Hs).
  grid_facts n nz ny nx. rewrite HP. clear HP.
  destruct (up && (0 <? n - P)) eqn:E1;
  destruct (down && (n + P <? size mesh)) eqn:E2;
  destruct (Z.ltb_spec rx (nx - 1));
  destruct (Z.eqb_spec rx 0);
  destruct (Z.ltb_spec rp (P - nx));
  destruct (Z.leb_spec nx rp); simpl;
  repeat (apply NoDup_cons; split;
          [rewrite ?not_elem_of_cons; repeat split; try lia; apply not_elem_of_nil|]);
  apply NoDup_nil_2.
Qed.

Lemma neighbor_indexes_NoDup {F} (mesh : Mesh F) n up down :
  mesh_wf mesh → NoDup (neighbor_indexes n mesh false up down).
Proof.
  intros Hwf. unfold neighbor_indexes. rewrite app_nil_r.
  eapply sublist_NoDup; [|apply omap_present_sublist].
  by apply face_indexes_NoDup.
Qed.

Lemma find_neighbors_index {F} (mesh : Mesh F) c full up down :
  index <$> find_neighbors c mesh full up down =
  neighbor_indexes (index c) mesh full up down.
Proof.
  unfold find_neighbors. rewrite <- list_fmap_compose.
  apply list_fmap_id.
Qed.

Lemma find_neighbors_props {F} (mesh : Mesh F) c full up down n :
  n ∈ find_neighbors c mesh full up down → props n = props c.
Proof.
  unfold find_neighbors. rewrite list_elem_of_fmap. by intros (i & -> & _).
Qed.

(** ** Where face adjacency is symmetric *)

Lemma elem_of_neighbor_indexes {F} (mesh : Mesh F) n up down i :
  i ∈ neighbor_indexes n mesh false up down ↔
  Some i ∈ face_indexes n mesh up down ∧ is_Some (getitem mesh i).
Proof.
  unfold neighbor_indexes. rewrite app_nil_r. split.
  - apply elem_of_omap_present.
  - intros [Hin [c Hc]]. apply list_elem_of_omap. exists (Some i).
    split; [exact Hin|]. simpl. by rewrite Hc.
Qed.

(** Between two existing cells of a regular grid, [a] is a face neighbour of
    [b] only if [b] is one of [a], except when [b] is cell 0 (then the cell
    under it does not list it). *)
Lemma find_neighbors_symmetric_below_top {F} (mesh : Mesh F) a b :
  mesh_wf mesh → 0 ≤ b < size mesh → b ≠ 0 →
  is_Some (getitem mesh b) →
  a ∈ neighbor_indexes b mesh false true true →
  b ∈ neighbor_indexes a mesh false true true.
Proof.
  intros Hwf Hb Hb0 Hbe. rewrite !elem_of_neighbor_indexes.
  intros [Ha _]. split; [|exact Hbe]. revert Ha.
  unfold mesh_wf in Hwf.
  unfold face_indexes, above, bellow, front, back, left', right'.
  destruct (shape mesh) as [[nz ny] nx]. destruct Hwf as (Hz & Hy & Hx & Hs).
  assert (HP : 0 < nx * ny) by nia.
  pose proof (Z.div_mod b nx ltac:(lia)) as Hdx.
  pose proof (Z.div_mod b (nx * ny) ltac:(lia)) as Hdp.
  pose proof (Z.mod_pos_bound b nx ltac:(lia)) as Hrx.
  pose proof (Z.mod_pos_bound b (nx * ny) ltac:(lia)) as Hrp.
  assert (HPn : nx * (ny - 1) = nx * ny - nx) by ring.
  rewrite HPn. clear HPn.
  rewrite !elem_of_cons, elem_of_nil.
  intros [Hin|[Hin|[Hin|[Hin|[Hin|[Hin|[]]]]]]]; revert Hin; simpl;
    case_match; try discriminate; intros [= ->];
    repeat match goal with
           | H : (_ <? _) = true |- _ => apply Z.ltb_lt in H
           | H : (_ <=? _) = true |- _ => apply Z.leb_le in H
           | H : negb (_ =? _) = true |- _ =>
               apply negb_true_iff, Z.eqb_neq in H
           end.
  - (* above: b - P, seen from there b is bellow *)
    right; left. replace (b - nx * ny + nx * ny) with b by ring.
    by rewrite (proj2 (Z.ltb_lt _ _) (proj2 Hb)).
  - (* bellow: b + P, seen from there b is above *)
    left. replace (b + nx * ny - nx * ny) with b by ring.
    by rewrite (proj2 (Z.ltb_lt 0 b) ltac:(lia)).
  - (* front: b + 1, seen from there b is back *)
    do 3 right; left.
    rewrite <- (Z.mod_unique_pos (b + 1) nx (b / nx) (b mod nx + 1)) by lia.
    rewrite (proj2 (Z.eqb_neq _ _)) by lia. simpl. f_equal. ring.
  - (* back: b - 1, seen from there b is front *)
    do 2 right; left.
    rewrite <- (Z.mod_unique_pos (b - 1) nx (b / nx) (b mod nx - 1)) by lia.
    rewrite (proj2 (Z.ltb_lt _ _)) by lia. f_equal. ring.
  - (* left: b + nx, seen from there b is right *)
    do 5 right; left.
    rewrite <- (Z.mod_unique_pos (b + nx) (nx * ny) (b / (nx * ny))
                  (b mod (nx * ny) + nx)) by lia.
    rewrite (proj2 (Z.leb_le _ _)) by lia. f_equal. ring.
  - (* right: b - nx, seen from there b is left *)
    do 4 right; left.
    rewrite <- (Z.mod_unique_pos (b - nx) (nx * ny) (b / (nx * ny))
                  (b mod (nx * ny) - nx)) by lia.
    rewrite (proj2 (Z.ltb_lt _ _)) by lia. f_equal. ring.
Qed.

(** ** The frontier *)

Lemma in_tha_hood_false neighborhood c :
  in_tha_hood neighborhood c = false ↔
  ∀ n, n ∈ mjoin neighborhood → claims_apart c (cell n).
Proof.
  unfold in_tha_hood, claims_apart.
  rewrite <- not_true_iff_false, existsb_exists. split.
  - intros H n Hn Hi p H1 H2. apply H.
    apply list_elem_of_join in Hn as (l & Hn & Hl).
    exists l. split; [by apply list_elem_of_In|].
    apply existsb_exists. exists n. split; [by apply list_elem_of_In|].
    apply andb_true_iff. split; [by apply Z.eqb_eq|].
    apply shares_true. eauto.
  - intros H (l & Hl & Hex). apply existsb_exists in Hex as (n & Hn & Hc).
    apply andb_true_iff in Hc as [Hi Hs]. apply Z.eqb_eq in Hi.
    apply shares_true in Hs as (p & H1 & H2).
    apply list_elem_of_In in Hl, Hn.
    eapply (H n); [|exact Hi|exact H1|exact H2].
    apply list_elem_of_join. eauto.
Qed.

Lemma cell_with_around {F} (mesh : Mesh F) (l : list Cell) :
  cell <$> (with_around mesh <$> l) = l.
Proof.
  induction l as [|c l IH]; [done|]. rewrite !fmap_cons. by rewrite IH.
Qed.

Section Fresh.
Context {F : Type} (mesh : Mesh F).

Lemma cell_fresh_neighbors estimate neighborhood c :
  cell <$> fresh_neighbors mesh estimate neighborhood c =
  not_neighbors neighborhood
    (free_neighbors estimate (find_neighbors c mesh false true true)).
Proof. unfold fresh_neighbors. apply cell_with_around. Qed.

(** A new frontier entry carries the properties of the cell it was found
    around, is not set in the estimate, and claims nothing that an entry
    already in the neighbourhood claims. *)
Lemma fresh_neighbors_elem estimate neighborhood c n :
  n ∈ cell <$> fresh_neighbors mesh estimate neighborhood c →
  props n = props c ∧ in_estimate estimate n = false ∧
  ∀ m, m ∈ mjoin neighborhood → claims_apart n (cell m).
Proof.
  rewrite cell_fresh_neighbors. unfold not_neighbors, free_neighbors.
  rewrite !elem_of_List_filter, !negb_true_iff.
  intros [[Hn Hfree] Hhood]. split; [by eapply find_neighbors_props|].
  split; [exact Hfree|]. by apply in_tha_hood_false.
Qed.

Lemma List_filter_sublist {A} (f : A → bool) (l : list A) :
  List.filter f l `sublist_of` l.
Proof.
  induction l as [|a l IH]; simpl; [constructor|].
  destruct (f a); by constructor.
Qed.

(** The entries found around one cell claim different cells. *)
Lemma fresh_neighbors_apart estimate neighborhood c :
  mesh_wf mesh →
  Pairwise claims_apart (cell <$> fresh_neighbors mesh estimate neighborhood c).
Proof.
  intros Hwf. rewrite cell_fresh_neighbors.
  apply (Pairwise_NoDup claims_apart index).
  { intros a b Hab Hi. done. }
  apply (sublist_NoDup _ (index <$> find_neighbors c mesh false true true)).
  - rewrite find_neighbors_index.
    apply (neighbor_indexes_NoDup mesh (index c) true true Hwf).
  - apply fmap_sublist. unfold not_neighbors, free_neighbors.
    etrans; apply List_filter_sublist.
Qed.

End Fresh.

(** Replacing the list of one seed: the frontier up to the order of its
    entries. *)
Lemma mjoin_insert_Permutation {A} (hood : list (list A)) k l l' :
  hood !! k = Some l →
  ∃ others, mjoin hood ≡ₚ l ++ others ∧ mjoin (<[k := l']> hood) ≡ₚ l' ++ others.
Proof.
  intros Hk. exists (mjoin (take k hood) ++ mjoin (drop (S k) hood)).
  split.
  - rewrite <- (take_drop_middle hood k l Hk) at 1.
    rewrite join_app. simpl. rewrite Permutation_app_swap_app. done.
  - rewrite insert_take_drop by (by eapply lookup_lt_Some).
    rewrite join_app. simpl. rewrite Permutation_app_swap_app. done.
Qed.

Lemma delete_Permutation {A} (l : list A) j x :
  l !! j = Some x → l ≡ₚ x :: delete j l.
Proof.
  intros Hj. rewrite <- (take_drop_middle l j x Hj) at 1.
  rewrite delete_take_drop. by rewrite Permutation_middle.
Qed.

(** ** The growth loop keeps its invariant *)

Lemma claims_apart_set_props estimate best n p :
  claims_apart best n → is_Some (props n !! p) →
  est_get (set_props estimate best) p (index n) = est_get estimate p (index n).
Proof.
  intros Hap Hp. rewrite est_get_set_props. case_decide as Hi; [|done].
  destruct (props best !! p) eqn:Hb; [|done].
  exfalso. eapply Hap; eauto.
Qed.

Section GrowInvariant.
Context {F D J : Type}.
Variable mesh : Mesh F.
Variable dm_update : D → Cell → D.
Variable dm_total_misfit : D → Q.
Variable jury : J → Cell → list Neighbor → gmap string (gmap Z Q) → D → Q →
  Z → Z → Result (option (nat * Q) * J).
Hypothesis mesh_ok : mesh_wf mesh.

(** Committing a frontier entry and extending the frontier around it. *)
Lemma accretion_inv (st : State D J) k j l best g (dms : D) (js : J) :
  grow_inv st →
  neighborhood st !! k = Some l →
  l !! j = Some best →
  let est := set_props (estimate st) (cell best) in
  let hood := <[k := delete j l]> (neighborhood st) in
  grow_inv (mkState est
              (<[k := delete j l ++ fresh_neighbors mesh est hood (cell best)]> hood)
              g dms js (harvested st ++ [(k, cell best)])).
Proof.
  intros [Hfa Hff Hfn Hhs Hha] Hk Hj est hood.
  set (new := fresh_neighbors mesh est hood (cell best)).
  (* the frontier before and after, up to order *)
  assert (Hp1 : frontier st ≡ₚ cell best :: (cell <$> mjoin hood)).
  { unfold frontier.
    destruct (mjoin_insert_Permutation (neighborhood st) k l (delete j l) Hk)
      as (others & H1 & H2).
    fold hood in H2. rewrite H1, H2, (delete_Permutation l j best Hj) at 1.
    reflexivity. }
  assert (Hp2 : cell <$> mjoin (<[k := delete j l ++ new]> hood) ≡ₚ
                (cell <$> mjoin hood) ++ (cell <$> new)).
  { assert (Hk' : hood !! k = Some (delete j l)).
    { unfold hood. apply list_lookup_insert_eq. by eapply lookup_lt_Some. }
    destruct (mjoin_insert_Permutation hood k _ (delete j l ++ new) Hk')
      as (others & H1 & H2).
    rewrite H2, H1, <- fmap_app. apply fmap_Permutation.
    rewrite <- !(assoc_L (++)). apply Permutation_app_head, Permutation_app_comm. }
  pose proof (Pairwise_Permutation claims_apart claims_apart_sym _ _ Hp1 Hfa)
    as [Hbest Hrest].
  rewrite Forall_forall in Hbest.
  assert (Hbest_in : cell best ∈ frontier st) by (rewrite Hp1; by left).
  assert (Hold_in : ∀ n, n ∈ cell <$> mjoin hood → n ∈ frontier st).
  { intros n Hn. rewrite Hp1. by right. }
  pose proof (proj1 (in_estimate_false _ _) (Hff _ Hbest_in)) as Hzero.
  assert (Hcross : ∀ c, c ∈ (harvested st).*2 → claims_apart c (cell best)).
  { intros c Hc Hi p [v Hv] Hb. destruct (Hhs c p v Hc Hv) as [Hget Hnz].
    apply Hnz. rewrite <- Hget, Hi. by apply Hzero. }
  constructor; unfold frontier; simpl; fold new.
  - apply (Pairwise_Permutation claims_apart claims_apart_sym _ _ (symmetry Hp2)).
    apply Pairwise_app. split; [exact Hrest|].
    split; [by apply fresh_neighbors_apart|].
    intros a b Ha Hb. apply claims_apart_sym.
    destruct (fresh_neighbors_elem mesh est hood (cell best) b Hb) as (_ & _ & Hh).
    apply list_elem_of_fmap in Ha as (m & -> & Hm). by apply Hh.
  - intros n Hn. rewrite Hp2 in Hn. apply elem_of_app in Hn as [Hn|Hn].
    + apply in_estimate_false. intros p Hp.
      unfold est. rewrite claims_apart_set_props; [|by apply Hbest|exact Hp].
      apply (proj1 (in_estimate_false (estimate st) n)); [|exact Hp].
      by apply Hff, Hold_in.
    + by destruct (fresh_neighbors_elem mesh est hood (cell best) n Hn) as (_ & ? & _).
  - intros n Hn. rewrite Hp2 in Hn. apply elem_of_app in Hn as [Hn|Hn].
    + by apply Hfn, Hold_in.
    + destruct (fresh_neighbors_elem mesh est hood (cell best) n Hn) as (-> & _ & _).
      by apply Hfn.
  - intros c p v Hc Hv. rewrite fmap_app in Hc.
    apply elem_of_app in Hc as [Hc|Hc].
    + destruct (Hhs c p v Hc Hv) as [Hget Hnz]. split; [|exact Hnz].
      rewrite <- Hget. unfold est. apply claims_apart_set_props; [|by eauto].
      by apply claims_apart_sym, Hcross.
    + apply list_elem_of_singleton in Hc as ->. simpl in *. split.
      * unfold est. rewrite est_get_set_props, decide_True by done.
        by rewrite Hv.
      * by eapply Hfn.
  - rewrite fmap_app. apply Pairwise_app. split; [exact Hha|].
    split; [simpl; auto|].
    intros a b Ha Hb. apply list_elem_of_singleton in Hb as ->. by apply Hcross.
Qed.

Lemma try_seed_inv it nseeds k seed (st : State D J) :
  grow_inv st →
  match try_seed mesh dm_update jury it nseeds k seed st with
  | Grew st' => grow_inv st' ∧ length (harvested st') = S (length (harvested st))
  | Declined st' => grow_inv st' ∧ harvested st' = harvested st
  | Failed _ => True
  end.
Proof.
  intros Hinv. unfold try_seed.
  destruct (neighborhood st !! k) as [l|] eqn:Hk; [|done].
  destruct (jury _ _ _ _ _ _ _ _) as [[[[j g]|] js]|e]; [| |done].
  - destruct (l !! j) as [best|] eqn:Hj; [|done].
    split; [by apply accretion_inv|].
    simpl. rewrite length_app. simpl. lia.
  - split; [|done]. destruct Hinv. by constructor.
Qed.

End GrowInvariant.

(** ** Every changeset of a run *)

Section GrowTrace.
Context {F D J : Type}.
Variable mesh : Mesh F.
Variable dm_update : D → Cell → D.
Variable dm_total_misfit : D → Q.
Variable jury : J → Cell → list Neighbor → gmap string (gmap Z Q) → D → Q →
  Z → Z → Result (option (nat * Q) * J).

Lemma sweep_kept (I : State D J → Prop) it nseeds todo st onegrew :
  kept mesh dm_update jury I → I st →
  Forall I (sweep mesh dm_update jury it nseeds todo st onegrew).1.1.1 ∧
  I (sweep mesh dm_update jury it nseeds todo st onegrew).1.1.2.
Proof.
  intros Hk. revert st onegrew.
  induction todo as [|[k seed] todo IH]; intros st onegrew Hst; simpl.
  - split; [constructor|exact Hst].
  - specialize (Hk it nseeds k seed st Hst).
    destruct (try_seed _ _ _ _ _ _ _ _) as [st'|st'|e]; simpl.
    + destruct (IH st' true Hk) as [H1 H2].
      destruct (sweep _ _ _ _ _ _ _ _) as [[[ys st''] g] e]. simpl in *.
      split; [by constructor|exact H2].
    + by apply IH.
    + split; [constructor|exact Hst].
Qed.

Lemma passes_kept (I : State D J → Prop) fuel it seeds st :
  kept mesh dm_update jury I → I st → Forall I (passes mesh dm_update jury fuel it seeds st).
Proof.
  intros Hk. revert it st.
  induction fuel as [|fuel IH]; intros it st Hst; simpl; [constructor|].
  destruct (sweep_kept I it (Z.of_nat (length seeds)) (enumerate seeds) st false
              Hk Hst) as [H1 H2].
  destruct (sweep _ _ _ _ _ _ _ _) as [[[ys st'] g] e]. simpl in *.
  destruct e; [exact H1|]. destruct g; [|exact H1].
  apply Forall_app. split; [exact H1|]. by apply IH.
Qed.

(** A property that holds of the first changeset and is kept by every
    attempt holds of every changeset of the run. *)
Lemma grow_kept (I : State D J → Prop) seeds dms js :
  kept mesh dm_update jury I → I (grow_init mesh dm_update dm_total_misfit seeds dms js) →
  Forall I (grow mesh dm_update dm_total_misfit jury seeds dms js).
Proof.
  intros Hk H0. unfold grow. constructor; [exact H0|]. by apply passes_kept.
Qed.

Lemma try_seed_harvested it nseeds k seed (st : State D J) :
  match try_seed mesh dm_update jury it nseeds k seed st with
  | Grew st' => length (harvested st') = S (length (harvested st))
  | Declined st' => harvested st' = harvested st
  | Failed _ => True
  end.
Proof.
  unfold try_seed.
  destruct (neighborhood st !! k) as [l|]; [|done].
  destruct (jury _ _ _ _ _ _ _ _) as [[[[j g]|] js]|e]; [| |done].
  - destruct (l !! j) as [best|]; [|done].
    simpl. rewrite length_app. simpl. lia.
  - done.
Qed.

(** The changeset at position [i] of a pass records [i + 1] accretions
    more than the state the pass started from; [onegrew] is set exactly
    when the pass yields a changeset. *)
Lemma sweep_count it nseeds todo st onegrew :
  let '(ys, st', g, e) := sweep mesh dm_update jury it nseeds todo st onegrew in
  (∀ i sti, ys !! i = Some sti →
            length (harvested sti) = (length (harvested st) + S i)%nat) ∧
  length (harvested st') = (length (harvested st) + length ys)%nat ∧
  g = onegrew || bool_decide (ys ≠ []).
Proof.
  revert st onegrew.
  induction todo as [|[k seed] todo IH]; intros st onegrew; simpl.
  - split; [intros i sti H; done|]. split; [lia|]. by rewrite orb_false_r.
  - pose proof (try_seed_harvested it nseeds k seed st) as Hstep.
    destruct (try_seed _ _ _ _ _ _ _ _) as [st1|st1|e]; simpl.
    + specialize (IH st1 true).
      destruct (sweep _ _ _ _ _ _ _ _) as [[[ys st2] g] e].
      destruct IH as (H1 & H2 & H3). split; [|split].
      * intros [|i] sti Hi; simpl in Hi.
        -- injection Hi as <-. lia.
        -- rewrite (H1 i sti Hi). lia.
      * simpl. lia.
      * rewrite H3. simpl. by rewrite orb_true_r.
    + specialize (IH st1 onegrew).
      destruct (sweep _ _ _ _ _ _ _ _) as [[[ys st2] g] e].
      rewrite Hstep in IH. exact IH.
    + split; [intros i sti H; done|]. split; [lia|]. by rewrite orb_false_r.
Qed.

(** The changeset at position [i] of the loop records [i + 1] accretions
    more than the state the loop started from. *)
Lemma passes_count fuel it seeds st i sti :
  passes mesh dm_update jury fuel it seeds st !! i = Some sti →
  length (harvested sti) = (length (harvested st) + S i)%nat.
Proof.
  revert it st i.
  induction fuel as [|fuel IH]; intros it st i; simpl; [done|].
  pose proof (sweep_count it (Z.of_nat (length seeds)) (enumerate seeds) st false)
    as Hs.
  destruct (sweep _ _ _ _ _ _ _ _) as [[[ys st'] g] e].
  destruct Hs as (H1 & H2 & H3).
  destruct e; [apply H1|]. destruct g; [|apply H1].
  intros Hi. apply lookup_app_Some in Hi as [Hi|[Hge Hi]]; [by apply H1|].
  rewrite (IH _ _ _ Hi), H2. lia.
Qed.

(** A pass in which no seed grows ends the loop, whatever number of
    iterations is left. *)
Lemma passes_stop fuel it seeds st st' e :
  sweep mesh dm_update jury it (Z.of_nat (length seeds)) (enumerate seeds) st false
    = ([], st', false, e) →
  passes mesh dm_update jury (S fuel) it seeds st = [].
Proof.
  intros Hs. simpl. rewrite Hs. by destruct e.
Qed.

(** A pass yields no changeset exactly when it leaves [onegrew] false. *)
Lemma sweep_onegrew it nseeds todo st :
  let '(ys, st', g, e) := sweep mesh dm_update jury it nseeds todo st false in
  g = false ↔ ys = [].
Proof.
  pose proof (sweep_count it nseeds todo st false) as Hs.
  destruct (sweep _ _ _ _ _ _ _ _) as [[[ys st'] g] e].
  destruct Hs as (_ & _ & ->). simpl.
  destruct ys; simpl; split; intros H; done.
Qed.

End GrowTrace.

(** ** The first changeset *)

Lemma snd_enumerate {A} (l : list A) : (enumerate l).*2 = l.
Proof.
  apply list_eq. intros i.
  rewrite list_lookup_fmap, lookup_enumerate. by destruct (l !! i).
Qed.

Lemma length_enumerate {A} (l : list A) : length (enumerate l) = length l.
Proof. apply length_imap. Qed.

Lemma Pairwise_of_lookup {A} (P : A → A → Prop) (l : list A) :
  (∀ i j a b, (i < j)%nat → l !! i = Some a → l !! j = Some b → P a b) →
  Pairwise P l.
Proof.
  induction l as [|x l IH]; intros H; simpl; [done|]. split.
  - apply Forall_forall. intros b Hb.
    apply list_elem_of_lookup in Hb as [j Hj].
    apply (H 0%nat (S j)); [lia|done|done].
  - apply IH. intros i j a b Hij Hi Hj. apply (H (S i) (S j)); [lia|done|done].
Qed.

(** The seeds that pass the duplicate search of [sow] claim different
    (cell, property) pairs. *)
Lemma duplicates_nil_apart seeds :
  duplicates seeds = [] → Pairwise claims_apart seeds.
Proof.
  intros Hd. apply Pairwise_of_lookup. intros i j si sj Hij Hi Hj Hidx p Hpi Hpj.
  assert (Hin : (i, j) ∈ duplicates seeds); [|by rewrite Hd in Hin; inversion Hin].
  unfold duplicates. apply list_elem_of_bind. exists (i, si).
  split; [|by apply elem_of_enumerate].
  apply list_elem_of_bind. exists (j, sj).
  split; [|by apply elem_of_enumerate].
  assert (Hs : shares (props sj) (props si) = true) by (apply shares_true; eauto).
  rewrite Hs, (proj2 (Nat.ltb_lt i j) Hij), (proj2 (Z.eqb_eq _ _) Hidx). simpl.
  by left.
Qed.

Lemma foldl_set_props_other estimate seeds c p :
  Forall (λ s, claims_apart s c) seeds → is_Some (props c !! p) →
  est_get (foldl set_props estimate seeds) p (index c) = est_get estimate p (index c).
Proof.
  revert estimate. induction seeds as [|s seeds IH]; intros estimate Hall Hp; simpl.
  - done.
  - apply Forall_cons in Hall as [Hs Hall].
    rewrite IH by done. by apply claims_apart_set_props.
Qed.

Lemma foldl_set_props_seed estimate seeds c p v :
  Pairwise claims_apart seeds → c ∈ seeds → props c !! p = Some v →
  est_get (foldl set_props estimate seeds) p (index c) = v.
Proof.
  revert estimate. induction seeds as [|s seeds IH]; intros estimate Hpw Hc Hv; simpl.
  - inversion Hc.
  - destruct Hpw as [Hs Hpw]. apply elem_of_cons in Hc as [->|Hc].
    + rewrite foldl_set_props_other; [| |by eauto].
      * rewrite est_get_set_props, decide_True by done. by rewrite Hv.
      * eapply Forall_impl; [exact Hs|]. intros x. apply claims_apart_sym.
    + by apply IH.
Qed.

Section GrowInit.
Context {F D J : Type}.
Variable mesh : Mesh F.
Variable dm_update : D → Cell → D.
Variable dm_total_misfit : D → Q.
Hypothesis mesh_ok : mesh_wf mesh.

Lemma frontier_init estimate seeds hood :
  (∀ s, s ∈ seeds → props_nonzero (props s)) →
  frontier_ok estimate hood →
  frontier_ok estimate
    (foldl (λ hood seed, hood ++ [fresh_neighbors mesh estimate hood seed])
           hood seeds).
Proof.
  revert hood. induction seeds as [|s seeds IH]; intros hood Hnz Hok; simpl.
  - exact Hok.
  - apply IH; [intros x Hx; apply Hnz; by right|].
    destruct Hok as (Hfa & Hff & Hfn).
    assert (Heq : cell <$> mjoin (hood ++ [fresh_neighbors mesh estimate hood s]) =
                  (cell <$> mjoin hood) ++
                  (cell <$> fresh_neighbors mesh estimate hood s)).
    { rewrite join_app, fmap_app. simpl. by rewrite app_nil_r. }
    unfold frontier_ok. rewrite Heq. split; [|split].
    + apply Pairwise_app. split; [exact Hfa|].
      split; [by apply fresh_neighbors_apart|].
      intros a b Ha Hb. apply claims_apart_sym.
      destruct (fresh_neighbors_elem mesh estimate hood s b Hb) as (_ & _ & Hh).
      apply list_elem_of_fmap in Ha as (m & -> & Hm). by apply Hh.
    + intros n Hn. apply elem_of_app in Hn as [Hn|Hn]; [by apply Hff|].
      by destruct (fresh_neighbors_elem mesh estimate hood s n Hn) as (_ & ? & _).
    + intros n Hn. apply elem_of_app in Hn as [Hn|Hn]; [by apply Hfn|].
      destruct (fresh_neighbors_elem mesh estimate hood s n Hn) as (-> & _ & _).
      apply Hnz. by left.
Qed.

(** The state before any accretion satisfies the invariant when the seeds
    passed the duplicate search and have no zero property value. *)
Lemma grow_init_inv seeds (dms : D) (js : J) :
  Pairwise claims_apart seeds →
  (∀ s, s ∈ seeds → props_nonzero (props s)) →
  grow_inv (grow_init mesh dm_update dm_total_misfit seeds dms js).
Proof.
  intros Hpw Hnz. unfold grow_init.
  set (est := foldl set_props (foldl declare_props ∅ seeds) seeds).
  destruct (frontier_init est seeds [] Hnz) as (Hfa & Hff & Hfn).
  { repeat split; simpl; auto; intros n Hn; inversion Hn. }
  constructor; unfold frontier; simpl; rewrite ?snd_enumerate; try assumption.
  intros c p v Hc Hv. split; [|by eapply Hnz].
  by apply foldl_set_props_seed.
Qed.

End GrowInit.

(** ** Cells of a run stay inside the grid *)

Lemma face_indexes_range {F} (mesh : Mesh F) n up down i :
  mesh_wf mesh → 0 ≤ n < size mesh →
  Some i ∈ face_indexes n mesh up down → 0 ≤ i < size mesh.
Proof.
  unfold mesh_wf, face_indexes, above, bellow, front, back, left', right'.
  destruct (shape mesh) as [[nz ny] nx]. intros (Hz & Hy & Hx & Hs) Hn.
  pose proof (Z.div_mod n nx ltac:(lia)) as Hdx.
  pose proof (Z.div_mod n (nx * ny) ltac:(nia)) as Hdp.
  assert (Hqx : 0 ≤ n / nx ≤ nz * ny - 1).
  { pose proof (Z.mod_pos_bound n nx ltac:(lia)).
    split; [apply Z.div_pos; lia|nia]. }
  assert (Hqp : 0 ≤ n / (nx * ny) ≤ nz - 1).
  { pose proof (Z.mod_pos_bound n (nx * ny) ltac:(nia)).
    split; [apply Z.div_pos; nia|nia]. }
  grid_facts n nz ny nx. rewrite HP. clear HP.
  remember (n / nx) as qx. remember (n / P) as qp.
  assert (Hsz : size mesh = P * nz) by (subst P; lia).
  rewrite !elem_of_cons, elem_of_nil.
  intros [Hin|[Hin|[Hin|[Hin|[Hin|[Hin|[]]]]]]]; revert Hin;
    repeat case_match; try discriminate; intros [= ->];
    repeat match goal with
           | H : _ && _ = true |- _ => apply andb_true_iff in H as [_ H]
           | H : negb (_ =? _) = true |- _ =>
               apply negb_true_iff, Z.eqb_neq in H
           end; try lia; try nia.
Qed.

Lemma find_neighbors_range {F} (mesh : Mesh F) c n :
  mesh_wf mesh → 0 ≤ index c < size mesh →
  n ∈ find_neighbors c mesh false true true → 0 ≤ index n < size mesh.
Proof.
  intros Hwf Hc Hn.
  assert (Hi : index n ∈ index <$> find_neighbors c mesh false true true).
  { apply list_elem_of_fmap. eauto. }
  rewrite find_neighbors_index in Hi. unfold neighbor_indexes in Hi.
  rewrite app_nil_r in Hi. apply elem_of_omap_present in Hi as [Hi _].
  by eapply face_indexes_range.
Qed.

Lemma accretion_Permutation {A} (hood : list (list A)) k l j best new :
  hood !! k = Some l → l !! j = Some best →
  mjoin hood ≡ₚ best :: mjoin (<[k := delete j l]> hood) ∧
  mjoin (<[k := delete j l ++ new]> (<[k := delete j l]> hood)) ≡ₚ
    mjoin (<[k := delete j l]> hood) ++ new.
Proof.
  intros Hk Hj. split.
  - destruct (mjoin_insert_Permutation hood k l (delete j l) Hk) as (others & H1 & H2).
    rewrite H1, H2, (delete_Permutation l j best Hj) at 1. reflexivity.
  - assert (Hk' : <[k := delete j l]> hood !! k = Some (delete j l)).
    { apply list_lookup_insert_eq. by eapply lookup_lt_Some. }
    destruct (mjoin_insert_Permutation _ k _ (delete j l ++ new) Hk')
      as (others & H1 & H2).
    rewrite H2, H1, <- !(assoc_L (++)).
    apply Permutation_app_head, Permutation_app_comm.
Qed.

Section GrowCells.
Context {F D J : Type}.
Variable mesh : Mesh F.
Variable dm_update : D → Cell → D.
Variable dm_total_misfit : D → Q.
Variable jury : J → Cell → list Neighbor → gmap string (gmap Z Q) → D → Q →
  Z → Z → Result (option (nat * Q) * J).

(** A property of cells that the neighbour search passes on. *)
Variable good : Cell → Prop.
Hypothesis good_neighbors :
  ∀ c n, good c → n ∈ find_neighbors c mesh false true true → good n.

Lemma fresh_neighbors_good estimate hood c n :
  good c → n ∈ cell <$> fresh_neighbors mesh estimate hood c → good n.
Proof.
  intros Hc. rewrite cell_fresh_neighbors. unfold not_neighbors, free_neighbors.
  rewrite !elem_of_List_filter. intros [[Hn _] _]. by eapply good_neighbors.
Qed.

Lemma cells_good_kept : kept mesh dm_update jury (cells_good good).
Proof.
  intros it nseeds k seed st [Hf Hh]. unfold try_seed.
  destruct (neighborhood st !! k) as [l|] eqn:Hk; [|done].
  destruct (jury _ _ _ _ _ _ _ _) as [[[[j g]|] js]|e]; [| |done].
  - destruct (l !! j) as [best|] eqn:Hj; [|split; assumption].
    set (est := set_props (estimate st) (cell best)).
    set (hood := <[k := delete j l]> (neighborhood st)).
    set (new := fresh_neighbors mesh est hood (cell best)).
    destruct (accretion_Permutation (neighborhood st) k l j best new Hk Hj)
      as [Hp1 Hp2].
    assert (Hbest : good (cell best)).
    { apply Hf. unfold frontier. rewrite Hp1. by left. }
    split; unfold frontier; simpl.
    + intros c Hc. fold hood in Hp2. rewrite Hp2, fmap_app in Hc.
      apply elem_of_app in Hc as [Hc|Hc].
      * apply Hf. unfold frontier. rewrite Hp1. by right.
      * by eapply fresh_neighbors_good.
    + intros c Hc. rewrite fmap_app in Hc.
      apply elem_of_app in Hc as [Hc|Hc]; [by apply Hh|].
      by apply list_elem_of_singleton in Hc as ->.
  - split; assumption.
Qed.

Lemma cells_good_init seeds (dms : D) (js : J) :
  (∀ s, s ∈ seeds → good s) →
  cells_good good (grow_init mesh dm_update dm_total_misfit seeds dms js).
Proof.
  intros Hs. unfold grow_init, cells_good, frontier. simpl.
  rewrite snd_enumerate. split; [|exact Hs].
  set (est := foldl set_props _ seeds). clearbody est.
  assert (Hgen : ∀ todo hood,
    (∀ s, s ∈ todo → good s) →
    (∀ c, c ∈ cell <$> mjoin hood → good c) →
    ∀ c, c ∈ cell <$> mjoin
           (foldl (λ hood seed, hood ++ [fresh_neighbors mesh est hood seed])
                  hood todo) → good c).
  { induction todo as [|s todo IH]; intros hood Htodo Hhood; simpl; [done|].
    apply IH; [intros x Hx; apply Htodo; by right|].
    intros c. rewrite join_app, fmap_app. simpl. rewrite app_nil_r.
    intros Hc. apply elem_of_app in Hc as [Hc|Hc]; [by apply Hhood|].
    eapply fresh_neighbors_good; [|exact Hc]. apply Htodo. by left. }
  apply Hgen; [exact Hs|]. intros c Hc. inversion Hc.
Qed.

End GrowCells.

(** ** Claim uniqueness and bounded growth *)

Lemma NoDup_range_length (l : list Z) (n : Z) :
  0 ≤ n → NoDup l → (∀ x, x ∈ l → 0 ≤ x < n) → Z.of_nat (length l) ≤ n.
Proof.
  intros Hn Hnd Hr.
  assert (Hsub : l ⊆+ seqZ 0 n).
  { apply NoDup_submseteq; [exact Hnd|]. intros x Hx. apply elem_of_seqZ.
    specialize (Hr x Hx). lia. }
  apply submseteq_length in Hsub. rewrite length_seqZ in Hsub. lia.
Qed.

Lemma apart_sharing_NoDup (l : list Cell) :
  Pairwise claims_apart l →
  (∀ a b, a ∈ l → b ∈ l → shares (props a) (props b) = true) →
  NoDup (index <$> l).
Proof.
  induction l as [|x l IH]; intros Hpw Hsh; [apply NoDup_nil_2|].
  destruct Hpw as [Hx Hpw]. rewrite Forall_forall in Hx.
  rewrite fmap_cons. apply NoDup_cons. split.
  - intros Hin. apply list_elem_of_fmap in Hin as (y & Hi & Hy).
    destruct (proj1 (shares_true _ _) (Hsh x y ltac:(by left) ltac:(by right)))
      as (p & H1 & H2).
    by apply (Hx y Hy Hi p).
  - apply IH; [exact Hpw|]. intros a b Ha Hb. apply Hsh; by right.
Qed.

Section GrowTheorems.
Context {F D J : Type}.
Variable mesh : Mesh F.
Variable dm_update : D → Cell → D.
Variable dm_total_misfit : D → Q.
Variable jury : J → Cell → list Neighbor → gmap string (gmap Z Q) → D → Q →
  Z → Z → Result (option (nat * Q) * J).

Lemma grow_inv_all seeds (dms : D) (js : J) :
  mesh_wf mesh → duplicates seeds = [] →
  (∀ s, s ∈ seeds → props_nonzero (props s)) →
  Forall grow_inv (grow mesh dm_update dm_total_misfit jury seeds dms js).
Proof.
  intros Hwf Hd Hnz. apply grow_kept.
  - intros it nseeds k seed st Hst.
    pose proof (try_seed_inv mesh dm_update jury Hwf it nseeds k seed st Hst) as H.
    destruct (try_seed _ _ _ _ _ _ _ _); tauto.
  - apply grow_init_inv; [exact Hwf|by apply duplicates_nil_apart|exact Hnz].
Qed.

(** C2, as it holds on the code (claim uniqueness): on a regular grid, for
    seeds that passed the duplicate search of [sow] and none of whose
    property values is zero, whatever the jury and the data modules do,
    in every changeset of [grow]: no two entries of the record of seeds
    and accretions assign the same property of the same cell; no frontier
    entry of any seed claims a property of a cell that has been assigned;
    and the estimate holds, for every assigned (cell, property) pair, the
    value its one owner gave it. *)
Theorem claim_uniqueness seeds (dms : D) (js : J) :
  mesh_wf mesh → duplicates seeds = [] →
  (∀ s, s ∈ seeds → props_nonzero (props s)) →
  ∀ st, st ∈ grow mesh dm_update dm_total_misfit jury seeds dms js →
    (∀ i j k1 c1 k2 c2 p,
       i ≠ j → harvested st !! i = Some (k1, c1) → harvested st !! j = Some (k2, c2) →
       index c1 = index c2 → is_Some (props c1 !! p) → is_Some (props c2 !! p) →
       False) ∧
    (∀ k c n p,
       (k, c) ∈ harvested st → n ∈ frontier st → index n = index c →
       is_Some (props c !! p) → is_Some (props n !! p) → False) ∧
    (∀ k c p v,
       (k, c) ∈ harvested st → props c !! p = Some v →
       est_get (estimate st) p (index c) = v).
Proof.
  intros Hwf Hd Hnz st Hst.
  pose proof (grow_inv_all seeds dms js Hwf Hd Hnz) as Hall.
  rewrite Forall_forall in Hall. destruct (Hall st Hst) as [Hfa Hff Hfn Hhs Hha].
  split; [|split].
  - intros i j k1 c1 k2 c2 p Hij Hi Hj Hidx H1 H2.
    assert (Hap : claims_apart c1 c2).
    { apply (Pairwise_lookup claims_apart claims_apart_sym _ i j c1 c2 Hha Hij);
        rewrite list_lookup_fmap; [by rewrite Hi|by rewrite Hj]. }
    by apply (Hap Hidx p).
  - intros k c n p Hc Hn Hidx [v Hv] Hp.
    assert (Hc' : c ∈ (harvested st).*2).
    { apply list_elem_of_fmap. by exists (k, c). }
    destruct (Hhs c p v Hc' Hv) as [Hget Hv0]. apply Hv0.
    rewrite <- Hget, <- Hidx.
    by apply (proj1 (in_estimate_false _ _) (Hff n Hn)).
  - intros k c p v Hc Hv. apply Hhs; [|exact Hv].
    apply list_elem_of_fmap. by exists (k, c).
Qed.

(** The changeset at position [i] of a run records the seeds and [i]
    accretions. *)
Lemma grow_count seeds (dms : D) (js : J) i st :
  grow mesh dm_update dm_total_misfit jury seeds dms js !! i = Some st →
  length (harvested st) = (length seeds + i)%nat.
Proof.
  unfold grow. destruct i as [|i]; simpl.
  - intros [= <-]. simpl. rewrite length_enumerate. lia.
  - intros Hi. rewrite (passes_count _ _ _ _ _ _ _ _ _ Hi). simpl.
    rewrite length_enumerate. lia.
Qed.

(** X25 (where growth is bounded): on a regular grid, for seeds inside the
    grid that passed the duplicate search of [sow], have no zero property
    value and share a property name two by two, the number of accretions
    of a run of [grow] is at most the size of the mesh minus the number
    of seeds, whatever the jury does; and, with no condition on the
    seeds, a pass in which no seed grows ends the loop, whatever number
    of iterations is left. *)
Theorem accretions_bounded seeds (dms : D) (js : J) :
  mesh_wf mesh → duplicates seeds = [] →
  (∀ s, s ∈ seeds → props_nonzero (props s)) →
  (∀ s, s ∈ seeds → 0 ≤ index s < size mesh) →
  (∀ s1 s2, s1 ∈ seeds → s2 ∈ seeds → shares (props s1) (props s2) = true) →
  Z.of_nat (accretions mesh dm_update dm_total_misfit jury seeds dms js)
    ≤ size mesh - Z.of_nat (length seeds) ∧
  (∀ fuel it st st' e,
     sweep mesh dm_update jury it (Z.of_nat (length seeds)) (enumerate seeds) st false
       = ([], st', false, e) →
     passes mesh dm_update jury (S fuel) it seeds st = []) ∧
  (∀ it st,
     let '(ys, st', onegrew, e) :=
       sweep mesh dm_update jury it (Z.of_nat (length seeds)) (enumerate seeds)
             st false in
     onegrew = false ↔ ys = []).
Proof.
  intros Hwf Hd Hnz Hrange Hshare.
  split; [|split; [intros fuel it st st' e; apply passes_stop|
                   intros it st; apply sweep_onegrew]].
  set (run := grow mesh dm_update dm_total_misfit jury seeds dms js).
  assert (Hlen : length run =
                 S (accretions mesh dm_update dm_total_misfit jury seeds dms js)).
  { reflexivity. }
  destruct (lookup_lt_is_Some_2 run
              (accretions mesh dm_update dm_total_misfit jury seeds dms js))
    as [st Hst]; [lia|].
  pose proof (grow_count seeds dms js _ st Hst) as Hcount.
  assert (Hin : st ∈ run) by (by eapply list_elem_of_lookup_2).
  (* the invariant and the two properties of cells at the last changeset *)
  pose proof (grow_inv_all seeds dms js Hwf Hd Hnz) as Hall.
  rewrite Forall_forall in Hall. destruct (Hall st Hin) as [_ _ _ _ Hha].
  set (good := λ c : Cell, 0 ≤ index c < size mesh ∧
                           ∃ s, s ∈ seeds ∧ props c = props s).
  assert (Hgood : cells_good good st).
  { assert (Hclosed : ∀ c n, good c →
              n ∈ find_neighbors c mesh false true true → good n).
    { intros c n [Hc (s & Hs & Hp)] Hn. split.
      - by eapply find_neighbors_range.
      - exists s. split; [exact Hs|].
        by rewrite (find_neighbors_props mesh c _ _ _ n Hn). }
    assert (Hk : Forall (cells_good good) run).
    { apply grow_kept.
      - by apply cells_good_kept.
      - apply cells_good_init; [exact Hclosed|].
        intros s Hs. split; [by apply Hrange|eauto]. }
    rewrite Forall_forall in Hk. by apply Hk. }
  destruct Hgood as [_ Hgh].
  assert (Hnd : NoDup (index <$> (harvested st).*2)).
  { apply apart_sharing_NoDup; [exact Hha|].
    intros a b Ha Hb.
    destruct (Hgh a Ha) as [_ (sa & Hsa & ->)].
    destruct (Hgh b Hb) as [_ (sb & Hsb & ->)]. by apply Hshare. }
  apply NoDup_range_length with (n := size mesh) in Hnd.
  - rewrite !length_fmap, Hcount in Hnd. lia.
  - unfold mesh_wf in Hwf. destruct (shape mesh) as [[nz ny] nx]. nia.
  - intros x Hx. apply list_elem_of_fmap in Hx as (c & -> & Hc).
    by apply Hgh.
Qed.

End GrowTheorems.

(** ** Runs on a row of three cells *)

Lemma unit_mesh_wf nz ny nx :
  0 < nz → 0 < ny → 0 < nx → mesh_wf (Examples.unit_mesh nz ny nx).
Proof. intros. unfold mesh_wf. simpl. auto. Qed.

Lemma singleton_props_nonzero (name : string) (v : Q) :
  ¬ (v == 0)%Q → props_nonzero ({[ name := v ]} : Props).
Proof.
  intros Hv p w Hp. apply lookup_singleton_Some in Hp as [_ <-]. exact Hv.
Qed.

Lemma middle_seed_nonzero s :
  s ∈ Examples.middle_seed → props_nonzero (props s).
Proof.
  intros Hs. apply list_elem_of_singleton in Hs as ->.
  apply singleton_props_nonzero. discriminate.
Qed.

Lemma middle_seed_range s :
  s ∈ Examples.middle_seed → 0 ≤ index s < size (Examples.unit_mesh 1 1 3).
Proof.
  intros Hs. apply list_elem_of_singleton in Hs as ->. simpl. lia.
Qed.

Lemma middle_seed_shares s1 s2 :
  s1 ∈ Examples.middle_seed → s2 ∈ Examples.middle_seed →
  shares (props s1) (props s2) = true.
Proof.
  intros H1 H2. apply list_elem_of_singleton in H1 as ->.
  apply list_elem_of_singleton in H2 as ->. reflexivity.
Qed.

(** C2 as stated fails: a seed whose density is zero leaves no mark in the
    estimate, so its cell is free for its neighbour.  In a row of three
    cells, seed 0 sits at cell 2 with density 0 and seed 1 at cell 1; after
    the first accretion both seeds have assigned the density of cell 2. *)
Lemma zero_valued_seed_claimed_twice :
  mesh_wf (Examples.unit_mesh 1 1 3) ∧
  duplicates Examples.zero_valued_seeds = [] ∧
  ∃ st c1 c2,
    st ∈ Examples.halving_grow (Examples.unit_mesh 1 1 3) Examples.zero_valued_seeds ∧
    (0%nat, c1) ∈ harvested st ∧ (1%nat, c2) ∈ harvested st ∧
    index c1 = 2 ∧ index c2 = 2 ∧
    is_Some (props c1 !! "density"%string) ∧ is_Some (props c2 !! "density"%string).
Proof.
  split; [apply unit_mesh_wf; lia|]. split; [reflexivity|].
  assert (Hrun : ∃ st,
    Examples.halving_grow (Examples.unit_mesh 1 1 3) Examples.zero_valued_seeds !! 1%nat
      = Some st ∧
    harvested st = [(0%nat, mkCell 2 (Examples.density 0));
                    (1%nat, mkCell 1 (Examples.density 1000));
                    (1%nat, mkCell 2 (Examples.density 1000))]).
  { eexists. split; vm_compute; reflexivity. }
  destruct Hrun as (st & Hst & Hh).
  exists st, (mkCell 2 (Examples.density 0)), (mkCell 2 (Examples.density 1000)).
  split; [by eapply list_elem_of_lookup_2|]. rewrite Hh.
  split; [by left|]. split; [by right; right; left|].
  split; [reflexivity|]. split; [reflexivity|].
  split; eexists; reflexivity.
Qed.

Lemma claim_uniqueness_witness :
  mesh_wf (Examples.unit_mesh 1 1 3) ∧
  duplicates Examples.middle_seed = [] ∧
  (∀ s, s ∈ Examples.middle_seed → props_nonzero (props s)) ∧
  ∀ st, st ∈ Examples.halving_grow (Examples.unit_mesh 1 1 3) Examples.middle_seed →
    ∀ k c p v, (k, c) ∈ harvested st → props c !! p = Some v →
               est_get (estimate st) p (index c) = v.
Proof.
  split; [apply unit_mesh_wf; lia|]. split; [reflexivity|].
  split; [exact middle_seed_nonzero|].
  intros st Hst.
  apply (claim_uniqueness (Examples.unit_mesh 1 1 3) Examples.halving_update qsum
           Examples.halving_jury Examples.middle_seed [1%Q] None
           (unit_mesh_wf 1 1 3 ltac:(lia) ltac:(lia) ltac:(lia)) eq_refl
           middle_seed_nonzero st Hst).
Defined.

(** C4 (the number of accretions is bounded by the mesh size minus the
    number of seeds): fails on [grow], against the comment above its
    loop, "The maximum number of accretions is the whole mesh minus
    seeds".  The loop bounds the number of passes, and every pass gives
    every seed an accretion; two seeds with different properties can
    both claim one cell.  In a row of three cells with a density seed at
    one end and a magnetization seed at the other, the single pass that
    the loop allows makes two accretions (both seeds take the middle
    cell), one more than the mesh size minus the number of seeds. *)
Theorem two_property_seeds_outgrow :
  mesh_wf (Examples.unit_mesh 1 1 3) ∧
  duplicates Examples.two_property_seeds = [] ∧
  accretions (Examples.unit_mesh 1 1 3) Examples.halving_update qsum
    Examples.halving_jury Examples.two_property_seeds [1%Q] None = 2%nat ∧
  size (Examples.unit_mesh 1 1 3) - Z.of_nat (length Examples.two_property_seeds) = 1 ∧
  ¬ (Z.of_nat (accretions (Examples.unit_mesh 1 1 3) Examples.halving_update qsum
                 Examples.halving_jury Examples.two_property_seeds [1%Q] None)
     ≤ size (Examples.unit_mesh 1 1 3) - Z.of_nat (length Examples.two_property_seeds)).
Proof.
  split; [apply unit_mesh_wf; lia|]. split; [reflexivity|].
  assert (H : accretions (Examples.unit_mesh 1 1 3) Examples.halving_update qsum
                Examples.halving_jury Examples.two_property_seeds [1%Q] None = 2%nat).
  { vm_compute. reflexivity. }
  split; [exact H|]. split; [reflexivity|]. rewrite H. simpl. lia.
Qed.

Lemma accretions_bounded_witness :
  mesh_wf (Examples.unit_mesh 1 1 3) ∧
  duplicates Examples.middle_seed = [] ∧
  (∀ s, s ∈ Examples.middle_seed → props_nonzero (props s)) ∧
  (∀ s, s ∈ Examples.middle_seed → 0 ≤ index s < size (Examples.unit_mesh 1 1 3)) ∧
  (∀ s1 s2, s1 ∈ Examples.middle_seed → s2 ∈ Examples.middle_seed →
            shares (props s1) (props s2) = true) ∧
  Z.of_nat (accretions (Examples.unit_mesh 1 1 3) Examples.halving_update qsum
              Examples.halving_jury Examples.middle_seed [1%Q] None)
    ≤ size (Examples.unit_mesh 1 1 3) - Z.of_nat (length Examples.middle_seed).
Proof.
  split; [apply unit_mesh_wf; lia|]. split; [reflexivity|].
  split; [exact middle_seed_nonzero|]. split; [exact middle_seed_range|].
  split; [exact middle_seed_shares|].
  apply (accretions_bounded (Examples.unit_mesh 1 1 3) Examples.halving_update qsum
           Examples.halving_jury Examples.middle_seed [1%Q] None
           (unit_mesh_wf 1 1 3 ltac:(lia) ltac:(lia) ltac:(lia)) eq_refl
           middle_seed_nonzero middle_seed_range middle_seed_shares).
Defined.

(** ** Monotonicity of the misfit history *)

Section StandardGrow.
Context {F DMod Vec Reg : Type}.
Variable mesh : Mesh F.
Variable new_predicted : DMod → Neighbor → Vec.
Variable dm_misfit : DMod → Vec → Q.
Variable reg_call : Reg → Neighbor → Cell → Q * Reg.
Variable reg_update : Reg → Neighbor → Reg.
Variable dm_update : list DMod → Cell → list DMod.
Variable dm_total_misfit : list DMod → Q.
Variable thresh : Q.

(** What [standard_jury] chooses passes its filter: a strictly smaller
    misfit that differs by the relative fraction [thresh] at least. *)
Lemma standard_jury_decreases js seed neighbors estimate datamods misfit it nseeds
    i m r :
  (the_standard_jury new_predicted dm_misfit reg_call reg_update thresh) js seed neighbors estimate datamods misfit it nseeds
    = Ok (Some (i, m), r) →
  decreases thresh misfit m = Ok true.
Proof.
  intros Hj. unfold the_standard_jury in Hj.
  destruct (standard_decreased new_predicted dm_misfit thresh neighbors datamods
              misfit) as [decreased|e] eqn:Hdec.
  2: { unfold standard_jury in Hj. rewrite Hdec in Hj. discriminate. }
  pose proof (standard_jury_best new_predicted dm_misfit reg_call reg_update js
                thresh seed neighbors estimate datamods misfit it nseeds
                decreased Hdec) as Hb.
  cbv zeta in Hb. rewrite Hj in Hb.
  destruct Hb as (pos & n & g & Hpos & _).
  apply list_elem_of_lookup_2 in Hpos.
  apply (elem_of_standard_decreased _ _ _ _ _ _ _ _ _ _ Hdec) in Hpos.
  tauto.
Qed.

Lemma try_seed_standard it nseeds k seed (st : State (list DMod) (option Reg)) :
  match try_seed mesh dm_update (the_standard_jury new_predicted dm_misfit reg_call reg_update thresh) it nseeds k seed st with
  | Grew st' => decreases thresh (goal st) (goal st') = Ok true
  | Declined st' => goal st' = goal st
  | Failed _ => True
  end.
Proof.
  unfold try_seed.
  destruct (neighborhood st !! k) as [l|]; [|done].
  destruct ((the_standard_jury new_predicted dm_misfit reg_call reg_update thresh) _ _ _ _ _ _ _ _) as [[[[j g]|] js]|e] eqn:Hj;
    [| |done].
  - destruct (l !! j) as [best|]; [|done]. simpl.
    by eapply standard_jury_decreases.
  - done.
Qed.

Lemma sweep_standard it nseeds todo (st : State (list DMod) (option Reg)) onegrew rest :
  let '(ys, st', g, e) :=
    sweep mesh dm_update (the_standard_jury new_predicted dm_misfit reg_call reg_update thresh) it nseeds todo st onegrew in
  descending (goal st') rest → descending (goal st) (ys ++ rest).
Proof.
  revert st onegrew.
  induction todo as [|[k seed] todo IH]; intros st onegrew; simpl; [done|].
  pose proof (try_seed_standard it nseeds k seed st) as Hstep.
  destruct (try_seed _ _ _ _ _ _ _ _) as [st1|st1|e]; simpl.
  - specialize (IH st1 true).
    destruct (sweep _ _ _ _ _ _ _ _) as [[[ys st2] g] e].
    intros Hrest. simpl. split; [|by apply IH].
    by apply decreases_true in Hstep as [Hlt _].
  - specialize (IH st1 onegrew).
    destruct (sweep _ _ _ _ _ _ _ _) as [[[ys st2] g] e].
    rewrite Hstep in IH. exact IH.
  - done.
Qed.

(** Under [standard_jury] every changeset of [grow] has a strictly smaller
    misfit than the one before it. *)
Lemma grow_standard_descending seeds dms js :
  match grow mesh dm_update dm_total_misfit (the_standard_jury new_predicted dm_misfit reg_call reg_update thresh) seeds dms js with
  | [] => False
  | st0 :: ys => descending (goal st0) ys
  end.
Proof.
  unfold grow.
  generalize (grow_init mesh dm_update dm_total_misfit seeds dms js).
  generalize 0.
  induction (Z.to_nat (size mesh - Z.of_nat (length seeds))) as [|fuel IH];
    intros it st; simpl; [done|].
  pose proof (sweep_standard it (Z.of_nat (length seeds)) (enumerate seeds) st false)
    as Hs.
  destruct (sweep _ _ _ _ _ _ _ _) as [[[ys st'] g] e].
  destruct e.
  - specialize (Hs [] I). by rewrite app_nil_r in Hs.
  - destruct g.
    + apply Hs, IH.
    + specialize (Hs [] I). by rewrite app_nil_r in Hs.
Qed.

End StandardGrow.

(** C1 (every accepted accretion strictly reduces the misfit): fails on the
    seed class.  [_standard_judge] keeps every candidate whose misfit
    differs from the current one by the relative fraction [delta], larger
    or smaller, although its docstring says "Must decrease the misfit" and
    [standard_jury] does test [m < misfit].  On the seed that
    [SeedPrism(point, {}, mesh)] builds over a row of three unit cells, at
    the current misfit [1], the judge accepts a candidate of misfit [2]. *)
Theorem standard_judge_accepts_increase :
  ∃ self,
    Seed.init (1 # 2, 1 # 2, 1 # 2)%Q ∅ (Examples.unit_mesh 1 1 3)
              0%Q (1 # 10000)%Q false = Ok self ∧
    Seed._standard_judge self [2%Q] [2%Q] 1%Q 1%Q
      = Ok (Some (0%nat, 2%Q, 2%Q)) ∧
    (1 < 2)%Q.
Proof.
  eexists. split; [reflexivity|]. split; reflexivity.
Qed.

(** ** Seed construction *)

Lemma mapM_Ok_lookup {A B} (f : A → Result B) (l : list A) (ys : list B) i x :
  mapM f l = Ok ys → l !! i = Some x → ∃ y, ys !! i = Some y ∧ f x = Ok y.
Proof.
  revert ys i. induction l as [|a l IH]; intros ys i Hm Hi; [done|].
  change (mapM f (a :: l)) with (y ← f a; k ← mapM f l; mret (y :: k)) in Hm.
  destruct (f a) as [b|e] eqn:Hfa; [|discriminate].
  destruct (mapM f l) as [bs|e] eqn:Hfl; [|discriminate].
  injection Hm as <-. destruct i as [|i]; simpl in *.
  - injection Hi as <-. eauto.
  - by apply IH.
Qed.

Lemma mapM_Raise_inv {A B} (f : A → Result B) (l : list A) (e : Exn) :
  mapM f l = Raise e → ∃ x, x ∈ l ∧ f x = Raise e.
Proof.
  induction l as [|a l IH]; [discriminate|].
  change (mapM f (a :: l)) with (y ← f a; k ← mapM f l; mret (y :: k)).
  destruct (f a) as [b|e'] eqn:Hfa.
  - destruct (mapM f l) as [bs|e'] eqn:Hfl; [discriminate|].
    intros [= ->]. destruct (IH eq_refl) as (x & Hx & Hfx).
    exists x. split; [by right|exact Hfx].
  - intros [= ->]. exists a. split; [by left|exact Hfa].
Qed.

(** [sow] raises [ValueError] whenever two of the raw seeds fall into one
    cell (or nowhere) and share a property name. *)
Lemma sow_rejects_duplicates mesh (rawseeds : list (Q * Q * Q * Props))
    i j pti ptj pi pj :
  (i < j)%nat →
  rawseeds !! i = Some (pti, pi) → rawseeds !! j = Some (ptj, pj) →
  locate mesh pti = locate mesh ptj →
  shares pj pi = true →
  ∃ msg, sow mesh rawseeds = Raise (ValueError msg).
Proof.
  intros Hij Hi Hj Hloc Hsh. unfold sow.
  destruct (mapM _ rawseeds) as [seeds|e] eqn:Hm.
  2: { apply mapM_Raise_inv in Hm as ([pt ps] & _ & Hf).
       destruct (locate mesh pt); [discriminate|]. injection Hf as <-.
       eexists. reflexivity. }
  destruct (mapM_Ok_lookup _ _ _ i _ Hm Hi) as (si & Hsi & Hfi).
  destruct (mapM_Ok_lookup _ _ _ j _ Hm Hj) as (sj & Hsj & Hfj).
  simpl in Hfi, Hfj. rewrite Hloc in Hfi.
  destruct (locate mesh ptj) as [s|]; [|discriminate].
  injection Hfi as <-. injection Hfj as <-.
  unfold mbind, result_bind.
  destruct (duplicates seeds) eqn:Hd; [|eexists; reflexivity].
  exfalso. apply duplicates_nil_apart in Hd.
  pose proof (Pairwise_lookup claims_apart claims_apart_sym seeds i j _ _ Hd
                ltac:(lia) Hsi Hsj eq_refl) as Hap.
  apply shares_true in Hsh as (p & H1 & H2). apply (Hap p H2 H1).
Qed.

(** [SeedPrism.__init__] raises [NameError] when the seed is given a
    property. *)
Lemma seed_init_NameError point props mesh mu delta compact :
  props ≠ ∅ → Seed.init point props mesh mu delta compact = Raise NameError.
Proof.
  intros H. unfold Seed.init, Seed.unbound_estimate.
  by rewrite decide_False.
Qed.

(** The properties [sow_prisms] hands a seed are as many as the
    properties it was given. *)
Lemma sprops_nonempty props i sp :
  props ≠ ∅ → Seed.sprops props i = Ok sp → sp ≠ ∅.
Proof.
  intros Hne. unfold Seed.sprops. case_bool_decide as Hall; [|discriminate].
  intros [= <-] Hemp.
  destruct (map_choose props Hne) as (p & vs & Hp).
  pose proof (Hall p vs Hp) as Hlt. simpl in Hlt.
  destruct (lookup_lt_is_Some_2 vs i Hlt) as [v Hv].
  assert (Hsp : omap (λ vs : list Q, vs !! i) props !! p = Some v).
  { rewrite lookup_omap, Hp. exact Hv. }
  rewrite Hemp in Hsp. by rewrite lookup_empty in Hsp.
Qed.

(** [sow_prisms] does not get past its first point when the seeds are
    given a property: a property with no value for the point is an
    [IndexError], and otherwise the constructor of the seed raises. *)
Lemma sow_prisms_raises points props mesh mu delta pt :
  points !! 0%nat = Some pt → props ≠ ∅ →
  Seed.sow_prisms points props mesh mu delta = Raise IndexError ∨
  Seed.sow_prisms points props mesh mu delta = Raise NameError.
Proof.
  intros Hpt Hne. destruct points as [|pt' points]; [discriminate|].
  unfold Seed.sow_prisms. cbn [enumerate imap Seed.sow_prisms_from].
  destruct (Seed.sprops props 0) as [sp|e] eqn:Hsp.
  - right. simpl.
    by rewrite (seed_init_NameError _ _ _ _ _ _ (sprops_nonempty _ _ _ Hne Hsp)).
  - left. unfold Seed.sprops in Hsp. case_bool_decide; [discriminate|].
    by injection Hsp as <-.
Qed.

(** X27: without properties [sow_prisms] keeps its first seed only.
    [_get_index] returns [None] for every point, so every seed after the
    first has the index of a seed already kept and is skipped as a
    duplicate: the call returns the seed built for the first point alone,
    or raises what building it raises. *)
Theorem sow_prisms_without_props pt points mesh mu delta :
  Seed.sow_prisms (pt :: points) ∅ mesh mu delta =
  s ← Seed.init pt ∅ mesh mu delta false; Ok [s].
Proof.
  assert (Hsp : ∀ i, Seed.sprops ∅ i = Ok ∅).
  { intros i. unfold Seed.sprops. rewrite bool_decide_eq_true_2.
    - by rewrite omap_empty.
    - apply map_Forall_empty. }
  assert (Hinit : ∀ pt', Seed.init pt' ∅ mesh mu delta false
                         = Seed.init pt ∅ mesh mu delta false).
  { intros pt'. reflexivity. }
  unfold Seed.sow_prisms. cbn [enumerate imap Seed.sow_prisms_from].
  rewrite Hsp. change (mbind ?f (Ok ?x)) with (f x). cbv beta.
  destruct (Seed.init pt ∅ mesh mu delta false) as [s|e] eqn:Hs; [|reflexivity].
  change (mbind ?f (Ok ?x)) with (f x). cbv beta.
  rewrite bool_decide_eq_false_2 by (simpl; apply not_elem_of_nil).
  simpl.
  assert (Hgen : ∀ todo, Seed.sow_prisms_from todo ∅ mesh mu delta [s] = Ok [s]).
  { induction todo as [|[i pt'] todo IH]; [reflexivity|].
    cbn [Seed.sow_prisms_from]. rewrite Hsp.
    change (mbind ?f (Ok ?x)) with (f x). cbv beta.
    rewrite Hinit.
    change (mbind ?f (Ok ?x)) with (f x). cbv beta.
    rewrite bool_decide_eq_true_2; [exact IH|].
    simpl. apply list_elem_of_singleton. reflexivity. }
  apply Hgen.
Qed.

(** C7 (conflicting seeds are rejected): seed construction raises for
    every input in which two seeds have one location and overlapping
    property names, and so returns no list of seeds, with or without
    the conflicting ones.  [sow] raises [ValueError] whenever two raw
    seeds fall into the same cell (in particular when their points are
    equal) and share a property name.  [sow_prisms] gives every seed the
    property names of [props]; when there is one it raises at its first
    seed, whose constructor names the unbound [estimate]. *)
Theorem seed_conflicts (mesh : Mesh Q) (rawseeds : list (Q * Q * Q * Props))
    i j pti ptj pi pj
    (points : list (Q * Q * Q)) (props : gmap string (list Q)) (mu delta : Q)
    i' j' pt :
  (i < j)%nat →
  rawseeds !! i = Some (pti, pi) → rawseeds !! j = Some (ptj, pj) →
  locate mesh pti = locate mesh ptj →
  shares pj pi = true →
  (i' < j')%nat →
  points !! i' = Some pt → points !! j' = Some pt →
  props ≠ ∅ →
  (∃ msg, sow mesh rawseeds = Raise (ValueError msg)) ∧
  (Seed.sow_prisms points props mesh mu delta = Raise IndexError ∨
   Seed.sow_prisms points props mesh mu delta = Raise NameError).
Proof.
  intros Hij Hi Hj Hloc Hsh Hij' Hi' Hj' Hne. split.
  - exact (sow_rejects_duplicates mesh rawseeds i j pti ptj pi pj
             Hij Hi Hj Hloc Hsh).
  - destruct (lookup_lt_is_Some_2 points 0) as [pt0 Hpt0].
    { apply lookup_lt_Some in Hi'. lia. }
    exact (sow_prisms_raises points props mesh mu delta pt0 Hpt0 Hne).
Qed.

Lemma seed_conflicts_witness :
  (0 < 1)%nat ∧
  Examples.conflicting_rawseeds !! 0%nat
    = Some ((1 # 2, 1 # 2, 1 # 2)%Q, Examples.density 1000) ∧
  Examples.conflicting_rawseeds !! 1%nat
    = Some ((1 # 2, 1 # 2, 1 # 2)%Q, Examples.density 500) ∧
  shares (Examples.density 500) (Examples.density 1000) = true ∧
  Examples.same_point_twice !! 0%nat = Some (1 # 2, 1 # 2, 1 # 2)%Q ∧
  Examples.same_point_twice !! 1%nat = Some (1 # 2, 1 # 2, 1 # 2)%Q ∧
  Examples.two_densities ≠ ∅ ∧
  (∃ msg, sow (Examples.unit_mesh 1 3 3) Examples.conflicting_rawseeds
          = Raise (ValueError msg)) ∧
  (Seed.sow_prisms Examples.same_point_twice Examples.two_densities
     (Examples.unit_mesh 1 3 3) 0%Q (1 # 10000)%Q = Raise IndexError ∨
   Seed.sow_prisms Examples.same_point_twice Examples.two_densities
     (Examples.unit_mesh 1 3 3) 0%Q (1 # 10000)%Q = Raise NameError).
Proof.
  assert (Hne : Examples.two_densities ≠ ∅).
  { unfold Examples.two_densities. apply insert_non_empty. }
  split; [lia|]. split; [reflexivity|]. split; [reflexivity|].
  split; [reflexivity|]. split; [reflexivity|]. split; [reflexivity|].
  split; [exact Hne|].
  apply (seed_conflicts (Examples.unit_mesh 1 3 3)
           Examples.conflicting_rawseeds 0 1
           (1 # 2, 1 # 2, 1 # 2)%Q (1 # 2, 1 # 2, 1 # 2)%Q
           (Examples.density 1000) (Examples.density 500)
           Examples.same_point_twice Examples.two_densities 0%Q (1 # 10000)%Q
           0 1 (1 # 2, 1 # 2, 1 # 2)%Q
           ltac:(lia) eq_refl eq_refl eq_refl eq_refl ltac:(lia) eq_refl eq_refl Hne).
Defined.

Lemma update_untracked_witness :
  DM.tracks Examples.one_point_module (props Examples.magnetic_cell) = false ∧
  DM.update Examples.overshoot Examples.one_point_module Examples.magnetic_cell
    = Examples.one_point_module.
Proof.
  split; [reflexivity|].
  apply (update_untracked Examples.overshoot Examples.one_point_module
           Examples.magnetic_cell eq_refl).
Defined.


(** ** The compactness regularizer *)

Module RegularizerFacts.
Import Regularizer.
Local Open Scope R_scope.

(** What a call returns when the cache has no distance for the candidate,
    or the one computed against this seed. *)
Lemma call_value (r : t) (neighbor seed : Cell) (cn cs : Prism R) :
  getitem (mesh r) (index neighbor) = Some cn →
  getitem (mesh r) (index seed) = Some cs →
  dists r !! index neighbor = None ∨
  dists r !! index neighbor = Some (calc_dist cn cs) →
  call r neighbor seed =
    Ok (reg r + weight r * mu r * calc_dist cn cs ^ power r,
        with_dists r (<[index neighbor := calc_dist cn cs]> (dists r))).
Proof.
  intros Hn Hs Hc. unfold call, cached_dist, with_dists.
  destruct Hc as [Hc|Hc]; rewrite Hc.
  - rewrite Hn, Hs. reflexivity.
  - simpl. by rewrite (insert_id _ _ _ Hc).
Qed.

(** Between cells of one extent the corner distance of [calc_dist] is the
    distance between the centres. *)
Lemma calc_dist_centers (c1 c2 : Prism R) :
  same_extent c1 c2 → calc_dist c1 c2 = center_dist c1 c2.
Proof.
  intros (Hx & Hy & Hz). unfold calc_dist, center_dist, cx, cy, cz.
  f_equal. rewrite !pow2_abs.
  replace ((x1 c1 + x2 c1) / 2 - (x1 c2 + x2 c2) / 2) with (x1 c1 - x1 c2) by lra.
  replace ((y1 c1 + y2 c1) / 2 - (y1 c2 + y2 c2) / 2) with (y1 c1 - y1 c2) by lra.
  replace ((z1 c1 + z2 c1) / 2 - (z1 c2 + z2 c2) / 2) with (z1 c1 - z1 c2) by lra.
  reflexivity.
Qed.

(** The weight set by the constructor. *)
Lemma init_weight seeds (m : Mesh R) mu power nz ny nx dx dy dz :
  shape m = (nz, ny, nx) → dims m = (dx, dy, dz) →
  weight (init seeds m mu power true) =
    1 / ((IZR nx * dx + IZR ny * dy + IZR nz * dz) / 3).
Proof.
  intros Hs Hd. unfold init. simpl. rewrite Hs, Hd. by rewrite Rplus_0_l.
Qed.

(** C6, as it holds on the code (the score of the compactness regularizer):
    called on a candidate and a seed whose cells exist, with no cached
    distance for the candidate or the one computed against this seed, the
    regularizer returns [reg + weight * mu * d^power]: [reg] is the running
    total of the committed scores, which is 0 in a regularizer just built;
    [d] is the Euclidean distance between the lower corners of the two
    cells, which is the distance between their centres when the cells have
    one extent; for a regularizer just built with the weighting on,
    [weight] is the reciprocal of the mean of the three side lengths
    [nx*dx], [ny*dy], [nz*dz] of the mesh; the default exponent is 3. *)
Theorem regularizer_score (r : t) (neighbor seed : Cell) (cn cs : Prism R)
    seeds (m : Mesh R) (mu0 : R) (power0 : nat) nz ny nx dx dy dz :
  getitem (mesh r) (index neighbor) = Some cn →
  getitem (mesh r) (index seed) = Some cs →
  dists r !! index neighbor = None ∨
  dists r !! index neighbor = Some (calc_dist cn cs) →
  shape m = (nz, ny, nx) → dims m = (dx, dy, dz) →
  (∃ r', call r neighbor seed =
           Ok (reg r + weight r * mu r * calc_dist cn cs ^ power r, r') ∧
         reg r' = reg r ∧ weight r' = weight r ∧ mu r' = mu r ∧
         power r' = power r) ∧
  (same_extent cn cs → calc_dist cn cs = center_dist cn cs) ∧
  (let r0 := init seeds m mu0 power0 true in
   reg r0 = 0 ∧ mu r0 = mu0 ∧ power r0 = power0 ∧ dists r0 = ∅ ∧
   weight r0 = 1 / ((IZR nx * dx + IZR ny * dy + IZR nz * dz) / 3)) ∧
  default_power = 3%nat.
Proof.
  intros Hn Hs Hc Hshape Hdims. split; [|split; [|split]].
  - eexists. split; [by apply call_value|]. simpl. auto.
  - apply calc_dist_centers.
  - cbv zeta. repeat split. by apply init_weight.
  - reflexivity.
Qed.

(** The first call on a fresh regularizer over [real_row]. *)
Lemma calc_dist_next :
  calc_dist (Examples.real_cell 1) (Examples.real_cell 0) = 1.
Proof.
  unfold calc_dist, Examples.real_cell. cbn [x1 y1 z1]. rewrite !pow2_abs.
  replace ((1 - 0) ^ 2 + (0 - 0) ^ 2 + (0 - 0) ^ 2) with 1 by ring.
  apply sqrt_1.
Qed.

Lemma calc_dist_second :
  calc_dist (Examples.real_cell 2) (Examples.real_cell 0) = 2.
Proof.
  unfold calc_dist, Examples.real_cell. cbn [x1 y1 z1]. rewrite !pow2_abs.
  replace ((2 - 0) ^ 2 + (0 - 0) ^ 2 + (0 - 0) ^ 2) with (2 * 2) by ring.
  apply sqrt_square. lra.
Qed.

Lemma center_dist_next :
  center_dist (Examples.real_cell 1) (Examples.real_cell 0) = 1.
Proof.
  rewrite <- calc_dist_centers; [apply calc_dist_next|].
  unfold same_extent, Examples.real_cell. simpl. lra.
Qed.

Lemma fresh_weight : weight Examples.fresh_regularizer = 3 / 5.
Proof.
  unfold Examples.fresh_regularizer.
  rewrite (init_weight _ _ _ _ 1 1 3 1 1 1) by reflexivity. lra.
Qed.

(** C6 as stated fails twice over.  In a row of three unit cubes the weight
    of the code is the reciprocal of the mean side length of the mesh,
    [1/((3 + 1 + 1)/3) = 3/5], not of the mean cell dimension, which is 1:
    for the cell next to the seed the first call returns [3/5] where the
    formula of the claim gives 1.  And once that cell is committed, the call
    for the cell two steps from the seed returns [27/5], the running total
    [3/5] on top of [weight * mu * d^power = 24/5]. *)
Lemma regularizer_score_differs :
  let r0 := Examples.fresh_regularizer in
  let origin := mkCell 0 (Examples.density 1000) in
  let next := mkCell 1 (Examples.density 1000) in
  let second := mkCell 2 (Examples.density 1000) in
  ∃ v1 r1 r2 v2 r3,
    call r0 next origin = Ok (v1, r1) ∧ v1 = 3 / 5 ∧
    spec_score Examples.real_row 1 3 (Examples.real_cell 1) (Examples.real_cell 0) = 1 ∧
    v1 ≠ spec_score Examples.real_row 1 3 (Examples.real_cell 1) (Examples.real_cell 0) ∧
    update r1 next = Ok r2 ∧
    call r2 second origin = Ok (v2, r3) ∧ v2 = 27 / 5 ∧
    weight r2 * mu r2 * calc_dist (Examples.real_cell 2) (Examples.real_cell 0) ^ power r2
      = 24 / 5 ∧
    v2 ≠ weight r2 * mu r2 *
         calc_dist (Examples.real_cell 2) (Examples.real_cell 0) ^ power r2.
Proof.
  intros r0 origin next second.
  assert (Hspec : spec_score Examples.real_row 1 3 (Examples.real_cell 1)
                    (Examples.real_cell 0) = 1).
  { unfold spec_score, spec_weight. simpl. rewrite center_dist_next. lra. }
  pose proof (call_value r0 next origin (Examples.real_cell 1) (Examples.real_cell 0)
                eq_refl eq_refl (or_introl eq_refl)) as Hcall1.
  set (r1 := with_dists r0 (<[index next := calc_dist (Examples.real_cell 1)
                                               (Examples.real_cell 0)]> (dists r0)))
    in Hcall1.
  assert (Hv1 : reg r0 + weight r0 * mu r0 *
                calc_dist (Examples.real_cell 1) (Examples.real_cell 0) ^ power r0
                = 3 / 5).
  { unfold r0. rewrite fresh_weight, calc_dist_next. simpl. lra. }
  assert (Hd1 : dists r1 !! index next
                = Some (calc_dist (Examples.real_cell 1) (Examples.real_cell 0))).
  { apply lookup_insert_eq. }
  set (r2 := mk (mu r1) (power r1) (mesh r1)
                (reg r1 + weight r1 * mu r1 *
                 calc_dist (Examples.real_cell 1) (Examples.real_cell 0) ^ power r1)
                (timeline r1 ++
                 [reg r1 + weight r1 * mu r1 *
                  calc_dist (Examples.real_cell 1) (Examples.real_cell 0) ^ power r1])
                (delete (index next) (dists r1)) (weight r1)).
  assert (Hup : update r1 next = Ok r2).
  { unfold update. rewrite Hd1. reflexivity. }
  assert (Hreg2 : reg r2 = 3 / 5) by exact Hv1.
  assert (Hd2 : dists r2 !! index second = None).
  { unfold r2. simpl. rewrite lookup_delete_ne by done.
    rewrite lookup_insert_ne by done. apply lookup_empty. }
  pose proof (call_value r2 second origin (Examples.real_cell 2) (Examples.real_cell 0)
                eq_refl eq_refl (or_introl Hd2)) as Hcall2.
  assert (Hw2 : weight r2 * mu r2 *
                calc_dist (Examples.real_cell 2) (Examples.real_cell 0) ^ power r2
                = 24 / 5).
  { change (weight r2) with (weight r0). unfold r0.
    rewrite fresh_weight, calc_dist_second. simpl. lra. }
  eexists _, r1, r2, _, _.
  split; [exact Hcall1|]. split; [exact Hv1|]. split; [exact Hspec|].
  split; [rewrite Hv1, Hspec; lra|]. split; [exact Hup|].
  split; [exact Hcall2|]. rewrite Hw2, Hreg2.
  split; [lra|]. split; [reflexivity|lra].
Qed.

Lemma regularizer_score_witness :
  getitem (mesh Examples.fresh_regularizer) 1 = Some (Examples.real_cell 1) ∧
  getitem (mesh Examples.fresh_regularizer) 0 = Some (Examples.real_cell 0) ∧
  dists Examples.fresh_regularizer !! 1%Z = None ∧
  ∃ r', call Examples.fresh_regularizer (mkCell 1 (Examples.density 1000))
          (mkCell 0 (Examples.density 1000)) =
        Ok (reg Examples.fresh_regularizer +
            weight Examples.fresh_regularizer * mu Examples.fresh_regularizer *
            calc_dist (Examples.real_cell 1) (Examples.real_cell 0)
              ^ power Examples.fresh_regularizer, r').
Proof.
  split; [reflexivity|]. split; [reflexivity|]. split; [reflexivity|].
  destruct (regularizer_score Examples.fresh_regularizer
              (mkCell 1 (Examples.density 1000)) (mkCell 0 (Examples.density 1000))
              (Examples.real_cell 1) (Examples.real_cell 0)
              [] Examples.real_row 1 3 1 1 3 1 1 1
              eq_refl eq_refl (or_introl eq_refl) eq_refl eq_refl)
    as [(r' & Hcall & _) _].
  exists r'. exact Hcall.
Defined.

End RegularizerFacts.

(** * Further properties of the code *)

(** ** The data module: test-driving and committing *)

Section DataModuleMore.
Variable linalg_norm : list Q → Z → Q.
Variable effect_of_prism : Z → Props → list Q.

(** [misfit] reads the data, the weight, the norm and the shape switch only. *)
Lemma misfit_frame (dm dm' : DM.t) v :
  DM.data dm' = DM.data dm → DM.weight dm' = DM.weight dm →
  DM.norm dm' = DM.norm dm → DM.shaped dm' = DM.shaped dm →
  DM.data_l2norm dm' = DM.data_l2norm dm →
  DM.misfit linalg_norm dm' v = DM.misfit linalg_norm dm v.
Proof.
  intros H1 H2 H3 H4 H5.
  unfold DM.misfit, DM._shape_of_anomaly_l1, DM._shape_of_anomaly_l2.
  by rewrite H1, H2, H3, H4, H5.
Qed.

(** X1: the misfit that [testdrive] returns for an element is exactly the
    misfit of the predicted data that [update] leaves for that element,
    whatever the effect cache holds. *)
Theorem testdrive_predicts_update (dm : DM.t) (element : Cell) :
  (DM.testdrive linalg_norm effect_of_prism dm element).1 =
  DM.misfit linalg_norm (DM.update effect_of_prism dm element)
    (DM.predicted (DM.update effect_of_prism dm element)).
Proof.
  unfold DM.testdrive, DM.update.
  destruct (DM.tracks dm (props element)); simpl; [|reflexivity].
  destruct (DM.cached_effect effect_of_prism dm element) as [e cache]. simpl.
  by apply eq_sym, misfit_frame.
Qed.

(** X2: test-driving an element first changes nothing in what [update] then
    leaves: the same module results, and for an element with the tracked
    property its effect is out of the cache again. *)
Theorem update_after_testdrive (dm : DM.t) (element : Cell) :
  DM.update effect_of_prism
    (DM.testdrive linalg_norm effect_of_prism dm element).2 element
  = DM.update effect_of_prism dm element ∧
  (DM.tracks dm (props element) = true →
   DM.effect (DM.update effect_of_prism dm element) !! index element = None).
Proof.
  split.
  - unfold DM.testdrive.
    destruct (DM.tracks dm (props element)) eqn:Ht; simpl; [|reflexivity].
    destruct (DM.cached_effect effect_of_prism dm element) as [e cache] eqn:Hc.
    simpl. unfold DM.update, DM.tracks in *. simpl. rewrite Ht.
    pose proof (cached_effect_again effect_of_prism dm element e cache Hc) as He.
    unfold DM.cached_effect in *. simpl. rewrite He.
    destruct (DM.effect dm !! index element) as [e'|] eqn:Hd.
    + by injection Hc as <- <-.
    + injection Hc as <- <-. by rewrite delete_insert_eq.
  - intros Ht. unfold DM.update. rewrite Ht.
    destruct (DM.cached_effect effect_of_prism dm element) as [e cache]. simpl.
    apply lookup_delete_eq.
Qed.

Lemma testdrive_predicted (dm : DM.t) (n : Cell) :
  DM.predicted (DM.testdrive linalg_norm effect_of_prism dm n).2 = DM.predicted dm.
Proof.
  unfold DM.testdrive. destruct (negb _); [reflexivity|].
  by destruct (DM.cached_effect effect_of_prism dm n).
Qed.

Lemma testdrive_all_predicted acc (dms : list DM.t) (n : Cell) :
  DM.predicted <$> (DM.testdrive_all linalg_norm effect_of_prism acc dms n).2
  = DM.predicted <$> dms.
Proof.
  revert acc. induction dms as [|dm dms IH]; intros acc; simpl; [reflexivity|].
  pose proof (testdrive_predicted dm n) as Hp.
  destruct (DM.testdrive linalg_norm effect_of_prism dm n) as [m dm'].
  specialize (IH (acc + m)%Q).
  destruct (DM.testdrive_all _ _ _ dms n) as [total dms'']. simpl in *.
  f_equal; [exact Hp|exact IH].
Qed.

Lemma testdrives_predicted (dms : list DM.t) (ns : list Cell) :
  DM.predicted <$> (Seed.testdrives linalg_norm effect_of_prism dms ns).2
  = DM.predicted <$> dms.
Proof.
  revert dms. induction ns as [|n ns IH]; intros dms; simpl; [reflexivity|].
  pose proof (testdrive_all_predicted 0%Q dms n) as Hp.
  destruct (DM.testdrive_all _ _ _ dms n) as [m dms1].
  specialize (IH dms1).
  destruct (Seed.testdrives _ _ dms1 ns) as [ms dms2]. simpl in *.
  by rewrite IH, Hp.
Qed.

End DataModuleMore.

(** ** The seed class and its solver *)

Lemma mapM_Ok_length {A B} (f : A → Result B) (l : list A) (ys : list B) :
  mapM f l = Ok ys → length ys = length l.
Proof.
  revert ys. induction l as [|a l IH]; intros ys Hm.
  - by injection Hm as <-.
  - change (mapM f (a :: l)) with (y ← f a; k ← mapM f l; mret (y :: k)) in Hm.
    destruct (f a) as [b|e]; [|discriminate].
    destruct (mapM f l) as [bs|e]; [|discriminate].
    injection Hm as <-. simpl. by rewrite (IH bs).
Qed.

Section SeedMore.
Variable linalg_norm : list Q → Z → Q.
Variable effect_of_prism : Z → Props → list Q.
Variable _compact_judge :
  Seed.t → list Q → list Q → Q → Q → Result (option (nat * Q * Q)).
Variable _update_neighbors : nat → nat → list Seed.t → list Seed.t.

Lemma testdrives_length (dms : list DM.t) (ns : list Cell) :
  length (Seed.testdrives linalg_norm effect_of_prism dms ns).1 = length ns.
Proof.
  revert dms. induction ns as [|n ns IH]; intros dms; simpl; [reflexivity|].
  destruct (DM.testdrive_all _ _ _ dms n) as [m dms1].
  specialize (IH dms1).
  destruct (Seed.testdrives _ _ dms1 ns) as [ms dms2]. simpl in *. lia.
Qed.

(** What a call of [SeedPrism.grow] that returns went through. *)
Lemma seed_grow_Ok k dms seeds goal misfit change dms' seeds' :
  Seed.grow linalg_norm effect_of_prism _compact_judge _update_neighbors
    k dms seeds goal misfit = Ok (change, dms', seeds') →
  ∃ self goals best,
    seeds !! k = Some self ∧
    dms' = (Seed.testdrives linalg_norm effect_of_prism dms (Seed.neighbors self)).2 ∧
    length goals =
      length (Seed.testdrives linalg_norm effect_of_prism dms (Seed.neighbors self)).1 ∧
    Seed._judge _compact_judge self goals
      (Seed.testdrives linalg_norm effect_of_prism dms (Seed.neighbors self)).1
      goal misfit = Ok best ∧
    match best with
    | None => change = None ∧ seeds' = seeds
    | Some (i, g, m) =>
        ∃ params, Seed.neighbors self !! i = Some params ∧
                  Seed.props self = ∅ ∧
                  change = Some (params, g, m) ∧
                  seeds' = _update_neighbors k i seeds
    end.
Proof.
  unfold Seed.grow. intros Hg.
  destruct (item seeds k) as [self|e] eqn:Hself; [|discriminate].
  apply item_Ok in Hself. simpl in Hg.
  pose proof (testdrives_length dms (Seed.neighbors self)) as Hlen.
  destruct (Seed.testdrives linalg_norm effect_of_prism dms (Seed.neighbors self))
    as [misfits dms1] eqn:Htd.
  simpl in Hlen.
  destruct (mapM _ (zip (Seed.neighbors self) misfits)) as [goals|e] eqn:Hgoals;
    [|discriminate].
  apply mapM_Ok_length in Hgoals. rewrite length_zip_with in Hgoals.
  simpl in Hg.
  destruct (Seed._judge _ self goals misfits goal misfit) as [best|e] eqn:Hj;
    [|discriminate].
  simpl in Hg. exists self, goals, best. rewrite ?Htd. simpl.
  split; [exact Hself|]. split.
  { destruct best as [[[i g] m]|]; [|congruence].
    destruct (item (Seed.neighbors self) i); [|discriminate].
    simpl in Hg. destruct (Seed.unbound_estimate _); [|discriminate].
    simpl in Hg. congruence. }
  split; [simpl; lia|]. split; [exact Hj|].
  destruct best as [[[i g] m]|].
  - destruct (item (Seed.neighbors self) i) as [params|e] eqn:Hi; [|discriminate].
    apply item_Ok in Hi. simpl in Hg. exists params.
    split; [exact Hi|]. unfold Seed.unbound_estimate in Hg.
    destruct (decide (Seed.props self = ∅)) as [Hp|Hp]; [|discriminate].
    simpl in Hg. split; [exact Hp|]. split; congruence.
  - split; congruence.
Qed.

(** X3: a call of [SeedPrism.grow] that returns leaves the predicted data
    of every data module as it was; when it declines, the seeds are as
    they were; and it returns a change only for a seed that has no
    property (for a seed with one, the loop over [self.props] raises
    once a neighbour is chosen), the cell returned being an entry of the
    frontier of the seed. *)
Theorem seed_grow_frame k dms seeds goal misfit change dms' seeds' :
  Seed.grow linalg_norm effect_of_prism _compact_judge _update_neighbors
    k dms seeds goal misfit = Ok (change, dms', seeds') →
  DM.predicted <$> dms' = DM.predicted <$> dms ∧
  match change with
  | None => seeds' = seeds
  | Some (params, g, m) =>
      ∃ self, seeds !! k = Some self ∧ Seed.props self = ∅ ∧
              params ∈ Seed.neighbors self
  end.
Proof.
  intros Hg.
  destruct (seed_grow_Ok _ _ _ _ _ _ _ _ Hg)
    as (self & goals & best & Hself & -> & _ & _ & Hbest).
  split; [apply testdrives_predicted|].
  destruct best as [[[i g] m]|].
  - destruct Hbest as (params & Hi & Hp & -> & _). exists self.
    split; [exact Hself|]. split; [exact Hp|]. by eapply list_elem_of_lookup_2.
  - by destruct Hbest as [-> ->].
Qed.

End SeedMore.

(** ** The growth loop: what a run writes, and how far it can go *)

Section GrowMore.
Context {F D J : Type}.
Variable mesh : Mesh F.
Variable dm_update : D → Cell → D.
Variable dm_total_misfit : D → Q.
Variable jury : J → Cell → list Neighbor → gmap string (gmap Z Q) → D → Q →
  Z → Z → Result (option (nat * Q) * J).

Lemma sweep_length it nseeds todo (st : State D J) onegrew :
  (length (sweep mesh dm_update jury it nseeds todo st onegrew).1.1.1
   ≤ length todo)%nat.
Proof.
  revert st onegrew.
  induction todo as [|[k seed] todo IH]; intros st onegrew; simpl; [lia|].
  destruct (try_seed _ _ _ _ _ _ _ _) as [st1|st1|e]; simpl.
  - specialize (IH st1 true).
    destruct (sweep _ _ _ _ _ _ _ _) as [[[ys st2] g] e]. simpl in *. lia.
  - specialize (IH st1 onegrew). lia.
  - lia.
Qed.

Lemma passes_length fuel it seeds (st : State D J) :
  (length (passes mesh dm_update jury fuel it seeds st)
   ≤ fuel * length seeds)%nat.
Proof.
  revert it st.
  induction fuel as [|fuel IH]; intros it st; simpl; [lia|].
  pose proof (sweep_length it (Z.of_nat (length seeds)) (enumerate seeds) st false)
    as Hs.
  rewrite length_enumerate in Hs.
  destruct (sweep _ _ _ _ _ _ _ _) as [[[ys st'] g] e]. simpl in Hs.
  destruct e; [lia|]. destruct g; [|lia].
  rewrite length_app. specialize (IH (it + 1) st'). lia.
Qed.

(** X4: whatever the jury, the seeds and the data, a run of [grow] makes
    at most [nseeds * (mesh.size - nseeds)] accretions: the loop has
    [mesh.size - nseeds] iterations (none when that number is not
    positive) and every iteration gives each seed one chance. *)
Theorem accretions_per_pass seeds (dms : D) (js : J) :
  Z.of_nat (accretions mesh dm_update dm_total_misfit jury seeds dms js)
  ≤ Z.max 0 (size mesh - Z.of_nat (length seeds)) * Z.of_nat (length seeds).
Proof.
  unfold accretions.
  pose proof (passes_length (Z.to_nat (size mesh - Z.of_nat (length seeds))) 0 seeds
                (grow_init mesh dm_update dm_total_misfit seeds dms js)) as H.
  apply Nat2Z.inj_le in H. rewrite Nat2Z.inj_mul in H.
  replace (Z.max 0 (size mesh - Z.of_nat (length seeds)))
    with (Z.of_nat (Z.to_nat (size mesh - Z.of_nat (length seeds)))) by lia.
  exact H.
Qed.

Lemma est_get_empty p n : est_get ∅ p n = 0%Q.
Proof. unfold est_get, sl_get. by rewrite !lookup_empty. Qed.

Lemma est_get_foldl_declare_props estimate seeds p n :
  est_get (foldl declare_props estimate seeds) p n = est_get estimate p n.
Proof.
  revert estimate. induction seeds as [|s seeds IH]; intros estimate; simpl; [done|].
  by rewrite IH, est_get_declare_props.
Qed.

Lemma foldl_set_props_support estimate seeds p n :
  ¬ (est_get (foldl set_props estimate seeds) p n == 0)%Q →
  ¬ (est_get estimate p n == 0)%Q ∨
  ∃ c, c ∈ seeds ∧ index c = n ∧ is_Some (props c !! p).
Proof.
  revert estimate. induction seeds as [|s seeds IH]; intros estimate; simpl.
  - by left.
  - intros H. apply IH in H as [H|(c & Hc & Hi & Hp)].
    + rewrite est_get_set_props in H. destruct (decide (n = index s)) as [->|Hne].
      * destruct (props s !! p) as [v|] eqn:Hv; simpl in H.
        -- right. exists s. split; [by left|]. split; [done|]. by rewrite Hv.
        -- by left.
      * by left.
    + right. exists c. split; [by right|]. done.
Qed.

Lemma estimate_supported_init seeds (dms : D) (js : J) :
  estimate_supported (grow_init mesh dm_update dm_total_misfit seeds dms js).
Proof.
  intros p n H. unfold grow_init in H. simpl in H.
  apply foldl_set_props_support in H as [H|(c & Hc & Hi & Hp)].
  - rewrite est_get_foldl_declare_props, est_get_empty in H. by destruct H.
  - apply list_elem_of_lookup in Hc as [k Hk].
    exists k, c. split; [|done]. simpl. by apply elem_of_enumerate.
Qed.

Lemma estimate_supported_kept : kept mesh dm_update jury estimate_supported.
Proof.
  intros it nseeds k seed st Hst. unfold try_seed.
  destruct (neighborhood st !! k) as [l|] eqn:Hk; [|done].
  destruct (jury _ _ _ _ _ _ _ _) as [[[[j g]|] js]|e]; [| |done].
  - destruct (l !! j) as [best|] eqn:Hj; [|done].
    intros p n H. simpl in *.
    rewrite est_get_set_props in H.
    destruct (decide (n = index (cell best))) as [->|Hne].
    + destruct (props (cell best) !! p) as [v|] eqn:Hv; simpl in H.
      * exists k, (cell best). split; [|by rewrite Hv].
        apply elem_of_app. right. by apply list_elem_of_singleton.
      * destruct (Hst p _ H) as (k' & c & Hc & Hi & Hp).
        exists k', c. split; [|done]. apply elem_of_app. by left.
    + destruct (Hst p n H) as (k' & c & Hc & Hi & Hp).
      exists k', c. split; [|done]. apply elem_of_app. by left.
  - exact Hst.
Qed.

(** X5: [grow] never writes the estimate anywhere else than at a seed or
    at an accretion: in every changeset, a cell whose value of a property
    is not zero is a cell of the record that carries that property. *)
Theorem grow_writes_only_harvested seeds (dms : D) (js : J) st p n :
  st ∈ grow mesh dm_update dm_total_misfit jury seeds dms js →
  ¬ (est_get (estimate st) p n == 0)%Q →
  ∃ k c, (k, c) ∈ harvested st ∧ index c = n ∧ is_Some (props c !! p).
Proof.
  intros Hst.
  pose proof (grow_kept mesh dm_update dm_total_misfit jury estimate_supported
                seeds dms js estimate_supported_kept
                (estimate_supported_init seeds dms js)) as Hall.
  rewrite Forall_forall in Hall. exact (Hall st Hst p n).
Qed.

End GrowMore.

Section GrowFaces.
Context {F D J : Type}.
Variable mesh : Mesh F.
Variable dm_update : D → Cell → D.
Variable dm_total_misfit : D → Q.
Variable jury : J → Cell → list Neighbor → gmap string (gmap Z Q) → D → Q →
  Z → Z → Result (option (nat * Q) * J).

Lemma fresh_neighbors_face estimate hood c (n : Neighbor) :
  n ∈ fresh_neighbors mesh estimate hood c →
  cell n ∈ find_neighbors c mesh false true true.
Proof.
  intros Hn.
  assert (Hc : cell n ∈ cell <$> fresh_neighbors mesh estimate hood c).
  { apply list_elem_of_fmap. by exists n. }
  rewrite cell_fresh_neighbors in Hc. unfold not_neighbors, free_neighbors in Hc.
  rewrite !elem_of_List_filter in Hc. tauto.
Qed.

Lemma faces_inv_kept nseeds : kept mesh dm_update jury (faces_inv mesh nseeds).
Proof.
  intros it ns k seed st (Hg & Hf & Hlen). unfold try_seed.
  destruct (neighborhood st !! k) as [l|] eqn:Hk; [|done].
  destruct (jury _ _ _ _ _ _ _ _) as [[[[j g]|] js]|e]; [| |done].
  - destruct (l !! j) as [best|] eqn:Hj; [|done].
    destruct (Hf k l best Hk (list_elem_of_lookup_2 _ _ _ Hj)) as (pos0 & c0 & Hpos0 & Hc0).
    pose proof (lookup_lt_Some _ _ _ Hpos0) as Hlt0.
    split; [|split]; simpl.
    + intros pos k' c Hpos Hge.
      apply lookup_app_Some in Hpos as [Hpos|[Hge' Hpos]].
      * destruct (Hg pos k' c Hpos Hge) as (pos' & c' & Hlt & Hpos' & Hc').
        exists pos', c'. split; [done|]. split; [|done].
        apply lookup_app_Some. by left.
      * apply list_lookup_singleton_Some in Hpos as [Hz Heq].
        injection Heq as <- <-.
        exists pos0, c0. split; [lia|]. split; [|done].
        apply lookup_app_Some. by left.
    + intros k' l' n Hk' Hn. simpl in Hk'. simpl.
      destruct (decide (k' = k)) as [->|Hne].
      * rewrite list_lookup_insert_eq in Hk'
          by (rewrite length_insert; by eapply lookup_lt_Some).
        injection Hk' as <-.
        apply elem_of_app in Hn as [Hn|Hn].
        -- assert (Hin : n ∈ l).
           { by eapply list_elem_of_delete_inv. }
           destruct (Hf k l n Hk Hin) as (pos & c & Hpos & Hc).
           exists pos, c. split; [|done]. apply lookup_app_Some. by left.
        -- exists (length (harvested st)), (cell best). split.
           ++ rewrite lookup_app_r by lia. by rewrite Nat.sub_diag.
           ++ by eapply fresh_neighbors_face.
      * rewrite !list_lookup_insert_ne in Hk' by done.
        destruct (Hf k' l' n Hk' Hn) as (pos & c & Hpos & Hc).
        exists pos, c. split; [|done]. apply lookup_app_Some. by left.
    + rewrite length_app. simpl. lia.
  - done.
Qed.

Lemma frontier_rooted_foldl estimate (todo : list Cell) (hood : list (list Neighbor))
    (h : list (nat * Cell)) :
  (∀ k l n, hood !! k = Some l → n ∈ l →
     ∃ pos c, h !! pos = Some (k, c) ∧
              cell n ∈ find_neighbors c mesh false true true) →
  (∀ i s, todo !! i = Some s →
     ∃ pos, h !! pos = Some ((length hood + i)%nat, s)) →
  ∀ k l n,
    foldl (λ hood seed, hood ++ [fresh_neighbors mesh estimate hood seed])
          hood todo !! k = Some l →
    n ∈ l →
    ∃ pos c, h !! pos = Some (k, c) ∧
             cell n ∈ find_neighbors c mesh false true true.
Proof.
  revert hood. induction todo as [|s todo IH]; intros hood Hhood Htodo; simpl.
  - exact Hhood.
  - apply IH.
    + intros k l n Hk Hn.
      apply lookup_app_Some in Hk as [Hk|[Hge Hk]]; [by eapply Hhood|].
      apply list_lookup_singleton_Some in Hk as [Hz <-].
      destruct (Htodo 0%nat s eq_refl) as [pos Hpos].
      exists pos, s. split.
      * rewrite Hpos. do 2 f_equal. lia.
      * by eapply fresh_neighbors_face.
    + intros i s' Hi. destruct (Htodo (S i) s' Hi) as [pos Hpos].
      exists pos. rewrite Hpos, length_app. simpl. do 2 f_equal. lia.
Qed.

Lemma faces_inv_init seeds (dms : D) (js : J) :
  faces_inv mesh (length seeds) (grow_init mesh dm_update dm_total_misfit seeds dms js).
Proof.
  unfold faces_inv, grow_init. simpl. split; [|split].
  - intros pos k c Hpos Hge. apply lookup_lt_Some in Hpos.
    rewrite length_enumerate in Hpos. lia.
  - intros k l n. apply frontier_rooted_foldl.
    + intros k' l' n' Hk'. by rewrite lookup_nil in Hk'.
    + intros i s Hi. exists i. simpl. rewrite lookup_enumerate, Hi. done.
  - by rewrite length_enumerate.
Qed.

Lemma seeds_recorded_kept seeds : kept mesh dm_update jury
  (λ st, seeds_recorded seeds (harvested st)).
Proof.
  intros it ns k seed st Hst. unfold try_seed.
  destruct (neighborhood st !! k) as [l|] eqn:Hk; [|done].
  destruct (jury _ _ _ _ _ _ _ _) as [[[[j g]|] js]|e]; [| |done].
  - destruct (l !! j) as [best|] eqn:Hj; [|done]. simpl.
    intros i s Hi. apply lookup_app_Some. left. by apply Hst.
  - done.
Qed.

(** X6: the body of every seed grows through faces.  In every changeset
    the record starts with the seeds, and every accretion made for the seed
    number [k] is a cell that [find_neighbors] (faces only) returns around
    an earlier cell of the same seed: its index is among the face
    neighbours of that cell and it carries that cell's properties, hence the
    properties of seed [k]. *)
Theorem grow_bodies_connected seeds (dms : D) (js : J) st :
  st ∈ grow mesh dm_update dm_total_misfit jury seeds dms js →
  (∀ k s, seeds !! k = Some s → harvested st !! k = Some (k, s)) ∧
  ∀ pos k c, harvested st !! pos = Some (k, c) → (length seeds ≤ pos)%nat →
    ∃ pos' c', (pos' < pos)%nat ∧ harvested st !! pos' = Some (k, c') ∧
               index c ∈ neighbor_indexes (index c') mesh false true true ∧
               props c = props c'.
Proof.
  intros Hst. split.
  - pose proof (grow_kept mesh dm_update dm_total_misfit jury
                  (λ st, seeds_recorded seeds (harvested st))
                  seeds dms js (seeds_recorded_kept seeds)) as Hall.
    rewrite Forall_forall in Hall. apply Hall; [|exact Hst].
    intros k s Hk. unfold grow_init. simpl. by rewrite lookup_enumerate, Hk.
  - pose proof (grow_kept mesh dm_update dm_total_misfit jury
                  (faces_inv mesh (length seeds)) seeds dms js
                  (faces_inv_kept (length seeds))
                  (faces_inv_init seeds dms js)) as Hall.
    rewrite Forall_forall in Hall. destruct (Hall st Hst) as (Hg & _ & _).
    intros pos k c Hpos Hge.
    destruct (Hg pos k c Hpos Hge) as (pos' & c' & Hlt & Hpos' & Hc).
    exists pos', c'. split; [done|]. split; [done|]. split.
    + rewrite <- find_neighbors_index. apply list_elem_of_fmap. by exists c.
    + by eapply find_neighbors_props.
Qed.

End GrowFaces.

(** ** The shape-of-anomaly jury and the goal along a run *)

Section ShapeJury.
Context {DMod Vec Reg : Type}.
Variable new_predicted : DMod → Neighbor → Vec.
Variable dm_misfit : DMod → Vec → Q.
Variable shape_of_anomaly : DMod → Vec → Q.
Variable reg_call : Reg → Neighbor → Cell → Q * Reg.
Variable reg_update : Reg → Neighbor → Reg.

(** What [shape_jury] went through when it chooses a neighbour. *)
Lemma shape_jury_Some regularizer thresh maxcmp seed neighbors estimate
    datamods goal it nseeds i g r :
  shape_jury new_predicted dm_misfit shape_of_anomaly reg_call reg_update
    regularizer thresh maxcmp seed neighbors estimate datamods goal it nseeds
  = Ok (Some (i, g), r) →
  ∃ n compact,
    compact_threshold maxcmp it nseeds = Ok compact ∧
    let goals :=
      (shape_goals new_predicted dm_misfit reg_call regularizer seed datamods
         (shape_left compact neighbors estimate)).1 in
    (i, n, g) ∈ goals ∧ neighbors !! i = Some n ∧
    is_compact estimate n compact = true ∧
    decreases thresh goal g = Ok true ∧
    ∀ i' n' g', (i', n', g') ∈ goals → decreases thresh goal g' = Ok true →
      (candidate_soa new_predicted shape_of_anomaly datamods n
       <= candidate_soa new_predicted shape_of_anomaly datamods n')%Q.
Proof.
  unfold shape_jury.
  destruct (compact_threshold maxcmp it nseeds) as [compact|e] eqn:Hc; simpl;
    [|discriminate].
  destruct (shape_goals _ _ _ _ _ _ _) as [goals r0] eqn:Hg. simpl.
  destruct (filterM _ goals) as [decreased|e] eqn:Hf; simpl; [|discriminate].
  apply filterM_Ok in Hf as [Hdecreased _].
  assert (Hmem : ∀ i n g, (i, n, g) ∈ decreased ↔
                   (i, n, g) ∈ goals ∧ decreases thresh goal g = Ok true).
  { intros i0 n0 g0. rewrite Hdecreased, elem_of_List_filter. simpl.
    destruct (decreases thresh goal g0) as [[]|]; simpl; split;
      intros [H1 H2]; (split; [exact H1|]); congruence. }
  clear Hdecreased.
  destruct decreased as [|c rest] eqn:Hd; [discriminate|].
  rewrite <- Hd in *.
  set (soa := (λ '(i, n, g), candidate_soa new_predicted shape_of_anomaly datamods n)
                <$> decreased).
  assert (Hne : soa ≠ []).
  { unfold soa. rewrite Hd. done. }
  destruct (argmin_least soa Hne) as (x & Hx & Hmin & _).
  unfold soa in Hx. rewrite list_lookup_fmap in Hx. fold soa in Hx.
  destruct (decreased !! argmin soa) as [[[i0 n] g0]|] eqn:Hbest; [|done].
  simpl in Hx. injection Hx as <-.
  rewrite (proj2 (item_Ok _ _ _) Hbest). simpl. intros [= -> -> _].
  pose proof (list_elem_of_lookup_2 _ _ _ Hbest) as Hin.
  apply Hmem in Hin as [Hin Hdec].
  assert (Hleft : (i, n) ∈ shape_left compact neighbors estimate).
  { eapply shape_goals_elem. rewrite Hg. exact Hin. }
  unfold shape_left in Hleft. apply elem_of_List_filter in Hleft as [Hen Hcmp].
  apply elem_of_enumerate in Hen.
  exists n, compact. split; [reflexivity|]. cbv zeta. rewrite Hg. simpl.
  split; [exact Hin|]. split; [exact Hen|]. split; [exact Hcmp|].
  split; [exact Hdec|].
  intros i' n' g' Hin' Hdec'.
  assert (Hf : (i', n', g') ∈ decreased) by (apply Hmem; by split).
  apply list_elem_of_lookup in Hf as [pos Hpos].
  apply (Hmin pos). unfold soa. by rewrite list_lookup_fmap, Hpos.
Qed.

(** When the threshold is computed and the test of every candidate
    answers, [shape_jury] answers. *)
Lemma shape_jury_None regularizer thresh maxcmp seed neighbors estimate
    datamods goal it nseeds compact :
  compact_threshold maxcmp it nseeds = Ok compact →
  let goals :=
    (shape_goals new_predicted dm_misfit reg_call regularizer seed datamods
       (shape_left compact neighbors estimate)).1 in
  (∀ i n g, (i, n, g) ∈ goals → ∃ b, decreases thresh goal g = Ok b) →
  match shape_jury new_predicted dm_misfit shape_of_anomaly reg_call reg_update
          regularizer thresh maxcmp seed neighbors estimate datamods goal it nseeds with
  | Raise _ => False
  | Ok (None, _) =>
      ∀ i n g, (i, n, g) ∈ goals → decreases thresh goal g = Ok false
  | Ok (Some _, _) => True
  end.
Proof.
  intros Hc goals Hans. unfold shape_jury. subst goals.
  rewrite Hc. simpl.
  destruct (shape_goals _ _ _ _ _ _ _) as [goals r0] eqn:Hg. simpl in *.
  rewrite (filterM_total _ goals).
  2: { intros [[i n] g] Hin. by apply (Hans i n g). }
  simpl.
  remember (List.filter _ goals) as decreased eqn:Hdd.
  assert (Hmem : ∀ i n g, (i, n, g) ∈ goals → decreases thresh goal g = Ok true →
                          (i, n, g) ∈ decreased).
  { intros i n g Hin Hdec. rewrite Hdd. apply elem_of_List_filter.
    split; [exact Hin|]. simpl. by rewrite Hdec. }
  clear Hdd.
  destruct decreased as [|c rest] eqn:Hd.
  - intros i n g Hin.
    destruct (decreases thresh goal g) as [[]|e] eqn:Hdec; [|reflexivity|].
    + specialize (Hmem i n g Hin Hdec). inversion Hmem.
    + destruct (Hans i n g Hin) as [b Hb]. congruence.
  - rewrite <- Hd.
    destruct (lookup_lt_is_Some_2 decreased
                (argmin ((λ '(i, n, g),
                            candidate_soa new_predicted shape_of_anomaly datamods n)
                         <$> decreased))) as [[[i n] g] Hbest].
    { rewrite <- (length_fmap (λ '(i, n, g),
                    candidate_soa new_predicted shape_of_anomaly datamods n)).
      apply argmin_lt_length. rewrite Hd. done. }
    rewrite (proj2 (item_Ok _ _ _) Hbest). simpl. exact I.
Qed.


End ShapeJury.

Section GrowFalls.
Context {F D J : Type}.
Variable mesh : Mesh F.
Variable dm_update : D → Cell → D.
Variable dm_total_misfit : D → Q.
Variable jury : J → Cell → list Neighbor → gmap string (gmap Z Q) → D → Q →
  Z → Z → Result (option (nat * Q) * J).
Hypothesis jury_falls : ∀ js seed neighbors estimate dms g it nseeds i g' r,
  jury js seed neighbors estimate dms g it nseeds = Ok (Some (i, g'), r) →
  (g' < g)%Q.

Lemma try_seed_falls it nseeds k seed (st : State D J) :
  match try_seed mesh dm_update jury it nseeds k seed st with
  | Grew st' => (goal st' < goal st)%Q
  | Declined st' => goal st' = goal st
  | Failed _ => True
  end.
Proof.
  unfold try_seed.
  destruct (neighborhood st !! k) as [l|]; [|done].
  destruct (jury _ _ _ _ _ _ _ _) as [[[[j g]|] js]|e] eqn:Hj; [| |done].
  - destruct (l !! j) as [best|]; [|done]. simpl. by eapply jury_falls.
  - done.
Qed.

Lemma sweep_falls it nseeds todo (st : State D J) onegrew rest :
  let '(ys, st', g, e) := sweep mesh dm_update jury it nseeds todo st onegrew in
  descending (goal st') rest → descending (goal st) (ys ++ rest).
Proof.
  revert st onegrew.
  induction todo as [|[k seed] todo IH]; intros st onegrew; simpl; [done|].
  pose proof (try_seed_falls it nseeds k seed st) as Hstep.
  destruct (try_seed _ _ _ _ _ _ _ _) as [st1|st1|e]; simpl.
  - specialize (IH st1 true).
    destruct (sweep _ _ _ _ _ _ _ _) as [[[ys st2] g] e].
    intros Hrest. simpl. split; [exact Hstep|by apply IH].
  - specialize (IH st1 onegrew).
    destruct (sweep _ _ _ _ _ _ _ _) as [[[ys st2] g] e].
    rewrite Hstep in IH. exact IH.
  - done.
Qed.

Lemma passes_falls fuel it seeds (st : State D J) :
  descending (goal st) (passes mesh dm_update jury fuel it seeds st).
Proof.
  revert it st. induction fuel as [|fuel IH]; intros it st; simpl; [done|].
  pose proof (sweep_falls it (Z.of_nat (length seeds)) (enumerate seeds) st false)
    as Hs.
  destruct (sweep _ _ _ _ _ _ _ _) as [[[ys st'] g] e].
  destruct e.
  - specialize (Hs [] I). by rewrite app_nil_r in Hs.
  - destruct g.
    + apply Hs, IH.
    + specialize (Hs [] I). by rewrite app_nil_r in Hs.
Qed.

Lemma descending_below (g0 : Q) (ys : list (State D J)) j y :
  descending g0 ys → ys !! j = Some y → (goal y < g0)%Q.
Proof.
  revert g0 j. induction ys as [|y0 ys IH]; intros g0 j; simpl; [done|].
  intros [H0 Hd]. destruct j as [|j]; simpl.
  - by intros [= <-].
  - intros Hj. eapply Qlt_trans; [|exact H0]. by eapply IH.
Qed.

Lemma descending_pairs (g0 : Q) (ys : list (State D J)) i j yi yj :
  descending g0 ys → (i < j)%nat → ys !! i = Some yi → ys !! j = Some yj →
  (goal yj < goal yi)%Q.
Proof.
  revert g0 i j. induction ys as [|y0 ys IH]; intros g0 i j; simpl; [done|].
  intros [H0 Hd] Hlt. destruct j as [|j]; [lia|]. destruct i as [|i]; simpl.
  - intros [= <-] Hj. by eapply descending_below.
  - intros Hi Hj. eapply (IH _ i j); [exact Hd|lia|done|done].
Qed.

Lemma grow_falls seeds dms js i j (sti stj : State D J) :
  (i < j)%nat →
  grow mesh dm_update dm_total_misfit jury seeds dms js !! i = Some sti →
  grow mesh dm_update dm_total_misfit jury seeds dms js !! j = Some stj →
  (goal stj < goal sti)%Q.
Proof.
  unfold grow. intros Hlt Hi Hj.
  destruct j as [|j]; [lia|]. simpl in Hj.
  destruct i as [|i]; simpl in Hi.
  - injection Hi as <-. eapply descending_below; [apply passes_falls|exact Hj].
  - eapply (descending_pairs _ _ i j); [apply passes_falls|lia|exact Hi|exact Hj].
Qed.

End GrowFalls.

(** X8: under either jury of the module the goal goes strictly down along
    a run of [grow]: of two changesets the later one has the smaller goal
    (the total data misfit under [standard_jury], the goal function under
    [shape_jury]), so no accretion is ever yielded that does not improve on
    every changeset before it. *)
Theorem grow_goal_falls {F DMod Vec Reg : Type} (mesh : Mesh F)
    (new_predicted : DMod → Neighbor → Vec) (dm_misfit : DMod → Vec → Q)
    (shape_of_anomaly : DMod → Vec → Q)
    (reg_call : Reg → Neighbor → Cell → Q * Reg)
    (reg_update : Reg → Neighbor → Reg)
    (dm_update : list DMod → Cell → list DMod)
    (dm_total_misfit : list DMod → Q) (thresh : Q) (maxcmp : Z)
    seeds dms js (i j : nat) :
  (i < j)%nat →
  (∀ sti stj,
     grow mesh dm_update dm_total_misfit
       (the_standard_jury new_predicted dm_misfit reg_call reg_update thresh)
       seeds dms js !! i = Some sti →
     grow mesh dm_update dm_total_misfit
       (the_standard_jury new_predicted dm_misfit reg_call reg_update thresh)
       seeds dms js !! j = Some stj →
     (goal stj < goal sti)%Q) ∧
  (∀ sti stj,
     grow mesh dm_update dm_total_misfit
       (the_shape_jury new_predicted dm_misfit shape_of_anomaly reg_call
          reg_update thresh maxcmp)
       seeds dms js !! i = Some sti →
     grow mesh dm_update dm_total_misfit
       (the_shape_jury new_predicted dm_misfit shape_of_anomaly reg_call
          reg_update thresh maxcmp)
       seeds dms js !! j = Some stj →
     (goal stj < goal sti)%Q).
Proof.
  intros Hlt. split; intros sti stj Hi Hj.
  - eapply grow_falls; [|exact Hlt|exact Hi|exact Hj].
    intros js0 seed neighbors estimate dms0 g it nseeds i0 g' r Hjury.
    apply (standard_jury_decreases _ _ _ _ dm_update dm_total_misfit) in Hjury.
    by apply decreases_true in Hjury as [H _].
  - eapply grow_falls; [|exact Hlt|exact Hi|exact Hj].
    intros js0 seed neighbors estimate dms0 g it nseeds i0 g' r Hjury.
    unfold the_shape_jury in Hjury.
    apply shape_jury_Some in Hjury as (n & c & _ & _ & _ & _ & Hdec & _).
    by apply decreases_true in Hdec as [H _].
Qed.

(** The run from one seed in the middle of a row of three cells yields the
    first changeset and two accretions. *)
Lemma halving_middle_run :
  length (Examples.halving_grow (Examples.unit_mesh 1 1 3) Examples.middle_seed)
  = 3%nat.
Proof. vm_compute. reflexivity. Qed.

Lemma halving_middle_lookup i :
  (i < 3)%nat →
  ∃ st, Examples.halving_grow (Examples.unit_mesh 1 1 3) Examples.middle_seed !! i
        = Some st.
Proof.
  intros Hi. apply lookup_lt_is_Some. rewrite halving_middle_run. exact Hi.
Qed.

Lemma grow_writes_only_harvested_witness :
  ∃ st,
    st ∈ Examples.halving_grow (Examples.unit_mesh 1 1 3) Examples.middle_seed ∧
    ¬ (est_get (estimate st) "density" 1 == 0)%Q ∧
    ∃ k c, (k, c) ∈ harvested st ∧ index c = 1 ∧
           is_Some (props c !! "density"%string).
Proof.
  destruct (halving_middle_lookup 2 ltac:(lia)) as [st Hst].
  assert (Hin : st ∈ Examples.halving_grow (Examples.unit_mesh 1 1 3)
                       Examples.middle_seed).
  { eapply list_elem_of_lookup_2. exact Hst. }
  assert (Hnz : ¬ (est_get (estimate st) "density" 1 == 0)%Q).
  { vm_compute in Hst. injection Hst as <-. vm_compute. discriminate. }
  exists st. split; [exact Hin|]. split; [exact Hnz|].
  exact (grow_writes_only_harvested (Examples.unit_mesh 1 1 3) Examples.halving_update
           qsum Examples.halving_jury Examples.middle_seed [1%Q] None st
           "density"%string 1 Hin Hnz).
Defined.

Lemma grow_bodies_connected_witness :
  ∃ st,
    Examples.halving_grow (Examples.unit_mesh 1 1 3) Examples.middle_seed !! 2%nat
      = Some st ∧
    length (harvested st) = 3%nat ∧
    ∀ pos k c, harvested st !! pos = Some (k, c) →
      (length Examples.middle_seed ≤ pos)%nat →
      ∃ pos' c', (pos' < pos)%nat ∧ harvested st !! pos' = Some (k, c') ∧
                 index c ∈ neighbor_indexes (index c') (Examples.unit_mesh 1 1 3)
                             false true true ∧
                 props c = props c'.
Proof.
  destruct (halving_middle_lookup 2 ltac:(lia)) as [st Hst].
  exists st. split; [exact Hst|]. split.
  { vm_compute in Hst. injection Hst as <-. reflexivity. }
  exact (proj2 (grow_bodies_connected (Examples.unit_mesh 1 1 3)
                  Examples.halving_update qsum Examples.halving_jury
                  Examples.middle_seed [1%Q] None st
                  (list_elem_of_lookup_2 _ _ _ Hst))).
Defined.

Lemma grow_goal_falls_witness :
  (0 < 2)%nat ∧
  ∃ st0 st2,
    Examples.halving_grow (Examples.unit_mesh 1 1 3) Examples.middle_seed !! 0%nat
      = Some st0 ∧
    Examples.halving_grow (Examples.unit_mesh 1 1 3) Examples.middle_seed !! 2%nat
      = Some st2 ∧
    (goal st2 < goal st0)%Q.
Proof.
  split; [lia|].
  destruct (halving_middle_lookup 0 ltac:(lia)) as [st0 H0].
  destruct (halving_middle_lookup 2 ltac:(lia)) as [st2 H2].
  exists st0, st2. split; [exact H0|]. split; [exact H2|].
  exact (proj1 (grow_goal_falls (Examples.unit_mesh 1 1 3)
                  Examples.halving_new_predicted Examples.halving_misfit
                  Examples.halving_misfit (λ r _ _, (0%Q, r)) (λ r _, r)
                  Examples.halving_update qsum (1 # 10000)%Q 4
                  Examples.middle_seed [1%Q] (None : option unit) 0 2 ltac:(lia))
          st0 st2 H0 H2).
Defined.

(** ** The regularizer between a call and the update that follows it *)

Module RegularizerMore.
Import Regularizer.
Local Open Scope R_scope.

(** What a call that returns leaves behind: the distance it used, cached
    under the index of the candidate. *)
Lemma call_Ok (r : t) (neighbor seed : Cell) v r1 :
  call r neighbor seed = Ok (v, r1) →
  ∃ d cache, r1 = with_dists r cache ∧
       cache !! index neighbor = Some d ∧
       v = reg r + weight r * mu r * d ^ power r ∧
       (dists r !! index neighbor = Some d ∧ cache = dists r ∨
        dists r !! index neighbor = None ∧
        cache = <[index neighbor := d]> (dists r) ∧
        ∃ cn cs, getitem (mesh r) (index neighbor) = Some cn ∧
                 getitem (mesh r) (index seed) = Some cs ∧
                 d = calc_dist cn cs).
Proof.
  unfold call, cached_dist.
  destruct (dists r !! index neighbor) as [d|] eqn:Hd.
  - simpl. intros [= <- <-]. exists d, (dists r).
    split; [done|]. split; [exact Hd|]. split; [done|]. by left.
  - destruct (getitem (mesh r) (index neighbor)) as [cn|] eqn:Hn; [|discriminate].
    destruct (getitem (mesh r) (index seed)) as [cs|] eqn:Hs; [|discriminate].
    simpl. intros [= <- <-].
    exists (calc_dist cn cs), (<[index neighbor := calc_dist cn cs]> (dists r)).
    split; [done|]. split; [by rewrite lookup_insert_eq|]. split; [done|].
    right. split; [done|]. split; [done|]. by exists cn, cs.
Qed.

Lemma calc_dist_nonneg (c1 c2 : Prism R) : 0 <= calc_dist c1 c2.
Proof. unfold calc_dist. apply sqrt_pos. Qed.

(** X9: the update that follows a call makes the promised value the new
    total.  When a call for a candidate returns [v], the [update] for that
    candidate succeeds, sets [reg] to exactly [v], appends [v] to the
    timeline and leaves the other settings alone; it also drops the cached
    distance, so that a second [update] for the same candidate, with no
    call in between, raises [KeyError]. *)
Theorem call_then_update (r : t) (neighbor seed : Cell) v r1 :
  call r neighbor seed = Ok (v, r1) →
  ∃ r2, update r1 neighbor = Ok r2 ∧
        reg r2 = v ∧ timeline r2 = timeline r ++ [v] ∧
        mu r2 = mu r ∧ power r2 = power r ∧ weight r2 = weight r ∧
        dists r2 !! index neighbor = None ∧
        update r2 neighbor = Raise KeyError.
Proof.
  intros Hc. apply call_Ok in Hc as (d & cache & -> & Hd & -> & _).
  unfold update at 1. unfold with_dists at 1. cbn [dists]. rewrite Hd.
  eexists. split; [reflexivity|]. simpl.
  repeat (split; [reflexivity|]).
  split; [apply lookup_delete_eq|].
  unfold update. simpl. by rewrite lookup_delete_eq.
Qed.

(** X10: the distance cache is keyed by the candidate alone.  Once a call
    for a candidate has returned, a call for the same candidate returns the
    same value whatever seed it is given, even a seed whose cell does not
    exist, and changes nothing: the distance to the first seed is reused. *)
Theorem call_reuses_distance (r : t) (neighbor seed seed' : Cell) v r1 :
  call r neighbor seed = Ok (v, r1) →
  call r1 neighbor seed' = Ok (v, r1).
Proof.
  intros Hc. apply call_Ok in Hc as (d & cache & -> & Hd & -> & _).
  unfold call, cached_dist, with_dists. cbn [dists]. rewrite Hd. reflexivity.
Qed.

(** X11: of two candidates that have no cached distance, the one whose
    cell is nearer to the seed gets the smaller value, when [weight * mu]
    is not negative. *)
Theorem call_prefers_nearer (r : t) (n1 n2 seed : Cell) (c1 c2 cs : Prism R) :
  getitem (mesh r) (index n1) = Some c1 →
  getitem (mesh r) (index n2) = Some c2 →
  getitem (mesh r) (index seed) = Some cs →
  dists r !! index n1 = None → dists r !! index n2 = None →
  0 <= weight r * mu r →
  calc_dist c1 cs <= calc_dist c2 cs →
  ∃ v1 r1 v2 r2, call r n1 seed = Ok (v1, r1) ∧ call r n2 seed = Ok (v2, r2) ∧
                 v1 <= v2.
Proof.
  intros H1 H2 Hs Hd1 Hd2 Hw Hle.
  rewrite (RegularizerFacts.call_value r n1 seed c1 cs H1 Hs (or_introl Hd1)).
  rewrite (RegularizerFacts.call_value r n2 seed c2 cs H2 Hs (or_introl Hd2)).
  do 4 eexists. split; [reflexivity|]. split; [reflexivity|].
  apply Rplus_le_compat_l, Rmult_le_compat_l; [exact Hw|].
  apply pow_incr. split; [apply calc_dist_nonneg|exact Hle].
Qed.

(** A regularizer just built has an empty cache and a total of zero; its
    weight is positive on a mesh of positive shape and cell size. *)
Lemma init_nonneg seeds (m : Mesh R) (mu0 : R) power0 nz ny nx dx dy dz :
  shape m = (nz, ny, nx) → dims m = (dx, dy, dz) →
  (0 < nz)%Z → (0 < ny)%Z → (0 < nx)%Z → 0 < dx → 0 < dy → 0 < dz → 0 <= mu0 →
  cache_nonneg (init seeds m mu0 power0 true) ∧
  0 <= weight (init seeds m mu0 power0 true) * mu (init seeds m mu0 power0 true).
Proof.
  intros Hsh Hd Hz Hy Hx Hdx Hdy Hdz Hmu. split.
  - unfold cache_nonneg, init. simpl. apply map_Forall_empty.
  - rewrite (RegularizerFacts.init_weight seeds m mu0 power0 nz ny nx dx dy dz Hsh Hd).
    unfold init. cbn [mu].
    apply Rmult_le_pos; [|exact Hmu].
    apply Rlt_le, Rdiv_lt_0_compat; [lra|].
    apply IZR_lt in Hz, Hy, Hx.
    assert (0 < IZR nx * dx) by (apply Rmult_lt_0_compat; assumption).
    assert (0 < IZR ny * dy) by (apply Rmult_lt_0_compat; assumption).
    assert (0 < IZR nz * dz) by (apply Rmult_lt_0_compat; assumption).
    lra.
Qed.

(** X12: the running total never goes down.  As long as no cached
    distance is negative and [weight * mu] is not negative, which holds of
    a regularizer as [__init__] builds it from a non-negative [mu], a call
    returns at least the current total and leaves the total alone, an
    update does not decrease the total, and both keep these two
    conditions. *)
Theorem total_never_decreases (r : t) (neighbor seed : Cell) :
  cache_nonneg r → 0 <= weight r * mu r →
  (∀ v r', call r neighbor seed = Ok (v, r') →
     reg r <= v ∧ reg r' = reg r ∧
     cache_nonneg r' ∧ weight r' * mu r' = weight r * mu r) ∧
  (∀ r', update r neighbor = Ok r' →
     reg r <= reg r' ∧
     cache_nonneg r' ∧ weight r' * mu r' = weight r * mu r).
Proof.
  intros Hc Hw. split.
  - intros v r' Hcall.
    apply call_Ok in Hcall as (d & cache & -> & Hd & -> & Hcase).
    assert (Hd0 : 0 <= d).
    { destruct Hcase as [[Hold _]|(_ & _ & cn & cs & _ & _ & ->)].
      - exact (Hc _ _ Hold).
      - apply calc_dist_nonneg. }
    split; [|split; [reflexivity|split; [|reflexivity]]].
    + assert (0 <= weight r * mu r * d ^ power r).
      { apply Rmult_le_pos; [exact Hw|]. by apply pow_le. }
      lra.
    + unfold cache_nonneg, with_dists. cbn [dists].
      destruct Hcase as [[_ ->]|(_ & -> & cn & cs & _ & _ & ->)]; [exact Hc|].
      apply map_Forall_insert_2; [apply calc_dist_nonneg|exact Hc].
  - intros r'. unfold update.
    destruct (dists r !! index neighbor) as [d|] eqn:Hd; [|discriminate].
    intros [= <-]. simpl.
    assert (0 <= weight r * mu r * d ^ power r).
    { apply Rmult_le_pos; [exact Hw|]. apply pow_le. exact (Hc _ _ Hd). }
    split; [lra|]. split; [|reflexivity].
    unfold cache_nonneg. simpl. by apply map_Forall_delete.
Qed.

Lemma fresh_call_next :
  call Examples.fresh_regularizer (mkCell 1 (Examples.density 1000))
       (mkCell 0 (Examples.density 1000))
  = Ok (reg Examples.fresh_regularizer +
        weight Examples.fresh_regularizer * mu Examples.fresh_regularizer *
        calc_dist (Examples.real_cell 1) (Examples.real_cell 0)
          ^ power Examples.fresh_regularizer,
        with_dists Examples.fresh_regularizer
          (<[1%Z := calc_dist (Examples.real_cell 1) (Examples.real_cell 0)]>
             (dists Examples.fresh_regularizer))).
Proof.
  exact (RegularizerFacts.call_value Examples.fresh_regularizer
           (mkCell 1 (Examples.density 1000)) (mkCell 0 (Examples.density 1000))
           (Examples.real_cell 1) (Examples.real_cell 0) eq_refl eq_refl
           (or_introl eq_refl)).
Qed.

Lemma fresh_nonneg :
  cache_nonneg Examples.fresh_regularizer ∧
  0 <= weight Examples.fresh_regularizer * mu Examples.fresh_regularizer.
Proof.
  apply (init_nonneg [] Examples.real_row 1 default_power 1 1 3 1 1 1);
    try reflexivity; try lia; lra.
Qed.

Lemma call_then_update_witness :
  ∃ v r1 r2,
    call Examples.fresh_regularizer (mkCell 1 (Examples.density 1000))
         (mkCell 0 (Examples.density 1000)) = Ok (v, r1) ∧
    update r1 (mkCell 1 (Examples.density 1000)) = Ok r2 ∧
    reg r2 = v ∧
    update r2 (mkCell 1 (Examples.density 1000)) = Raise KeyError.
Proof.
  destruct (call_then_update _ _ _ _ _ fresh_call_next)
    as (r2 & Hu & Hr & _ & _ & _ & _ & _ & Hk).
  eexists _, _, r2. split; [exact fresh_call_next|]. split; [exact Hu|].
  split; [exact Hr|exact Hk].
Defined.

Lemma call_reuses_distance_witness :
  ∃ v r1,
    call Examples.fresh_regularizer (mkCell 1 (Examples.density 1000))
         (mkCell 0 (Examples.density 1000)) = Ok (v, r1) ∧
    call r1 (mkCell 1 (Examples.density 1000)) (mkCell 2 (Examples.density 1000))
      = Ok (v, r1) ∧
    call r1 (mkCell 1 (Examples.density 1000)) (mkCell 7 (Examples.density 1000))
      = Ok (v, r1).
Proof.
  eexists _, _. split; [exact fresh_call_next|]. split.
  - exact (call_reuses_distance _ _ _ (mkCell 2 (Examples.density 1000)) _ _
             fresh_call_next).
  - exact (call_reuses_distance _ _ _ (mkCell 7 (Examples.density 1000)) _ _
             fresh_call_next).
Defined.

Lemma call_prefers_nearer_witness :
  calc_dist (Examples.real_cell 1) (Examples.real_cell 0)
    <= calc_dist (Examples.real_cell 2) (Examples.real_cell 0) ∧
  ∃ v1 r1 v2 r2,
    call Examples.fresh_regularizer (mkCell 1 (Examples.density 1000))
         (mkCell 0 (Examples.density 1000)) = Ok (v1, r1) ∧
    call Examples.fresh_regularizer (mkCell 2 (Examples.density 1000))
         (mkCell 0 (Examples.density 1000)) = Ok (v2, r2) ∧
    v1 <= v2.
Proof.
  assert (Hle : calc_dist (Examples.real_cell 1) (Examples.real_cell 0)
                <= calc_dist (Examples.real_cell 2) (Examples.real_cell 0)).
  { rewrite RegularizerFacts.calc_dist_next, RegularizerFacts.calc_dist_second. lra. }
  split; [exact Hle|].
  exact (call_prefers_nearer Examples.fresh_regularizer
           (mkCell 1 (Examples.density 1000)) (mkCell 2 (Examples.density 1000))
           (mkCell 0 (Examples.density 1000))
           (Examples.real_cell 1) (Examples.real_cell 2) (Examples.real_cell 0)
           eq_refl eq_refl eq_refl eq_refl eq_refl (proj2 fresh_nonneg) Hle).
Defined.

Lemma total_never_decreases_witness :
  cache_nonneg Examples.fresh_regularizer ∧
  0 <= weight Examples.fresh_regularizer * mu Examples.fresh_regularizer ∧
  ∀ v r',
    call Examples.fresh_regularizer (mkCell 1 (Examples.density 1000))
         (mkCell 0 (Examples.density 1000)) = Ok (v, r') →
    reg Examples.fresh_regularizer <= v ∧ reg r' = reg Examples.fresh_regularizer ∧
    cache_nonneg r' ∧
    weight r' * mu r'
    = weight Examples.fresh_regularizer * mu Examples.fresh_regularizer.
Proof.
  split; [exact (proj1 fresh_nonneg)|]. split; [exact (proj2 fresh_nonneg)|].
  exact (proj1 (total_never_decreases Examples.fresh_regularizer
                  (mkCell 1 (Examples.density 1000)) (mkCell 0 (Examples.density 1000))
                  (proj1 fresh_nonneg) (proj2 fresh_nonneg))).
Defined.

(** X28: the value a call gives a candidate does not depend on the calls
    made before it for the same seed.  When the calls for the candidates
    [n'] and [n] both return from one state of the regularizer, the call
    for [n] made after the call for [n'] returns the value the call for
    [n] made first returns: a call only fills the cache of distances, and
    with the distance the later call would compute. *)
Theorem call_value_stable (r : t) (n' n seed : Cell) v' r1 v r2 :
  call r n' seed = Ok (v', r1) →
  call r n seed = Ok (v, r2) →
  ∃ r3, call r1 n seed = Ok (v, r3).
Proof.
  intros H1 H2.
  apply call_Ok in H1 as (d' & cache' & -> & Hd' & -> & Hcase').
  apply call_Ok in H2 as (d & cache & -> & Hd & -> & Hcase).
  unfold call, cached_dist, with_dists. cbn [dists mesh reg weight mu power].
  destruct Hcase' as [[_ ->] | (Hnone' & -> & cn' & cs' & Hgn' & Hgs' & ->)].
  - destruct Hcase as [[Hsome ->] | (Hnone & -> & cn & cs & Hgn & Hgs & ->)].
    + rewrite Hsome. eexists. reflexivity.
    + rewrite Hnone, Hgn, Hgs. eexists. reflexivity.
  - destruct (decide (index n = index n')) as [E|NE].
    + rewrite E, lookup_insert_eq. simpl.
      destruct Hcase as [[Hsome _] | (_ & _ & cn & cs & Hgn & Hgs & ->)].
      * rewrite E in Hsome. congruence.
      * rewrite E in Hgn. rewrite Hgn in Hgn'. rewrite Hgs in Hgs'.
        injection Hgn' as ->. injection Hgs' as ->. eexists. reflexivity.
    + rewrite lookup_insert_ne by congruence.
      destruct Hcase as [[Hsome ->] | (Hnone & -> & cn & cs & Hgn & Hgs & ->)].
      * rewrite Hsome. eexists. reflexivity.
      * rewrite Hnone, Hgn, Hgs. eexists. reflexivity.
Qed.

Lemma fresh_call_second :
  call Examples.fresh_regularizer (mkCell 2 (Examples.density 1000))
       (mkCell 0 (Examples.density 1000))
  = Ok (reg Examples.fresh_regularizer +
        weight Examples.fresh_regularizer * mu Examples.fresh_regularizer *
        calc_dist (Examples.real_cell 2) (Examples.real_cell 0)
          ^ power Examples.fresh_regularizer,
        with_dists Examples.fresh_regularizer
          (<[2%Z := calc_dist (Examples.real_cell 2) (Examples.real_cell 0)]>
             (dists Examples.fresh_regularizer))).
Proof.
  exact (RegularizerFacts.call_value Examples.fresh_regularizer
           (mkCell 2 (Examples.density 1000)) (mkCell 0 (Examples.density 1000))
           (Examples.real_cell 2) (Examples.real_cell 0) eq_refl eq_refl
           (or_introl eq_refl)).
Qed.

Lemma call_value_stable_witness :
  ∃ v' r1 v r2 r3,
    call Examples.fresh_regularizer (mkCell 1 (Examples.density 1000))
         (mkCell 0 (Examples.density 1000)) = Ok (v', r1) ∧
    call Examples.fresh_regularizer (mkCell 2 (Examples.density 1000))
         (mkCell 0 (Examples.density 1000)) = Ok (v, r2) ∧
    call r1 (mkCell 2 (Examples.density 1000)) (mkCell 0 (Examples.density 1000))
      = Ok (v, r3).
Proof.
  destruct (call_value_stable _ _ _ _ _ _ _ _ fresh_call_next fresh_call_second)
    as [r3 H3].
  eexists _, _, _, _, r3. split; [exact fresh_call_next|].
  split; [exact fresh_call_second|exact H3].
Defined.

End RegularizerMore.

(** ** The solver's bookkeeping *)

Section SolverMore.
Variable linalg_norm : list Q → Z → Q.
Variable effect_of_prism : Z → Props → list Q.
Variable _compact_judge :
  Seed.t → list Q → list Q → Q → Q → Result (option (nat * Q * Q)).
Variable _update_neighbors : nat → nat → list Seed.t → list Seed.t.

Lemma cache_extends_refl dm : cache_extends dm dm.
Proof. repeat split; done. Qed.

Lemma cache_extends_trans dm1 dm2 dm3 :
  cache_extends dm1 dm2 → cache_extends dm2 dm3 → cache_extends dm1 dm3.
Proof.
  intros (A1 & A2 & A3 & A4 & A5 & A6 & A7 & A8) (B1 & B2 & B3 & B4 & B5 & B6 & B7 & B8).
  repeat split; try congruence. intros i e He. by apply B8, A8.
Qed.

Lemma testdrive_extends dm n :
  cache_extends dm (DM.testdrive linalg_norm effect_of_prism dm n).2.
Proof.
  unfold DM.testdrive. destruct (negb _); [apply cache_extends_refl|].
  unfold DM.cached_effect.
  destruct (DM.effect dm !! index n) as [e|] eqn:He; simpl.
  - repeat split; done.
  - repeat split; try done. simpl. intros i e Hi.
    rewrite lookup_insert_ne; [exact Hi|]. intros Heq. rewrite Heq in He. congruence.
Qed.

Lemma testdrive_all_snd acc (dms : list DM.t) n :
  (DM.testdrive_all linalg_norm effect_of_prism acc dms n).2
  = (λ dm, (DM.testdrive linalg_norm effect_of_prism dm n).2) <$> dms.
Proof.
  revert acc. induction dms as [|dm dms IH]; intros acc; simpl; [reflexivity|].
  destruct (DM.testdrive linalg_norm effect_of_prism dm n) as [m dm'].
  specialize (IH (acc + m)%Q).
  destruct (DM.testdrive_all _ _ _ dms n) as [total dms'']. simpl in *.
  by rewrite IH.
Qed.

Lemma testdrive_all_fst acc (dms : list DM.t) n :
  (DM.testdrive_all linalg_norm effect_of_prism acc dms n).1
  = foldl Qplus acc ((λ dm, (DM.testdrive linalg_norm effect_of_prism dm n).1) <$> dms).
Proof.
  revert acc. induction dms as [|dm dms IH]; intros acc; simpl; [reflexivity|].
  destruct (DM.testdrive linalg_norm effect_of_prism dm n) as [m dm'].
  specialize (IH (acc + m)%Q).
  destruct (DM.testdrive_all _ _ _ dms n) as [total dms'']. simpl in *.
  exact IH.
Qed.

Lemma Forall2_cache_extends_refl dms : Forall2 cache_extends dms dms.
Proof. induction dms; constructor; [apply cache_extends_refl|done]. Qed.

Lemma Forall2_cache_extends_trans dms1 dms2 dms3 :
  Forall2 cache_extends dms1 dms2 → Forall2 cache_extends dms2 dms3 →
  Forall2 cache_extends dms1 dms3.
Proof.
  intros H12. revert dms3. induction H12; intros dms3 H23; inversion H23; subst.
  - constructor.
  - constructor; [by eapply cache_extends_trans|by apply IHForall2].
Qed.

Lemma testdrive_all_extends acc (dms : list DM.t) n :
  Forall2 cache_extends dms (DM.testdrive_all linalg_norm effect_of_prism acc dms n).2.
Proof.
  rewrite testdrive_all_snd. induction dms as [|dm dms IH]; csimpl; constructor.
  - apply testdrive_extends.
  - exact IH.
Qed.

Lemma testdrives_extends (dms : list DM.t) ns :
  Forall2 cache_extends dms (Seed.testdrives linalg_norm effect_of_prism dms ns).2.
Proof.
  revert dms. induction ns as [|n ns IH]; intros dms; simpl.
  - apply Forall2_cache_extends_refl.
  - pose proof (testdrive_all_extends 0%Q dms n) as H1.
    destruct (DM.testdrive_all _ _ _ dms n) as [m dms1].
    specialize (IH dms1).
    destruct (Seed.testdrives _ _ dms1 ns) as [ms dms2]. simpl in *.
    by eapply Forall2_cache_extends_trans.
Qed.

(** The total misfit does not look at the effect caches. *)
Lemma total_misfit_extends (dms dms' : list DM.t) :
  Forall2 cache_extends dms dms' →
  total_misfit linalg_norm dms' = total_misfit linalg_norm dms.
Proof.
  intros H. unfold total_misfit. f_equal.
  induction H as [|dm dm' dms dms' Hd _ IH]; csimpl; [reflexivity|].
  destruct Hd as (A1 & A2 & A3 & A4 & A5 & A6 & A7 & A8).
  rewrite IH, A2. f_equal. by apply misfit_frame.
Qed.

(** The misfit found by test-driving a cell is the misfit the module has
    after [update] of that cell, also when other cells have been
    test-driven in between. *)
Lemma update_misfit_extends (dm dm' : DM.t) n :
  cache_extends (DM.testdrive linalg_norm effect_of_prism dm n).2 dm' →
  DM.misfit linalg_norm (DM.update effect_of_prism dm' n)
    (DM.predicted (DM.update effect_of_prism dm' n))
  = (DM.testdrive linalg_norm effect_of_prism dm n).1.
Proof.
  unfold DM.testdrive, DM.update, DM.tracks.
  destruct (DM.prop_type dm) as [p|] eqn:Hp; cycle 1.
  { simpl. intros (A1 & A2 & A3 & A4 & A5 & A6 & A7 & A8).
    rewrite A3, Hp, A2. by apply misfit_frame. }
  destruct (bool_decide (is_Some (props n !! p))) eqn:Ht; simpl; cycle 1.
  { intros (A1 & A2 & A3 & A4 & A5 & A6 & A7 & A8).
    rewrite A3, Hp, Ht, A2. by apply misfit_frame. }
  destruct (DM.cached_effect effect_of_prism dm n) as [e cache] eqn:Hc. simpl.
  intros (A1 & A2 & A3 & A4 & A5 & A6 & A7 & A8). simpl in *.
  rewrite A3, Ht.
  pose proof (cached_effect_again effect_of_prism dm n e cache Hc) as He.
  apply A8 in He. unfold DM.cached_effect. rewrite He. simpl.
  rewrite A2. by apply misfit_frame.
Qed.

Lemma update_misfits_extend (dms dms' : list DM.t) n :
  Forall2 cache_extends
    ((λ dm, (DM.testdrive linalg_norm effect_of_prism dm n).2) <$> dms) dms' →
  total_misfit linalg_norm ((λ dm, DM.update effect_of_prism dm n) <$> dms')
  = (DM.testdrive_all linalg_norm effect_of_prism 0%Q dms n).1.
Proof.
  rewrite testdrive_all_fst. unfold total_misfit, qsum. intros H. f_equal.
  revert dms' H. induction dms as [|dm dms IH]; intros dms' H; csimpl in *.
  - by inversion H.
  - inversion H as [|? dm' ? dms'' Hd Hrest]; subst. csimpl.
    rewrite (IH _ Hrest). f_equal. by apply update_misfit_extends.
Qed.

(** Every misfit that [grow] computes for a neighbour is the total misfit
    the data modules reach when the solver then updates them with that
    neighbour. *)
Lemma testdrives_misfits (dms dms'' : list DM.t) ns i n m :
  Forall2 cache_extends (Seed.testdrives linalg_norm effect_of_prism dms ns).2 dms'' →
  ns !! i = Some n →
  (Seed.testdrives linalg_norm effect_of_prism dms ns).1 !! i = Some m →
  m = total_misfit linalg_norm ((λ dm, DM.update effect_of_prism dm n) <$> dms'').
Proof.
  revert dms i. induction ns as [|n0 ns IH]; intros dms i; simpl; [done|].
  pose proof (testdrive_all_snd 0%Q dms n0) as Hsnd.
  pose proof (update_misfits_extend dms dms'' n0) as Hfst.
  destruct (DM.testdrive_all _ _ _ dms n0) as [m0 dms1].
  pose proof (testdrives_extends dms1 ns) as Hext.
  specialize (IH dms1).
  destruct (Seed.testdrives _ _ dms1 ns) as [ms dms2]. simpl in *.
  intros H2 Hi Hm. destruct i as [|i]; simpl in *.
  - injection Hi as <-. injection Hm as <-. symmetry. apply Hfst.
    rewrite <- Hsnd. by eapply Forall2_cache_extends_trans.
  - by eapply IH.
Qed.

Hypothesis compact_judge_reports : judge_reports_misfit _compact_judge.

Lemma judge_reports (self : Seed.t) goals misfits goal misfit i g m :
  length goals = length misfits →
  Seed._judge _compact_judge self goals misfits goal misfit = Ok (Some (i, g, m)) →
  misfits !! i = Some m.
Proof.
  intros Hlen. unfold Seed._judge. destruct (Seed.compact self).
  - apply compact_judge_reports.
  - intros Hj.
    destruct (Seed.judge_decreased (Seed.delta self) misfits misfit)
      as [decreased|e] eqn:Hdec.
    2: { unfold Seed._standard_judge in Hj. rewrite Hdec in Hj. discriminate. }
    pose proof (standard_judge_best self goals misfits goal misfit decreased
                  Hlen Hdec) as Hb.
    rewrite Hj in Hb. tauto.
Qed.


(** X26: [_harvest_solver] does not return a result.  When its loop has
    ended it calls [_cat_estimate], which reads [seeds[0].kind]: with no
    seed that is an [IndexError], and a [SeedPrism] has no attribute
    [kind].  The loop itself ends at the first pass in which no seed
    grows. *)
Theorem harvest_solver_raises fuel dms seeds first_goal :
  (∀ result,
     Seed._harvest_solver linalg_norm effect_of_prism _compact_judge
       _update_neighbors fuel dms seeds first_goal ≠ Ok (Some result)) ∧
  (∀ run,
     Seed.solver_loop linalg_norm effect_of_prism _compact_judge _update_neighbors
       fuel (Seed.mkRun dms seeds [first_goal] [first_goal] first_goal first_goal)
     = Ok (Some run) →
     Seed._harvest_solver linalg_norm effect_of_prism _compact_judge
       _update_neighbors fuel dms seeds first_goal
     = Raise (if Seed.seeds run is [] then IndexError else AttributeError)) ∧
  (∀ r r',
     Seed.solver_pass linalg_norm effect_of_prism _compact_judge _update_neighbors
       (seq 0 (length (Seed.seeds r))) r false = Ok (r', false) →
     Seed.solver_loop linalg_norm effect_of_prism _compact_judge _update_neighbors
       (S fuel) r = Ok (Some r')).
Proof.
  split; [|split].
  - intros result. unfold Seed._harvest_solver.
    destruct (Seed.solver_loop _ _ _ _ _ _) as [[[d ss gs ms g m]|]|e]; simpl;
      [|discriminate|discriminate].
    destruct ss; discriminate.
  - intros run Hl. unfold Seed._harvest_solver. rewrite Hl. simpl.
    destruct run as [d ss gs ms g m]. simpl. by destruct ss.
  - intros r r' Hp. simpl. by rewrite Hp.
Qed.

End SolverMore.

Lemma compact_judge_pass_reports : judge_reports_misfit Seed._compact_judge_pass.
Proof. intros self goals misfits goal misfit i g m H. discriminate. Qed.

Lemma seed_grow_frame_witness :
  ∃ change dms' seeds',
    Seed.grow Examples.l1_norm Examples.overshoot Seed._compact_judge_pass
      Seed._update_neighbors_pass 0 [Examples.one_point_module]
      [Examples.seed_with_frontier] 1%Q 1%Q = Ok (change, dms', seeds') ∧
    DM.predicted <$> dms' = DM.predicted <$> [Examples.one_point_module] ∧
    match change with
    | None => seeds' = [Examples.seed_with_frontier]
    | Some (params, g, m) =>
        ∃ self, [Examples.seed_with_frontier] !! 0%nat = Some self ∧
                Seed.props self = ∅ ∧ params ∈ Seed.neighbors self
    end.
Proof.
  destruct (Seed.grow Examples.l1_norm Examples.overshoot Seed._compact_judge_pass
              Seed._update_neighbors_pass 0 [Examples.one_point_module]
              [Examples.seed_with_frontier] 1%Q 1%Q)
    as [[[change dms'] seeds']|e] eqn:Hg; [|vm_compute in Hg; discriminate].
  exists change, dms', seeds'. split; [reflexivity|].
  exact (seed_grow_frame Examples.l1_norm Examples.overshoot
           Seed._compact_judge_pass Seed._update_neighbors_pass 0
           [Examples.one_point_module] [Examples.seed_with_frontier]
           1%Q 1%Q change dms' seeds' Hg).
Defined.


(** ** Soundness of the neighbour search *)

Lemma coords_offset (nz ny nx x y z : Z) :
  0 < nx → 0 < ny → 0 ≤ x < nx → 0 ≤ y < ny →
  (x + nx * y + nx * ny * z) mod nx = x ∧
  ((x + nx * y + nx * ny * z) / nx) mod ny = y ∧
  (x + nx * y + nx * ny * z) / (nx * ny) = z.
Proof.
  intros Hx Hy Hxr Hyr.
  assert (Hd : (x + nx * y + nx * ny * z) / nx = y + ny * z).
  { symmetry. apply (Z.div_unique_pos _ _ _ x); [lia|ring]. }
  split; [|split].
  - symmetry. apply (Z.mod_unique_pos _ _ (y + ny * z)); [lia|ring].
  - rewrite Hd. symmetry. apply (Z.mod_unique_pos _ _ z); [lia|ring].
  - rewrite <- Z.div_div by lia. rewrite Hd.
    symmetry. apply (Z.div_unique_pos _ _ _ y); [lia|ring].
Qed.

Lemma coords_decompose (nz ny nx n : Z) :
  0 < nx → 0 < ny → 0 < nz → 0 ≤ n < nz * ny * nx →
  let x := n mod nx in
  let y := (n / nx) mod ny in
  let z := n / (nx * ny) in
  n = x + nx * y + nx * ny * z ∧
  0 ≤ x < nx ∧ 0 ≤ y < ny ∧ 0 ≤ z < nz ∧
  n mod (nx * ny) = x + nx * y.
Proof.
  intros Hx Hy Hz Hn x y z.
  assert (Hm : n mod (nx * ny) = x + nx * y).
  { unfold x, y. apply Z.rem_mul_r; lia. }
  pose proof (Z.div_mod n (nx * ny) ltac:(lia)) as Hdm.
  pose proof (Z.mod_pos_bound n nx Hx) as Hxb.
  pose proof (Z.mod_pos_bound (n / nx) ny Hy) as Hyb.
  fold x in Hxb. fold y in Hyb. fold z in Hdm.
  split; [lia|]. split; [exact Hxb|]. split; [exact Hyb|]. split; [|exact Hm].
  split.
  - apply Z.div_pos; lia.
  - apply Z.div_lt_upper_bound; [lia|]. lia.
Qed.


Lemma elem_of_omap_present_2 {F} (mesh : Mesh F) (l : list (option Z)) i :
  Some i ∈ l → is_Some (getitem mesh i) → i ∈ omap (present mesh) l.
Proof.
  intros Hi [p Hp]. apply list_elem_of_omap. exists (Some i).
  split; [exact Hi|]. simpl. by rewrite Hp.
Qed.

Section Adjacency.
Context {F : Type}.
Variable mesh : Mesh F.
Variables nz ny nx x y z n : Z.
Hypothesis Hshape : shape mesh = (nz, ny, nx).
Hypothesis Hsize : size mesh = nz * ny * nx.
Hypothesis Hnx : 0 < nx.
Hypothesis Hny : 0 < ny.
Hypothesis Hx : 0 ≤ x < nx.
Hypothesis Hy : 0 ≤ y < ny.
Hypothesis Hz : 0 ≤ z < nz.
Hypothesis Hn : n = x + nx * y + nx * ny * z.

Lemma row_bound : 0 ≤ x + nx * y < nx * ny.
Proof. nia. Qed.

Lemma n_mod_nx : n mod nx = x.
Proof. rewrite Hn. by apply (coords_offset nz ny nx x y z). Qed.

Lemma n_mod_layer : n mod (nx * ny) = x + nx * y.
Proof.
  rewrite Hn. symmetry. apply (Z.mod_unique_pos _ _ z); [apply row_bound|ring].
Qed.

Lemma above_Some up a :
  above n mesh up = Some a → a = n - nx * ny ∧ 1 ≤ z ∧ up = true.
Proof.
  unfold above. rewrite Hshape. destruct up; simpl; [|discriminate].
  destruct (0 <? n - nx * ny) eqn:Hc; [|discriminate]. intros [= <-].
  apply Z.ltb_lt in Hc. split; [done|]. split; [|done]. pose proof row_bound. nia.
Qed.

Lemma bellow_Some down b :
  bellow n mesh down = Some b → b = n + nx * ny ∧ z + 1 < nz ∧ down = true.
Proof.
  unfold bellow. rewrite Hshape, Hsize. destruct down; simpl; [|discriminate].
  destruct (n + nx * ny <? nz * ny * nx) eqn:Hc; [|discriminate]. intros [= <-].
  apply Z.ltb_lt in Hc. split; [done|]. split; [|done]. pose proof row_bound. nia.
Qed.

Lemma front_Some f : front n mesh = Some f → f = n + 1 ∧ x + 1 < nx.
Proof.
  unfold front. rewrite Hshape, n_mod_nx.
  destruct (x <? nx - 1) eqn:Hc; [|discriminate]. intros [= <-].
  apply Z.ltb_lt in Hc. lia.
Qed.

Lemma back_Some k : back n mesh = Some k → k = n - 1 ∧ 1 ≤ x.
Proof.
  unfold back. rewrite Hshape, n_mod_nx.
  destruct (x =? 0) eqn:Hc; [discriminate|]. intros [= <-].
  apply Z.eqb_neq in Hc. lia.
Qed.

Lemma left_Some l : left' n mesh = Some l → l = n + nx ∧ y + 1 < ny.
Proof.
  unfold left'. rewrite Hshape, n_mod_layer.
  destruct (x + nx * y <? nx * (ny - 1)) eqn:Hc; [|discriminate]. intros [= <-].
  apply Z.ltb_lt in Hc. split; [done|]. nia.
Qed.

Lemma right_Some r : right' n mesh = Some r → r = n - nx ∧ 1 ≤ y.
Proof.
  unfold right'. rewrite Hshape, n_mod_layer.
  destruct (nx <=? x + nx * y) eqn:Hc; [|discriminate]. intros [= <-].
  apply Z.leb_le in Hc. split; [done|]. nia.
Qed.

(** The cell reached from [n] by the offsets [(dx, dy, dz)], when that
    stays inside the grid. *)
Lemma offset_ok (dx dy dz i : Z) :
  i = n + dx + nx * dy + nx * ny * dz →
  0 ≤ x + dx < nx → 0 ≤ y + dy < ny → 0 ≤ z + dz < nz →
  0 ≤ i < size mesh ∧ coords mesh i = (x + dx, y + dy, z + dz).
Proof.
  intros Hi Hdx Hdy Hdz.
  assert (Hi' : i = (x + dx) + nx * (y + dy) + nx * ny * (z + dz)).
  { rewrite Hi, Hn. ring. }
  split.
  - rewrite Hsize, Hi'.
    assert (0 ≤ nx * (y + dy) ≤ nx * (ny - 1)) by nia.
    assert (0 < nx * ny) by nia.
    assert (0 ≤ nx * ny * (z + dz) ≤ nx * ny * (nz - 1)) by nia.
    lia.
  - unfold coords. rewrite Hshape, Hi'.
    destruct (coords_offset nz ny nx (x + dx) (y + dy) (z + dz)) as (-> & -> & ->);
      done.
Qed.

Lemma coords_n : coords mesh n = (x, y, z).
Proof.
  destruct (offset_ok 0 0 0 n) as [_ H]; [lia|lia|lia|lia|].
  rewrite H. f_equal; [f_equal|]; lia.
Qed.


Lemma face_sound up down i :
  Some i ∈ face_indexes n mesh up down →
  ∃ dx dy dz, i = n + dx + nx * dy + nx * ny * dz ∧
    0 ≤ x + dx < nx ∧ 0 ≤ y + dy < ny ∧ 0 ≤ z + dz < nz ∧
    Z.abs dx + Z.abs dy + Z.abs dz = 1 ∧
    (dz = -1 → up = true) ∧ (dz = 1 → down = true).
Proof.
  unfold face_indexes. rewrite !elem_of_cons, elem_of_nil.
  intros [H|[H|[H|[H|[H|[H|[]]]]]]]; symmetry in H.
  - apply above_Some in H as (-> & ? & ?). exists 0, 0, (-1).
    repeat split; try lia; done.
  - apply bellow_Some in H as (-> & ? & ?). exists 0, 0, 1.
    repeat split; try lia; done.
  - apply front_Some in H as [-> ?]. exists 1, 0, 0. repeat split; lia.
  - apply back_Some in H as [-> ?]. exists (-1), 0, 0. repeat split; lia.
  - apply left_Some in H as [-> ?]. exists 0, 1, 0. repeat split; lia.
  - apply right_Some in H as [-> ?]. exists 0, (-1), 0. repeat split; lia.
Qed.

Lemma elem_of_both2 (a b : option Z) (v : Z → Z → Z) i :
  i ∈ both2 a b v ↔ ∃ p q, a = Some p ∧ b = Some q ∧ i = v p q.
Proof.
  unfold both2. destruct a as [p|], b as [q|];
    rewrite ?list_elem_of_singleton, ?elem_of_nil; split;
    try (intros (? & ? & ? & ? & ?); discriminate); try done.
  - intros ->. by exists p, q.
  - by intros (? & ? & [= <-] & [= <-] & ->).
Qed.

Lemma elem_of_both3 (a b c : option Z) (v : Z → Z → Z → Z) i :
  i ∈ both3 a b c v ↔ ∃ p q r, a = Some p ∧ b = Some q ∧ c = Some r ∧ i = v p q r.
Proof.
  unfold both3. destruct a as [p|], b as [q|], c as [r|];
    rewrite ?list_elem_of_singleton, ?elem_of_nil; split;
    try (intros (? & ? & ? & ? & ? & ? & ?); discriminate); try done.
  - intros ->. by exists p, q, r.
  - by intros (? & ? & ? & [= <-] & [= <-] & [= <-] & ->).
Qed.

Lemma diag_sound up down i :
  i ∈ diagonal_indexes n mesh up down →
  ∃ dx dy dz, i = n + dx + nx * dy + nx * ny * dz ∧
    0 ≤ x + dx < nx ∧ 0 ≤ y + dy < ny ∧ 0 ≤ z + dz < nz ∧
    -1 ≤ dx ≤ 1 ∧ -1 ≤ dy ≤ 1 ∧ -1 ≤ dz ≤ 1 ∧
    2 ≤ Z.abs dx + Z.abs dy + Z.abs dz ∧
    (dz = -1 → up = true) ∧ (dz = 1 → down = true).
Proof.
  unfold diagonal_indexes. rewrite Hshape. cbv zeta.
  rewrite !elem_of_app, !elem_of_both2, !elem_of_both3.
  intros H.
  repeat (destruct H as [H|H]);
  (first [destruct H as (p & q & r & Ha & Hb & Hc & Hi)
         |destruct H as (p & q & Ha & Hb & Hi)]);
  repeat match goal with
  | H : above _ _ _ = Some _ |- _ => apply above_Some in H as (-> & ? & ?)
  | H : bellow _ _ _ = Some _ |- _ => apply bellow_Some in H as (-> & ? & ?)
  | H : front _ _ = Some _ |- _ => apply front_Some in H as [-> ?]
  | H : back _ _ = Some _ |- _ => apply back_Some in H as [-> ?]
  | H : left' _ _ = Some _ |- _ => apply left_Some in H as [-> ?]
  | H : right' _ _ = Some _ |- _ => apply right_Some in H as [-> ?]
  end;
  subst i;
  (lazymatch goal with
   | _ : x + 1 < nx |- _ => exists 1
   | _ : 1 ≤ x |- _ => exists (-1)
   | _ => exists 0
   end);
  (lazymatch goal with
   | _ : y + 1 < ny |- _ => exists 1
   | _ : 1 ≤ y |- _ => exists (-1)
   | _ => exists 0
   end);
  (lazymatch goal with
   | _ : z + 1 < nz |- _ => exists 1
   | _ : 1 ≤ z |- _ => exists (-1)
   | _ => exists 0
   end);
  repeat split; try lia; try done.
Qed.

Lemma above_intro : 1 ≤ z → n ≠ nx * ny → above n mesh true = Some (n - nx * ny).
Proof.
  intros H1 H2. unfold above. rewrite Hshape. simpl.
  destruct (0 <? n - nx * ny) eqn:Hc; [done|].
  apply Z.ltb_ge in Hc. exfalso. nia.
Qed.

Lemma bellow_intro : z + 1 < nz → bellow n mesh true = Some (n + nx * ny).
Proof.
  intros H1. unfold bellow. rewrite Hshape, Hsize. simpl.
  destruct (n + nx * ny <? nz * ny * nx) eqn:Hc; [done|].
  apply Z.ltb_ge in Hc. exfalso.
  assert (0 ≤ nx * y ≤ nx * (ny - 1)) by nia.
  assert (0 < nx * ny) by nia.
  assert (0 ≤ nx * ny * (z + 1) ≤ nx * ny * (nz - 1)) by nia.
  lia.
Qed.

Lemma front_intro : x + 1 < nx → front n mesh = Some (n + 1).
Proof.
  intros H1. unfold front.
  rewrite Hshape, n_mod_nx.
  destruct (x <? nx - 1) eqn:Hc; [done|]. apply Z.ltb_ge in Hc. lia.
Qed.

Lemma back_intro : 1 ≤ x → back n mesh = Some (n - 1).
Proof.
  intros H1. unfold back.
  rewrite Hshape, n_mod_nx.
  destruct (x =? 0) eqn:Hc; [|done]. apply Z.eqb_eq in Hc. lia.
Qed.

Lemma left_intro : y + 1 < ny → left' n mesh = Some (n + nx).
Proof.
  intros H1. unfold left'.
  rewrite Hshape, n_mod_layer.
  destruct (x + nx * y <? nx * (ny - 1)) eqn:Hc; [done|].
  apply Z.ltb_ge in Hc. exfalso. nia.
Qed.

Lemma right_intro : 1 ≤ y → right' n mesh = Some (n - nx).
Proof.
  intros H1. unfold right'.
  rewrite Hshape, n_mod_layer.
  destruct (nx <=? x + nx * y) eqn:Hc; [done|].
  apply Z.leb_gt in Hc. exfalso. nia.
Qed.

Ltac both_found :=
  first
    [ apply elem_of_both2; eexists _, _;
      split; [eassumption|split; [eassumption|ring]]
    | apply elem_of_both3; eexists _, _, _;
      split; [eassumption|split; [eassumption|split; [eassumption|ring]]] ].

Ltac diagonal_found :=
  first
    [ solve [both_found]
    | apply elem_of_app; left; solve [both_found]
    | apply elem_of_app; right; diagonal_found ].

Lemma offsets_found (dx dy dz i : Z) :
  n ≠ nx * ny →
  i = n + dx + nx * dy + nx * ny * dz →
  0 ≤ x + dx < nx → 0 ≤ y + dy < ny → 0 ≤ z + dz < nz →
  -1 ≤ dx ≤ 1 → -1 ≤ dy ≤ 1 → -1 ≤ dz ≤ 1 →
  (Z.abs dx + Z.abs dy + Z.abs dz = 1 → Some i ∈ face_indexes n mesh true true) ∧
  (2 ≤ Z.abs dx + Z.abs dy + Z.abs dz → i ∈ diagonal_indexes n mesh true true).
Proof.
  intros Hne Hi Hdx Hdy Hdz Bx By Bz.
  assert (Cx : dx = -1 ∨ dx = 0 ∨ dx = 1) by lia.
  assert (Cy : dy = -1 ∨ dy = 0 ∨ dy = 1) by lia.
  assert (Cz : dz = -1 ∨ dz = 0 ∨ dz = 1) by lia.
  clear Bx By Bz. subst i.
  destruct Cx as [-> | [-> | ->]], Cy as [-> | [-> | ->]], Cz as [-> | [-> | ->]];
    try (assert (Ha : above n mesh true = Some (n - nx * ny))
           by (apply above_intro; lia));
    try (assert (Hb : bellow n mesh true = Some (n + nx * ny))
           by (apply bellow_intro; lia));
    try (assert (Hf : front n mesh = Some (n + 1)) by (apply front_intro; lia));
    try (assert (Hk : back n mesh = Some (n - 1)) by (apply back_intro; lia));
    try (assert (Hl : left' n mesh = Some (n + nx)) by (apply left_intro; lia));
    try (assert (Hr : right' n mesh = Some (n - nx)) by (apply right_intro; lia));
    (split; intros Hcount; simpl in Hcount; try (exfalso; lia)).
  all: try (unfold face_indexes;
            repeat match goal with H : _ = Some _ |- _ => rewrite H end;
            rewrite !elem_of_cons;
            repeat (first [left; f_equal; ring | right]); fail).
  all: unfold diagonal_indexes; rewrite Hshape; cbv zeta; diagonal_found.
Qed.

(** With [full] set, the cells returned sit at different steps from the
    cell, in the order of [neighbor_offsets]. *)
Lemma sublist_option (o : option Z) (t : Z * Z * Z) :
  (∀ p, o = Some p → coords mesh p = t) →
  coords mesh <$> omap Datatypes.id [o] `sublist_of` [t].
Proof.
  intros H. destruct o as [p|]; simpl; [|apply sublist_nil_l].
  by rewrite (H p eq_refl).
Qed.

Lemma sublist_both2 (a b : option Z) (v : Z → Z → Z) (t : Z * Z * Z) :
  (∀ p q, a = Some p → b = Some q → coords mesh (v p q) = t) →
  coords mesh <$> both2 a b v `sublist_of` [t].
Proof.
  intros H. destruct a as [p|], b as [q|]; simpl; try apply sublist_nil_l.
  by rewrite (H p q eq_refl eq_refl).
Qed.

Lemma sublist_both3 (a b c : option Z) (v : Z → Z → Z → Z) (t : Z * Z * Z) :
  (∀ p q r, a = Some p → b = Some q → c = Some r → coords mesh (v p q r) = t) →
  coords mesh <$> both3 a b c v `sublist_of` [t].
Proof.
  intros H. destruct a as [p|], b as [q|], c as [r|]; simpl;
    try apply sublist_nil_l.
  by rewrite (H p q r eq_refl eq_refl eq_refl).
Qed.

Ltac step_facts :=
  repeat match goal with
  | H : above _ _ _ = Some _ |- _ => apply above_Some in H as (-> & ? & ?)
  | H : bellow _ _ _ = Some _ |- _ => apply bellow_Some in H as (-> & ? & ?)
  | H : front _ _ = Some _ |- _ => apply front_Some in H as [-> ?]
  | H : back _ _ = Some _ |- _ => apply back_Some in H as [-> ?]
  | H : left' _ _ = Some _ |- _ => apply left_Some in H as [-> ?]
  | H : right' _ _ = Some _ |- _ => apply right_Some in H as [-> ?]
  end.

Ltac step_coords :=
  step_facts;
  eapply (λ H1 H2 H3 H4, proj2 (offset_ok _ _ _ _ H1 H2 H3 H4)); [ring|lia..].

Lemma omap_id_Some (l : list Z) : omap Datatypes.id (Some <$> l) = l.
Proof. induction l as [|i l IH]; csimpl; [reflexivity|]. by rewrite IH. Qed.

Lemma full_coords_sublist up down :
  coords mesh <$> neighbor_indexes n mesh true up down
  `sublist_of` (λ '(dx, dy, dz), (x + dx, y + dy, z + dz)) <$> neighbor_offsets.
Proof.
  unfold neighbor_indexes.
  etrans; [apply fmap_sublist, omap_present_sublist|].
  rewrite omap_app, omap_id_Some.
  unfold face_indexes, diagonal_indexes. rewrite Hshape. cbv zeta.
  change [above n mesh up; bellow n mesh down; front n mesh; back n mesh;
          left' n mesh; right' n mesh]
    with ([above n mesh up] ++ [bellow n mesh down] ++ [front n mesh] ++
          [back n mesh] ++ [left' n mesh] ++ [right' n mesh]).
  rewrite !omap_app, !fmap_app, <- !app_assoc.
  unfold neighbor_offsets. cbn [fmap list_fmap].
  repeat (apply (sublist_app _ [_]);
          [first [apply sublist_option; intros p Hp
                 |apply sublist_both2; intros p q Hp Hq
                 |apply sublist_both3; intros p q r Hp Hq Hr];
           step_coords|]).
  apply sublist_both3; intros p q r Hp Hq Hr. step_coords.
Qed.

Lemma neighbor_offsets_NoDup : NoDup neighbor_offsets.
Proof.
  assert (H : bool_decide (NoDup neighbor_offsets)) by (vm_compute; exact I).
  exact (bool_decide_unpack _ H).
Qed.

Lemma neighbor_indexes_full_NoDup up down :
  NoDup (neighbor_indexes n mesh true up down).
Proof.
  apply (NoDup_fmap_1 (coords mesh)).
  eapply sublist_NoDup; [|apply full_coords_sublist].
  apply NoDup_fmap_2; [|apply neighbor_offsets_NoDup].
  intros [[a b] c] [[a' b'] c'] [= ? ? ?]. f_equal; [f_equal|]; lia.
Qed.

(** With [full] set, every cell returned is a cell of the mesh, is not the
    cell itself and is at most one step from it along each axis. *)
Lemma neighbor_indexes_full_near up down i :
  i ∈ neighbor_indexes n mesh true up down →
  is_Some (getitem mesh i) ∧ i ≠ n ∧ adjacent mesh n i.
Proof.
  intros Hi. split.
  { unfold neighbor_indexes in Hi. by apply elem_of_omap_present in Hi as [_ ?]. }
  assert (Hc : coords mesh i ∈
                 (λ '(dx, dy, dz), (x + dx, y + dy, z + dz)) <$> neighbor_offsets).
  { eapply elem_of_sublist; [|apply (full_coords_sublist up down)].
    apply list_elem_of_fmap. by exists i. }
  apply list_elem_of_fmap in Hc as ([[dx dy] dz] & Hc & Hoff).
  assert (Hstep : -1 ≤ dx ≤ 1 ∧ -1 ≤ dy ≤ 1 ∧ -1 ≤ dz ≤ 1 ∧
                  1 ≤ Z.abs dx + Z.abs dy + Z.abs dz).
  { unfold neighbor_offsets in Hoff. rewrite !elem_of_cons, elem_of_nil in Hoff.
    repeat (destruct Hoff as [Hoff|Hoff]); [injection Hoff as -> -> ->; lia..|done]. }
  split.
  - intros ->. rewrite coords_n in Hc. injection Hc as ? ? ?. lia.
  - unfold adjacent. rewrite coords_n, Hc. lia.
Qed.

End Adjacency.

(** X15: what [find_neighbors] returns is sound, with or without the
    diagonals.  On a regular grid, for a cell inside the mesh, every entry
    returned carries the properties of the cell and names a cell that is
    inside the mesh, is not masked, is not the cell itself and is at most
    one step away from it along each of the three axes; without [full] it
    is exactly one step away along one axis (it shares a face).  Without
    [up] no cell of the layer above is returned, without [down] none of
    the layer below. *)
Theorem find_neighbors_adjacent {F} (mesh : Mesh F) c full up down n :
  mesh_wf mesh → 0 ≤ index c < size mesh →
  n ∈ find_neighbors c mesh full up down →
  props n = props c ∧ is_Some (getitem mesh (index n)) ∧
  0 ≤ index n < size mesh ∧ index n ≠ index c ∧
  adjacent mesh (index c) (index n) ∧
  (full = false → face_adjacent mesh (index c) (index n)) ∧
  (up = false → (coords mesh (index c)).2 ≤ (coords mesh (index n)).2) ∧
  (down = false → (coords mesh (index n)).2 ≤ (coords mesh (index c)).2).
Proof.
  intros Hwf Hc Hn.
  split; [by eapply find_neighbors_props|].
  assert (Hi : index n ∈ neighbor_indexes (index c) mesh full up down).
  { rewrite <- find_neighbors_index. apply list_elem_of_fmap. by exists n. }
  clear Hn. unfold neighbor_indexes in Hi.
  apply elem_of_omap_present in Hi as [Hi Hp]. split; [exact Hp|].
  unfold mesh_wf in Hwf. destruct (shape mesh) as [[nz ny] nx] eqn:Hshape.
  destruct Hwf as (Hnz & Hny & Hnx & Hsize).
  rewrite Hsize in Hc.
  destruct (coords_decompose nz ny nx (index c) Hnx Hny Hnz Hc)
    as (Hdec & Hx & Hy & Hz & _).
  set (x := index c mod nx) in *. set (y := (index c / nx) mod ny) in *.
  set (z := index c / (nx * ny)) in *.
  pose proof (coords_n mesh nz ny nx x y z (index c) Hshape Hsize Hnx Hny Hx Hy Hz Hdec)
    as Hcn.
  assert (Hoff : ∃ dx dy dz,
    index n = index c + dx + nx * dy + nx * ny * dz ∧
    0 ≤ x + dx < nx ∧ 0 ≤ y + dy < ny ∧ 0 ≤ z + dz < nz ∧
    -1 ≤ dx ≤ 1 ∧ -1 ≤ dy ≤ 1 ∧ -1 ≤ dz ≤ 1 ∧
    1 ≤ Z.abs dx + Z.abs dy + Z.abs dz ∧
    (full = false → Z.abs dx + Z.abs dy + Z.abs dz = 1) ∧
    (dz = -1 → up = true) ∧ (dz = 1 → down = true)).
  { apply elem_of_app in Hi as [Hi|Hi].
    - destruct (face_sound mesh nz ny nx x y z (index c) Hshape Hsize Hnx Hny Hx Hy Hz
                  Hdec up down _ Hi)
        as (dx & dy & dz & H1 & H2 & H3 & H4 & H5 & Hu & Hw).
      exists dx, dy, dz. repeat split; try lia; assumption.
    - destruct full; [|by apply elem_of_nil in Hi].
      apply list_elem_of_fmap in Hi as (i & [= <-] & Hi).
      destruct (diag_sound mesh nz ny nx x y z (index c) Hshape Hsize Hnx Hny Hx Hy Hz
                  Hdec up down _ Hi)
        as (dx & dy & dz & H1 & H2 & H3 & H4 & H5 & H6 & H7 & H8 & Hu & Hw).
      exists dx, dy, dz. repeat split; try lia; try discriminate; assumption. }
  destruct Hoff
    as (dx & dy & dz & H1 & H2 & H3 & H4 & H5 & H6 & H7 & H8 & H9 & Hu & Hw).
  destruct (offset_ok mesh nz ny nx x y z (index c) Hshape Hsize Hnx Hny Hdec
              dx dy dz (index n) H1 H2 H3 H4) as [Hr Hco].
  split; [exact Hr|].
  split.
  { intros Heq. rewrite Heq, Hcn in Hco. injection Hco as ? ? ?. lia. }
  unfold adjacent, face_adjacent. rewrite Hcn, Hco. simpl.
  split; [lia|]. split; [intros Hf; specialize (H9 Hf); lia|].
  split.
  - intros Hup. destruct (decide (dz = -1)) as [E|]; [|lia].
    apply Hu in E. congruence.
  - intros Hdown. destruct (decide (dz = 1)) as [E|]; [|lia].
    apply Hw in E. congruence.
Qed.

(** X16: away from the first cell of the second layer [find_neighbors]
    is complete.  On a regular grid, for a cell inside the mesh other than
    the cell number [nx*ny], every cell of the mesh that is not masked and
    is one step away along one axis is returned, and with [full] every
    cell that is not masked, is not the cell itself and is at most one
    step away along each axis.  (For the cell number [nx*ny] the test
    [tmp > 0] of "the guy above" leaves out the whole layer above.) *)
Theorem find_neighbors_complete {F} (mesh : Mesh F) c (full : bool) nz ny nx i :
  mesh_wf mesh → shape mesh = (nz, ny, nx) →
  0 ≤ index c < size mesh → index c ≠ nx * ny →
  0 ≤ i < size mesh → is_Some (getitem mesh i) → i ≠ index c →
  (if full then adjacent mesh (index c) i else face_adjacent mesh (index c) i) →
  i ∈ index <$> find_neighbors c mesh full true true.
Proof.
  intros Hwf Hshape Hc Hne Hi Hp Hic Hadj.
  rewrite find_neighbors_index. unfold neighbor_indexes.
  apply elem_of_omap_present_2; [|exact Hp].
  unfold mesh_wf in Hwf. rewrite Hshape in Hwf.
  destruct Hwf as (Hnz & Hny & Hnx & Hsize).
  rewrite Hsize in Hc, Hi.
  destruct (coords_decompose nz ny nx (index c) Hnx Hny Hnz Hc)
    as (Hdec & Hx & Hy & Hz & _).
  destruct (coords_decompose nz ny nx i Hnx Hny Hnz Hi)
    as (Hdeci & Hxi & Hyi & Hzi & _).
  unfold adjacent, face_adjacent, coords in Hadj. rewrite Hshape in Hadj.
  set (x := index c mod nx) in *. set (y := (index c / nx) mod ny) in *.
  set (z := index c / (nx * ny)) in *.
  set (x' := i mod nx) in *. set (y' := (i / nx) mod ny) in *.
  set (z' := i / (nx * ny)) in *.
  assert (Hoff : i = index c + (x' - x) + nx * (y' - y) + nx * ny * (z' - z)).
  { rewrite Hdeci at 1. rewrite Hdec at 1. ring. }
  assert (Hnz0 : 1 ≤ Z.abs (x' - x) + Z.abs (y' - y) + Z.abs (z' - z)).
  { destruct (decide (x' = x)) as [Ex|]; [|lia].
    destruct (decide (y' = y)) as [Ey|]; [|lia].
    destruct (decide (z' = z)) as [Ez|]; [|lia].
    exfalso. apply Hic. rewrite Hoff, Ex, Ey, Ez. ring. }
  assert (Hb : -1 ≤ x' - x ≤ 1 ∧ -1 ≤ y' - y ≤ 1 ∧ -1 ≤ z' - z ≤ 1).
  { destruct full; lia. }
  destruct Hb as (Bx & By & Bz).
  destruct (offsets_found mesh nz ny nx x y z (index c) Hshape Hsize Hnx Hny Hx Hy Hz
              Hdec (x' - x) (y' - y) (z' - z) i Hne Hoff
              ltac:(lia) ltac:(lia) ltac:(lia) Bx By Bz) as [Hface Hdiag].
  apply elem_of_app. destruct full.
  - destruct (decide (Z.abs (x' - x) + Z.abs (y' - y) + Z.abs (z' - z) = 1)) as [E|E].
    + left. by apply Hface.
    + right. apply list_elem_of_fmap. exists i. split; [done|]. apply Hdiag. lia.
  - left. by apply Hface.
Qed.

Lemma find_neighbors_adjacent_witness :
  mesh_wf (Examples.unit_mesh 1 3 3) ∧
  mkCell 8 (Examples.density 1000)
    ∈ find_neighbors (mkCell 4 (Examples.density 1000)) (Examples.unit_mesh 1 3 3)
        true true true ∧
  adjacent (Examples.unit_mesh 1 3 3) 4 8 ∧
  ¬ face_adjacent (Examples.unit_mesh 1 3 3) 4 8.
Proof.
  assert (Hwf : mesh_wf (Examples.unit_mesh 1 3 3)).
  { apply unit_mesh_wf; lia. }
  assert (Hin : mkCell 8 (Examples.density 1000)
                ∈ find_neighbors (mkCell 4 (Examples.density 1000))
                    (Examples.unit_mesh 1 3 3) true true true).
  { apply (list_elem_of_lookup_2 _ 4%nat). vm_compute. reflexivity. }
  split; [exact Hwf|]. split; [exact Hin|]. split.
  - exact (proj1 (proj2 (proj2 (proj2 (proj2
      (find_neighbors_adjacent (Examples.unit_mesh 1 3 3)
         (mkCell 4 (Examples.density 1000)) true true true
         (mkCell 8 (Examples.density 1000)) Hwf ltac:(simpl; lia) Hin)))))).
  - vm_compute. intros H. discriminate.
Defined.

Lemma find_neighbors_complete_witness :
  mesh_wf (Examples.unit_mesh 1 3 3) ∧
  face_adjacent (Examples.unit_mesh 1 3 3) 4 5 ∧
  5 ∈ index <$> find_neighbors (mkCell 4 (Examples.density 1000))
                  (Examples.unit_mesh 1 3 3) false true true.
Proof.
  assert (Hwf : mesh_wf (Examples.unit_mesh 1 3 3)).
  { apply unit_mesh_wf; lia. }
  assert (Hadj : face_adjacent (Examples.unit_mesh 1 3 3) 4 5).
  { vm_compute. reflexivity. }
  split; [exact Hwf|]. split; [exact Hadj|].
  exact (find_neighbors_complete (Examples.unit_mesh 1 3 3)
           (mkCell 4 (Examples.density 1000)) false 1 3 3 5 Hwf eq_refl
           ltac:(simpl; lia) ltac:(simpl; lia) ltac:(simpl; lia)
           ltac:(by eexists) ltac:(simpl; lia) Hadj).
Defined.

(** ** The compactness criterion of [shape_jury] *)

(** The cells stored around a frontier entry are different cells of the
    mesh, next to the entry. *)
Lemma full_neighbors_distinct {F} (mesh : Mesh F) c :
  mesh_wf mesh → 0 ≤ index c < size mesh →
  NoDup (index <$> find_neighbors c mesh true true true) ∧
  ∀ n, n ∈ find_neighbors c mesh true true true →
       is_Some (getitem mesh (index n)) ∧ index n ≠ index c ∧
       adjacent mesh (index c) (index n).
Proof.
  intros Hwf Hc.
  unfold mesh_wf in Hwf. destruct (shape mesh) as [[nz ny] nx] eqn:Hshape.
  destruct Hwf as (Hnz & Hny & Hnx & Hsize).
  rewrite Hsize in Hc.
  destruct (coords_decompose nz ny nx (index c) Hnx Hny Hnz Hc)
    as (Hdec & Hx & Hy & Hz & _).
  rewrite find_neighbors_index. split.
  - exact (neighbor_indexes_full_NoDup mesh nz ny nx _ _ _ (index c)
             Hshape Hsize Hnx Hny Hx Hy Hz Hdec true true).
  - intros n Hn.
    apply (neighbor_indexes_full_near mesh nz ny nx _ _ _ (index c)
             Hshape Hsize Hnx Hny Hx Hy Hz Hdec true true).
    rewrite <- find_neighbors_index. apply list_elem_of_fmap. by exists n.
Qed.

(** C9 (the compactness criterion of the shape-based policy).  The
    frontier entries are cells of a regular grid that carry, as [grow]
    stores it, the result of [find_neighbors] with [full=True] under
    their ['neighbors'] key, and the run has a seed.  The threshold is
    [compact = min(1 + it/nseeds, maxcmp)]: it never exceeds [maxcmp] and
    does not decrease when the iteration count grows.  The neighbour
    [shape_jury] chooses passed [is_compact] at that threshold; and an
    entry passes [is_compact] only if at least [compact] different cells
    among its 26 neighbours (cells of the mesh, other than the entry, at
    most one step from it along each axis) are set in the estimate. *)
Theorem shape_jury_compactness {F DMod Vec Reg : Type} (mesh : Mesh F)
    (new_predicted : DMod → Neighbor → Vec) (dm_misfit : DMod → Vec → Q)
    (shape_of_anomaly : DMod → Vec → Q)
    (reg_call : Reg → Neighbor → Cell → Q * Reg)
    (reg_update : Reg → Neighbor → Reg)
    regularizer thresh maxcmp seed neighbors estimate datamods goal it nseeds :
  mesh_wf mesh →
  (∀ n, n ∈ neighbors →
        0 ≤ index (cell n) < size mesh ∧
        around n = find_neighbors (cell n) mesh true true true) →
  0 < nseeds →
  let compact := Z.min (1 + it / nseeds) maxcmp in
  compact_threshold maxcmp it nseeds = Ok compact ∧
  compact ≤ maxcmp ∧
  (∀ it', it ≤ it' →
     ∃ compact', compact_threshold maxcmp it' nseeds = Ok compact' ∧
                 compact ≤ compact' ∧ compact' ≤ maxcmp) ∧
  (∀ j g r,
     shape_jury new_predicted dm_misfit shape_of_anomaly reg_call reg_update
       regularizer thresh maxcmp seed neighbors estimate datamods goal it nseeds
     = Ok (Some (j, g), r) →
     ∃ n, neighbors !! j = Some n ∧ is_compact estimate n compact = true) ∧
  (∀ n, n ∈ neighbors → is_compact estimate n compact = true →
     ∃ committed,
       compact ≤ Z.of_nat (length committed) ∧
       NoDup (index <$> committed) ∧
       ∀ c, c ∈ committed →
            in_estimate estimate c = true ∧
            is_Some (getitem mesh (index c)) ∧
            index c ≠ index (cell n) ∧
            adjacent mesh (index (cell n)) (index c)).
Proof.
  intros Hwf Hfront Hn compact.
  assert (Hne : nseeds ≠ 0) by lia.
  split; [by apply compact_threshold_Ok|].
  split; [unfold compact; lia|].
  split.
  { intros it' Hit. exists (Z.min (1 + it' / nseeds) maxcmp).
    split; [by apply compact_threshold_Ok|].
    split; [by apply compact_min_mono|lia]. }
  split.
  { intros j g r Hj.
    apply shape_jury_compact in Hj as (n & c & Hnb & Hc & Hcmp).
    rewrite (compact_threshold_Ok _ _ _ Hne) in Hc. injection Hc as <-.
    by exists n. }
  intros n Hin Hcmp.
  destruct (Hfront n Hin) as [Hrange Haround].
  destruct (full_neighbors_distinct mesh (cell n) Hwf Hrange) as [Hnd Hnear].
  exists (List.filter (in_estimate estimate) (around n)).
  split; [by apply is_compact_spec in Hcmp|].
  split.
  - eapply sublist_NoDup; [exact Hnd|].
    apply fmap_sublist. rewrite Haround. apply List_filter_sublist.
  - intros c Hc. apply elem_of_List_filter in Hc as [Hc Hest].
    split; [exact Hest|]. apply Hnear. by rewrite <- Haround.
Qed.

Lemma center_frontier_stored n :
  n ∈ Examples.center_frontier →
  0 ≤ index (cell n) < size (Examples.unit_mesh 1 3 3) ∧
  around n = find_neighbors (cell n) (Examples.unit_mesh 1 3 3) true true true.
Proof.
  intros Hn. apply list_elem_of_lookup in Hn as [i Hi].
  destruct i as [|[|[|[|i]]]]; vm_compute in Hi; [..|discriminate];
    injection Hi as <-; (split; [simpl; lia|reflexivity]).
Qed.

Lemma shape_jury_compactness_witness :
  mesh_wf (Examples.unit_mesh 1 3 3) ∧ 0 < 1 ∧
  ∃ j g r n committed,
    shape_jury Examples.halving_new_predicted Examples.halving_misfit
      Examples.halving_misfit (λ (r : unit) _ _, (0%Q, r)) (λ r _, r) None
      (1 # 10000)%Q 4 Examples.center_seed Examples.center_frontier
      Examples.center_estimate [1%Q] 1%Q 0 1 = Ok (Some (j, g), r) ∧
    Examples.center_frontier !! j = Some n ∧
    compact_threshold 4 0 1 = Ok 1 ∧
    1 ≤ Z.of_nat (length committed) ∧
    NoDup (index <$> committed) ∧
    ∀ c, c ∈ committed →
         in_estimate Examples.center_estimate c = true ∧
         is_Some (getitem (Examples.unit_mesh 1 3 3) (index c)) ∧
         index c ≠ index (cell n) ∧
         adjacent (Examples.unit_mesh 1 3 3) (index (cell n)) (index c).
Proof.
  assert (Hwf : mesh_wf (Examples.unit_mesh 1 3 3)).
  { apply unit_mesh_wf; lia. }
  split; [exact Hwf|]. split; [lia|].
  destruct (shape_jury_compactness (Examples.unit_mesh 1 3 3)
              Examples.halving_new_predicted Examples.halving_misfit
              Examples.halving_misfit (λ (r : unit) _ _, (0%Q, r)) (λ r _, r) None
              (1 # 10000)%Q 4 Examples.center_seed Examples.center_frontier
              Examples.center_estimate [1%Q] 1%Q 0 1 Hwf center_frontier_stored
              ltac:(lia)) as (Hc & _ & _ & Hchosen & Hcrit).
  destruct (shape_jury Examples.halving_new_predicted Examples.halving_misfit
              Examples.halving_misfit (λ (r : unit) _ _, (0%Q, r)) (λ r _, r) None
              (1 # 10000)%Q 4 Examples.center_seed Examples.center_frontier
              Examples.center_estimate [1%Q] 1%Q 0 1)
    as [[[[j g]|] r]|e] eqn:Hj;
    [|vm_compute in Hj; discriminate|vm_compute in Hj; discriminate].
  destruct (Hchosen j g r eq_refl) as (n & Hnb & Hcmp).
  destruct (Hcrit n (list_elem_of_lookup_2 _ _ _ Hnb) Hcmp)
    as (committed & Hlen & Hnd & Hall).
  exists j, g, r, n, committed.
  split; [reflexivity|]. split; [exact Hnb|]. split; [exact Hc|].
  split; [exact Hlen|]. split; [exact Hnd|exact Hall].
Defined.

(** ** Locating a seed: [sow] *)

(** [bisect_left] on increasing edges: a coordinate past the edge number
    [i] and not past the next one, when there is one, comes after [i + 1]
    edges. *)
Lemma bisect_left_ascending (xs : list Q) (x : Q) (i : nat) (e : Q) :
  ascending xs → xs !! i = Some e → (e < x)%Q →
  (∀ e', xs !! S i = Some e' → (x <= e')%Q) →
  bisect_left xs x = Z.of_nat (S i).
Proof.
  revert i. induction xs as [|a xs IH]; intros i Hs Hi Hlt Hnext; [done|].
  assert (Htail : ascending xs).
  { intros p q u v Hpq Hp Hq. by apply (Hs (S p) (S q) u v ltac:(lia)). }
  cbn [bisect_left].
  assert (Ha : (a < x)%Q).
  { eapply Qle_lt_trans; [|exact Hlt]. by apply (Hs 0%nat i a e ltac:(lia)). }
  destruct (Qlt_le_dec a x) as [_|Hle];
    [|exfalso; by apply (Qlt_not_le _ _ Ha)].
  destruct i as [|i].
  - destruct xs as [|b xs]; [simpl; lia|]. cbn [bisect_left].
    destruct (Qlt_le_dec b x) as [Hb|_]; [|lia].
    exfalso. apply (Qlt_not_le _ _ Hb). by apply Hnext.
  - rewrite (IH i Htail Hi Hlt Hnext). lia.
Qed.

(** A coordinate that is not past the first edge comes before every
    edge. *)
Lemma bisect_left_arange_low (start stop step x : Q) :
  (x <= start)%Q → bisect_left (arange start stop step) x = 0.
Proof.
  intros Hx. unfold arange.
  destruct (Z.to_nat _) as [|m]; [reflexivity|].
  cbn [seq]. rewrite fmap_cons. cbn [bisect_left].
  destruct (Qlt_le_dec _ x) as [Hlt|]; [|reflexivity].
  exfalso. apply (Qlt_not_le _ _ Hlt).
  eapply Qle_trans; [exact Hx|].
  change (inject_Z (Z.of_nat 0)) with 0%Q. Lqa.lra.
Qed.

Lemma locate_Some (mesh : Mesh Q) point s :
  locate mesh point = Some s → is_Some (getitem mesh s).
Proof.
  unfold locate, locate_in.
  destruct (bounds mesh) as [[[[[bx1 bx2] by1] by2] bz1] bz2].
  destruct (dims mesh) as [[dx dy] dz].
  destruct (shape mesh) as [[nz ny] nx].
  destruct point as [[x y] z].
  destruct (_ && _); [|discriminate].
  destruct (getitem mesh _) as [p|] eqn:Hg; [|discriminate].
  intros [= <-]. by rewrite Hg.
Qed.

(** X17: [sow] resolves a point to the cell its coordinates fall in,
    counted on the edges it searches.  Whatever the lists of edges, as
    long as they are increasing: a point inside the bounds of the mesh
    whose x coordinate is past the x edge number [i] and not past the
    next x edge, if there is one, and likewise for the y edge number [j]
    and the z edge number [k], is resolved to the cell number
    [i + j*nx + k*nx*ny], and to nothing when that cell is masked.  (A
    point on an edge belongs to the cell below that edge.) *)
Theorem locate_cell (xs ys zs : list Q) (mesh : Mesh Q)
    bx1 bx2 by1 by2 bz1 bz2 nz ny nx (x y z ex ey ez : Q) (i j k : nat) :
  bounds mesh = (bx1, bx2, by1, by2, bz1, bz2) → shape mesh = (nz, ny, nx) →
  ascending xs → ascending ys → ascending zs →
  (bx1 <= x)%Q → (x <= bx2)%Q → (by1 <= y)%Q → (y <= by2)%Q →
  (bz1 <= z)%Q → (z <= bz2)%Q →
  xs !! i = Some ex → (ex < x)%Q → (∀ e, xs !! S i = Some e → (x <= e)%Q) →
  ys !! j = Some ey → (ey < y)%Q → (∀ e, ys !! S j = Some e → (y <= e)%Q) →
  zs !! k = Some ez → (ez < z)%Q → (∀ e, zs !! S k = Some e → (z <= e)%Q) →
  locate_in xs ys zs mesh (x, y, z) =
    let s := Z.of_nat i + Z.of_nat j * nx + Z.of_nat k * nx * ny in
    if getitem mesh s is Some _ then Some s else None.
Proof.
  intros Hb Hs Hxs Hys Hzs Hx1 Hx2 Hy1 Hy2 Hz1 Hz2
    Hi Hxi Hxn Hj Hyj Hyn Hk Hzk Hzn.
  unfold locate_in. rewrite Hb, Hs.
  assert (Hin : Qle_bool x bx2 && Qle_bool bx1 x && Qle_bool y by2 && Qle_bool by1 y &&
                Qle_bool z bz2 && Qle_bool bz1 z = true).
  { rewrite !andb_true_iff, !Qle_bool_iff. repeat split; assumption. }
  rewrite Hin.
  rewrite (bisect_left_ascending xs x i ex Hxs Hi Hxi Hxn).
  rewrite (bisect_left_ascending ys y j ey Hys Hj Hyj Hyn).
  rewrite (bisect_left_ascending zs z k ez Hzs Hk Hzk Hzn).
  cbv zeta.
  replace (Z.of_nat (S i) - 1) with (Z.of_nat i) by lia.
  replace (Z.of_nat (S j) - 1) with (Z.of_nat j) by lia.
  replace (Z.of_nat (S k) - 1) with (Z.of_nat k) by lia.
  reflexivity.
Qed.

(** X18: a point on the lower x face of the mesh is resolved one cell too
    low.  For a point inside the bounds whose x coordinate equals the lower
    bound [x1], [bisect_left] finds no edge before it, the x index is [-1],
    and the cell looked up is the one numbered [-1 + j*nx + k*nx*ny]: the
    cell before the row the point is in. *)
Theorem locate_lower_face (mesh : Mesh Q) bx1 bx2 by1 by2 bz1 bz2 dx dy dz nz ny nx
    (y z : Q) :
  bounds mesh = (bx1, bx2, by1, by2, bz1, bz2) →
  dims mesh = (dx, dy, dz) → shape mesh = (nz, ny, nx) →
  (bx1 <= bx2)%Q →
  (by1 <= y)%Q → (y <= by2)%Q → (bz1 <= z)%Q → (z <= bz2)%Q →
  locate mesh (bx1, y, z) =
    let j := bisect_left (arange by1 by2 dy) y - 1 in
    let k := bisect_left (arange bz1 bz2 dz) z - 1 in
    let s := -1 + j * nx + k * nx * ny in
    if getitem mesh s is Some _ then Some s else None.
Proof.
  intros Hb Hd Hs Hx Hy1 Hy2 Hz1 Hz2.
  unfold locate. rewrite Hb, Hd. unfold locate_in. rewrite Hb, Hs.
  assert (Hin : Qle_bool bx1 bx2 && Qle_bool bx1 bx1 && Qle_bool y by2 &&
                Qle_bool by1 y && Qle_bool z bz2 && Qle_bool bz1 z = true).
  { rewrite !andb_true_iff, !Qle_bool_iff. repeat split; Lqa.lra. }
  rewrite Hin.
  rewrite (bisect_left_arange_low bx1 bx2 dx bx1 (Qle_refl _)).
  reflexivity.
Qed.

(** X19: what [sow] returns when it returns.  The seeds come in the order
    of the raw seeds, one for each: the cell found for its point, which
    exists in the mesh, with the properties given.  No two of them claim
    one cell for one property, which is what [grow] needs of its seeds. *)
Theorem sow_Ok (mesh : Mesh Q) (rawseeds : list (Q * Q * Q * Props)) seeds :
  sow mesh rawseeds = Ok seeds →
  length seeds = length rawseeds ∧
  (∀ i point props, rawseeds !! i = Some (point, props) →
     ∃ s, locate mesh point = Some s ∧ is_Some (getitem mesh s) ∧
          seeds !! i = Some (mkCell s props)) ∧
  duplicates seeds = [] ∧
  Pairwise claims_apart seeds.
Proof.
  unfold sow. intros Hs.
  destruct (mapM _ rawseeds) as [cells|e] eqn:Hm; [|discriminate].
  simpl in Hs.
  destruct (duplicates cells) as [|d ds] eqn:Hd; [|discriminate].
  injection Hs as <-.
  split; [by eapply mapM_Ok_length|]. split; [|split].
  - intros i point props Hi.
    destruct (mapM_Ok_lookup _ _ _ _ _ Hm Hi) as (c & Hc & Hf).
    simpl in Hf.
    destruct (locate mesh point) as [s|] eqn:Hl; [|discriminate].
    injection Hf as <-. exists s. split; [done|]. split; [|done].
    by eapply locate_Some.
  - exact Hd.
  - by apply duplicates_nil_apart.
Qed.

Lemma unit_edges_ascending : ascending [0%Q; 1%Q; 2%Q].
Proof.
  intros p q a b Hpq Hp Hq.
  destruct p as [|[|[|p]]], q as [|[|[|q]]]; simpl in Hp, Hq;
    try discriminate; try lia;
    injection Hp as <-; injection Hq as <-; vm_compute; discriminate.
Qed.

Lemma one_edge_ascending : ascending [0%Q].
Proof.
  intros p q a b Hpq Hp Hq.
  destruct p as [|p], q as [|q]; simpl in Hp, Hq; try discriminate.
  injection Hp as <-. injection Hq as <-. apply Qle_refl.
Qed.

Lemma locate_cell_witness :
  ascending [0%Q; 1%Q; 2%Q] ∧ ascending [0%Q] ∧
  locate_in [0%Q; 1%Q; 2%Q] [0%Q; 1%Q; 2%Q] [0%Q] (Examples.unit_mesh 1 3 3)
    (1 # 2, 3 # 2, 1 # 2)%Q = Some 3.
Proof.
  split; [exact unit_edges_ascending|]. split; [exact one_edge_ascending|].
  apply (locate_cell [0%Q; 1%Q; 2%Q] [0%Q; 1%Q; 2%Q] [0%Q]
           (Examples.unit_mesh 1 3 3) 0 3 0 3 0 1 1 3 3
           (1 # 2) (3 # 2) (1 # 2) 0 1 0 0 1 0 eq_refl eq_refl
           unit_edges_ascending unit_edges_ascending one_edge_ascending);
    try reflexivity;
    try (vm_compute; intros H; discriminate H);
    try (intros e He; injection He as <-; vm_compute; intros H; discriminate H);
    try (intros e He; discriminate He).
Defined.

Lemma locate_lower_face_witness :
  locate (Examples.unit_mesh 1 3 3) (0, 3 # 2, 1 # 2)%Q = Some 2.
Proof.
  exact (locate_lower_face (Examples.unit_mesh 1 3 3) 0 3 0 3 0 1 1 1 1 1 3 3
           (3 # 2) (1 # 2) eq_refl eq_refl eq_refl
           ltac:(vm_compute; intros H; discriminate H)
           ltac:(vm_compute; intros H; discriminate H)
           ltac:(vm_compute; intros H; discriminate H)
           ltac:(vm_compute; intros H; discriminate H)
           ltac:(vm_compute; intros H; discriminate H)).
Defined.

Lemma sow_Ok_witness :
  ∃ seeds,
    sow (Examples.unit_mesh 1 3 3)
        [((1 # 2, 3 # 2, 1 # 2)%Q, Examples.density 1000);
         ((1 # 2, 3 # 2, 1 # 2)%Q, Examples.magnetization 1)] = Ok seeds ∧
    length seeds = 2%nat ∧ duplicates seeds = [] ∧ Pairwise claims_apart seeds.
Proof.
  destruct (sow (Examples.unit_mesh 1 3 3)
              [((1 # 2, 3 # 2, 1 # 2)%Q, Examples.density 1000);
               ((1 # 2, 3 # 2, 1 # 2)%Q, Examples.magnetization 1)])
    as [seeds|e] eqn:Hs; [|vm_compute in Hs; discriminate].
  exists seeds. split; [reflexivity|].
  destruct (sow_Ok _ _ _ Hs) as (H1 & _ & H3 & H4).
  split; [exact H1|]. split; [exact H3|exact H4].
Defined.

(** ** Writing the estimate and reading it back *)

Lemma in_estimate_true estimate c :
  in_estimate estimate c = true ↔
  ∃ p, is_Some (props c !! p) ∧ ¬ (est_get estimate p (index c) == 0)%Q.
Proof.
  unfold in_estimate. rewrite existsb_exists. split.
  - intros ([p v] & Hin & Hnz). simpl in Hnz.
    apply list_elem_of_In, elem_of_map_to_list in Hin.
    exists p. split; [by rewrite Hin|]. by apply nonzero_true.
  - intros (p & [v Hv] & Hnz). exists (p, v). split.
    + by apply list_elem_of_In, elem_of_map_to_list.
    + simpl. by apply nonzero_true.
Qed.

(** X20: what is written to the estimate is what is read back.  After
    the properties of a cell are written, every one of them reads back at
    the index of the cell with the value written; [in_estimate] then
    reports the cell exactly when one of the values written is not zero,
    so a cell written with zeros only still counts as free; and for a
    cell at any other index [in_estimate] answers as before. *)
Theorem set_props_in_estimate estimate c :
  (∀ p v, props c !! p = Some v →
     est_get (set_props estimate c) p (index c) = v) ∧
  (in_estimate (set_props estimate c) c = true ↔
   ∃ p v, props c !! p = Some v ∧ ¬ (v == 0)%Q) ∧
  (∀ c', index c' ≠ index c →
     in_estimate (set_props estimate c) c' = in_estimate estimate c').
Proof.
  split; [|split].
  - intros p v Hv. rewrite est_get_set_props, decide_True by done.
    by rewrite Hv.
  - rewrite in_estimate_true. split.
    + intros (p & [v Hv] & Hnz). exists p, v. split; [done|].
      rewrite est_get_set_props, decide_True, Hv in Hnz by done. exact Hnz.
    + intros (p & v & Hv & Hnz). exists p. split; [by rewrite Hv|].
      rewrite est_get_set_props, decide_True, Hv by done. exact Hnz.
  - intros c' Hne. apply Bool.eq_iff_eq_true. rewrite !in_estimate_true.
    split; intros (p & Hp & Hnz); exists p; (split; [exact Hp|]).
    + by rewrite est_get_set_props, decide_False in Hnz.
    + by rewrite est_get_set_props, decide_False.
Qed.

(** ** What never goes wrong in [grow], and what does in [SeedPrism.grow] *)

Section GrowSafe.
Context {F D J : Type}.
Variable mesh : Mesh F.
Variable dm_update : D → Cell → D.
Variable dm_total_misfit : D → Q.
Variable jury : J → Cell → list Neighbor → gmap string (gmap Z Q) → D → Q →
  Z → Z → Result (option (nat * Q) * J).

Lemma neighborhood_length_kept n :
  kept mesh dm_update jury (λ st, length (neighborhood st) = n).
Proof.
  intros it nseeds k seed st Hst. unfold try_seed.
  destruct (neighborhood st !! k) as [l|] eqn:Hk; [|done].
  destruct (jury _ _ _ _ _ _ _ _) as [[[[j g]|] js]|e]; [| |done].
  - destruct (l !! j) as [best|] eqn:Hj; [|done].
    simpl. by rewrite !length_insert.
  - done.
Qed.

Lemma neighborhood_length_init seeds (dms : D) (js : J) :
  length (neighborhood (grow_init mesh dm_update dm_total_misfit seeds dms js))
  = length seeds.
Proof.
  unfold grow_init. simpl.
  set (est := foldl set_props _ seeds). clearbody est.
  assert (Hgen : ∀ todo hood,
    length (foldl (λ hood seed, hood ++ [fresh_neighbors mesh est hood seed])
                  hood todo) = (length hood + length todo)%nat).
  { induction todo as [|s todo IH]; intros hood; simpl; [lia|].
    rewrite IH, length_app. simpl. lia. }
  by rewrite Hgen.
Qed.

(** X21: [grow] keeps one frontier per seed.  In every changeset the
    neighbourhood has as many entries as there are seeds, so that the loop
    over [zip(seeds, neighborhood)] reaches every seed in every pass;
    and in every changeset the record counts the seeds and one accretion
    per changeset before it. *)
Theorem grow_one_frontier_per_seed seeds (dms : D) (js : J) i st :
  grow mesh dm_update dm_total_misfit jury seeds dms js !! i = Some st →
  length (neighborhood st) = length seeds ∧
  length (harvested st) = (length seeds + i)%nat.
Proof.
  intros Hi. split; [|by eapply grow_count].
  pose proof (grow_kept mesh dm_update dm_total_misfit jury
                (λ st, length (neighborhood st) = length seeds) seeds dms js
                (neighborhood_length_kept (length seeds))
                (neighborhood_length_init seeds dms js)) as Hall.
  rewrite Forall_forall in Hall. apply Hall. by eapply list_elem_of_lookup_2.
Qed.

Variables it nseeds : Z.
Hypothesis jury_ok : jury_answers jury it nseeds.

Lemma try_seed_answers k seed (st : State D J) :
  match try_seed mesh dm_update jury it nseeds k seed st with
  | Failed _ => False
  | _ => True
  end.
Proof.
  unfold try_seed.
  destruct (neighborhood st !! k) as [l|]; [|done].
  pose proof (jury_ok (jury_state st) seed l (estimate st) (datamods st) (goal st))
    as Hj.
  destruct (jury _ _ _ _ _ _ _ _) as [[[[j g]|] js]|e]; [| |done].
  - destruct Hj as [best Hbest]. by rewrite Hbest.
  - done.
Qed.

Lemma sweep_answers todo (st : State D J) onegrew :
  (sweep mesh dm_update jury it nseeds todo st onegrew).2 = None.
Proof.
  revert st onegrew.
  induction todo as [|[k seed] todo IH]; intros st onegrew; simpl; [done|].
  pose proof (try_seed_answers k seed st) as Hstep.
  destruct (try_seed _ _ _ _ _ _ _ _) as [st1|st1|e]; [| |done].
  - specialize (IH st1 true).
    by destruct (sweep _ _ _ _ _ _ _ _) as [[[ys st2] g] e].
  - apply IH.
Qed.

End GrowSafe.

(** ** The estimate has a list for every property of the frontier *)

Lemma set_props_keys estimate c p :
  is_Some (estimate !! p) → is_Some (set_props estimate c !! p).
Proof.
  intros H. unfold set_props.
  apply (map_fold_weak_ind (λ e (m : Props), is_Some (e !! p))); [exact H|].
  intros q v m e Hq IH. unfold est_set.
  destruct (decide (q = p)) as [->|Hqp].
  - rewrite lookup_insert_eq. by eexists.
  - by rewrite lookup_insert_ne.
Qed.

Lemma declare_props_keys estimate c p :
  is_Some (estimate !! p) → is_Some (declare_props estimate c !! p).
Proof.
  intros H. unfold declare_props.
  apply (map_fold_weak_ind (λ e (m : Props), is_Some (e !! p))); [exact H|].
  intros q v m e Hq IH. destruct (e !! q) eqn:He; [exact IH|].
  destruct (decide (q = p)) as [->|Hqp].
  - rewrite lookup_insert_eq. by eexists.
  - by rewrite lookup_insert_ne.
Qed.

Lemma declare_props_declared estimate c : declared (declare_props estimate c) c.
Proof.
  intros p [v Hp]. revert p v Hp. unfold declare_props.
  apply (map_fold_weak_ind (λ e (m : Props),
           ∀ p v, m !! p = Some v → is_Some (e !! p))).
  - intros p v Hp. by rewrite lookup_empty in Hp.
  - intros q w m e Hq IH p v Hp. destruct (decide (q = p)) as [->|Hne].
    + destruct (e !! p) eqn:He; [by rewrite He|].
      rewrite lookup_insert_eq. by eexists.
    + rewrite lookup_insert_ne in Hp by done. specialize (IH p v Hp).
      destruct (e !! q) eqn:He; [exact IH|]. by rewrite lookup_insert_ne.
Qed.

Lemma foldl_set_props_keys estimate seeds p :
  is_Some (estimate !! p) → is_Some (foldl set_props estimate seeds !! p).
Proof.
  revert estimate. induction seeds as [|s seeds IH]; intros estimate H; simpl;
    [exact H|].
  by apply IH, set_props_keys.
Qed.

Lemma foldl_declare_props_declared estimate seeds s :
  s ∈ seeds → declared (foldl declare_props estimate seeds) s.
Proof.
  revert estimate. induction seeds as [|s0 seeds IH]; intros estimate Hs;
    [inversion Hs|].
  simpl. apply elem_of_cons in Hs as [->|Hs]; [|by apply IH].
  intros p Hp.
  assert (Hgen : ∀ l e, is_Some (e !! p) → is_Some (foldl declare_props e l !! p)).
  { induction l as [|x l IHl]; intros e He; simpl; [exact He|].
    by apply IHl, declare_props_keys. }
  by apply Hgen, declare_props_declared.
Qed.

Section GrowDeclared.
Context {F D J : Type}.
Variable mesh : Mesh F.
Variable dm_update : D → Cell → D.
Variable dm_total_misfit : D → Q.
Variable jury : J → Cell → list Neighbor → gmap string (gmap Z Q) → D → Q →
  Z → Z → Result (option (nat * Q) * J).

(** A new frontier entry and the cells stored around it carry the
    properties of the cell the entry was found around. *)
Lemma fresh_neighbors_declared est est' hood c n :
  declared est' c → n ∈ fresh_neighbors mesh est hood c →
  declared est' (cell n) ∧ ∀ c', c' ∈ around n → declared est' c'.
Proof.
  intros Hc Hn. unfold fresh_neighbors in Hn.
  apply list_elem_of_fmap in Hn as (c0 & -> & Hc0).
  unfold not_neighbors, free_neighbors in Hc0.
  apply elem_of_List_filter in Hc0 as [Hc0 _].
  apply elem_of_List_filter in Hc0 as [Hc0 _].
  apply find_neighbors_props in Hc0. simpl.
  assert (H0 : declared est' c0).
  { intros p Hp. apply Hc. by rewrite <- Hc0. }
  split; [exact H0|]. intros c' Hc'. apply find_neighbors_props in Hc'.
  intros p Hp. apply H0. by rewrite <- Hc'.
Qed.

Lemma frontier_declared_kept : kept mesh dm_update jury frontier_declared.
Proof.
  intros it nseeds k seed st Hst. unfold try_seed.
  destruct (neighborhood st !! k) as [l|] eqn:Hk; [|exact Hst].
  destruct (jury _ _ _ _ _ _ _ _) as [[[[j g]|] js]|e]; [| |done].
  - destruct (l !! j) as [best|] eqn:Hj; [|done].
    assert (Hbest : declared (set_props (estimate st) (cell best)) (cell best)).
    { intros p Hp. apply set_props_keys.
      by apply (Hst k l best Hk (list_elem_of_lookup_2 _ _ _ Hj)). }
    assert (Hold : ∀ n, n ∈ l →
              declared (set_props (estimate st) (cell best)) (cell n) ∧
              ∀ c, c ∈ around n →
                   declared (set_props (estimate st) (cell best)) c).
    { intros n Hn. destruct (Hst k l n Hk Hn) as [H1 H2].
      split; [intros p Hp; by apply set_props_keys, H1|].
      intros c Hc p Hp. by apply set_props_keys, (H2 c Hc). }
    intros k' l' n Hk' Hn. simpl in Hk'. simpl.
    destruct (decide (k' = k)) as [->|Hne].
    + rewrite list_lookup_insert_eq in Hk'
        by (rewrite length_insert; by eapply lookup_lt_Some).
      injection Hk' as <-.
      apply elem_of_app in Hn as [Hn|Hn].
      * apply Hold. by eapply list_elem_of_delete_inv.
      * by eapply fresh_neighbors_declared.
    + rewrite !list_lookup_insert_ne in Hk' by done.
      destruct (Hst k' l' n Hk' Hn) as [H1 H2].
      split; [intros p Hp; by apply set_props_keys, H1|].
      intros c Hc p Hp. by apply set_props_keys, (H2 c Hc).
  - exact Hst.
Qed.

(** The first changeset of [grow]: the properties of every seed were
    given a sparse list before anything else. *)
Lemma frontier_declared_init seeds (dms : D) (js : J) :
  frontier_declared (grow_init mesh dm_update dm_total_misfit seeds dms js).
Proof.
  unfold grow_init, frontier_declared. simpl.
  assert (Hseeds : ∀ s, s ∈ seeds →
            declared (foldl set_props (foldl declare_props ∅ seeds) seeds) s).
  { intros s Hs p Hp. apply foldl_set_props_keys.
    by apply (foldl_declare_props_declared ∅ seeds s Hs). }
  set (est := foldl set_props _ seeds) in *. clearbody est.
  assert (Hgen : ∀ todo hood,
    (∀ s, s ∈ todo → declared est s) →
    (∀ k l n, hood !! k = Some l → n ∈ l →
       declared est (cell n) ∧ ∀ c, c ∈ around n → declared est c) →
    ∀ k l n,
      foldl (λ hood seed, hood ++ [fresh_neighbors mesh est hood seed]) hood todo
        !! k = Some l → n ∈ l →
      declared est (cell n) ∧ ∀ c, c ∈ around n → declared est c).
  { induction todo as [|s todo IH]; intros hood Htodo Hhood; simpl; [exact Hhood|].
    apply IH; [intros x Hx; apply Htodo; by right|].
    intros k l n Hk Hn. apply lookup_app_Some in Hk as [Hk|[_ Hk]].
    - by eapply Hhood.
    - apply list_lookup_singleton_Some in Hk as [_ <-].
      eapply fresh_neighbors_declared; [|exact Hn]. apply Htodo. by left. }
  apply Hgen; [exact Hseeds|]. intros k l n Hk. by rewrite lookup_nil in Hk.
Qed.

End GrowDeclared.

Section ModuleJuries.
Context {DMod Vec Reg : Type}.
Variable new_predicted : DMod → Neighbor → Vec.
Variable dm_misfit : DMod → Vec → Q.
Variable shape_of_anomaly : DMod → Vec → Q.
Variable reg_call : Reg → Neighbor → Cell → Q * Reg.
Variable reg_update : Reg → Neighbor → Reg.

Hypothesis misfit_nonneg : ∀ dm v, (0 <= dm_misfit dm v)%Q.
Hypothesis reg_nonneg : ∀ r n s, (0 <= (reg_call r n s).1)%Q.

Lemma candidate_misfit_nonneg datamods n :
  (0 <= candidate_misfit new_predicted dm_misfit datamods n)%Q.
Proof.
  unfold candidate_misfit, qsum.
  assert (Hgen : ∀ (l : list Q) acc, (0 <= acc)%Q → Forall (λ x, (0 <= x)%Q) l →
                                     (0 <= foldl Qplus acc l)%Q).
  { induction l as [|x l IH]; intros acc Hacc Hl; simpl; [exact Hacc|].
    inversion Hl as [|? ? Hx Hl']; subst. apply IH; [|exact Hl'].
    rewrite <- (Qplus_0_r 0). by apply Qplus_le_compat. }
  apply Hgen; [apply Qle_refl|].
  apply Forall_fmap, Forall_forall. intros dm _. apply misfit_nonneg.
Qed.

Lemma reg_calls_nonneg r seed cands :
  Forall (λ v, (0 <= v)%Q) (reg_calls reg_call r seed cands).1.
Proof.
  revert r. induction cands as [|n cands IH]; intros r; simpl; [constructor|].
  pose proof (reg_nonneg r n seed) as Hv.
  destruct (reg_call r n seed) as [v r1].
  specialize (IH r1). destruct (reg_calls reg_call r1 seed cands) as [vs r2].
  simpl in *. by constructor.
Qed.

Lemma shape_goals_nonneg regularizer seed datamods left i n g :
  (i, n, g) ∈ (shape_goals new_predicted dm_misfit reg_call regularizer seed
                 datamods left).1 →
  (0 <= g)%Q.
Proof.
  unfold shape_goals. destruct regularizer as [r|].
  - pose proof (reg_calls_nonneg r seed left.*2) as Hregs.
    destruct (reg_calls reg_call r seed left.*2) as [regs r']. simpl in *.
    intros H. apply elem_of_zip_with in H as ([[i' n'] m] & v & Heq & Hin & Hv).
    injection Heq as -> -> ->.
    apply list_elem_of_fmap in Hin as ([j k] & Heq & Hin).
    injection Heq as -> -> ->.
    rewrite Forall_forall in Hregs. specialize (Hregs v Hv).
    pose proof (candidate_misfit_nonneg datamods k) as Hm.
    rewrite <- (Qplus_0_r 0). by apply Qplus_le_compat.
  - simpl. intros H. apply list_elem_of_fmap in H as ([j k] & Heq & Hin).
    injection Heq as -> -> ->. apply candidate_misfit_nonneg.
Qed.

(** The test of the juries answers for a candidate value that is not
    negative: the quotient is computed only under a positive current
    value. *)
Lemma decreases_answers thresh goal g :
  (0 <= g)%Q → ∃ b, decreases thresh goal g = Ok b.
Proof.
  intros Hg. unfold decreases. destruct (Qltb g goal) eqn:Hlt; [|eauto].
  apply Qltb_true in Hlt. rewrite fdiv_Ok; [simpl; eauto|].
  intros H0. rewrite H0 in Hlt. by eapply Qlt_not_le.
Qed.

Lemma standard_jury_answers thresh it nseeds :
  jury_answers (the_standard_jury new_predicted dm_misfit reg_call reg_update thresh)
               it nseeds.
Proof.
  intros js seed neighbors estimate dms goal. unfold the_standard_jury.
  assert (Hdec : ∃ decreased,
            standard_decreased new_predicted dm_misfit thresh neighbors dms goal
            = Ok decreased).
  { unfold standard_decreased. eexists. apply filterM_total.
    intros [[i n] m] Hin. apply list_elem_of_fmap in Hin as ([j k] & Heq & _).
    injection Heq as -> -> ->. apply decreases_answers, candidate_misfit_nonneg. }
  destruct Hdec as [decreased Hdec].
  pose proof (standard_jury_best new_predicted dm_misfit reg_call reg_update js
                thresh seed neighbors estimate dms goal it nseeds decreased Hdec)
    as Hb.
  cbv zeta in Hb.
  destruct (standard_jury _ _ _ _ _ _ _ _ _ _ _ _ _) as [[[[j g]|] r]|e]; [| |done].
  - destruct Hb as (pos & n & g' & Hpos & _).
    apply list_elem_of_lookup_2 in Hpos.
    apply (elem_of_standard_decreased _ _ _ _ _ _ _ _ _ _ Hdec) in Hpos as [Hn _].
    by rewrite Hn.
  - done.
Qed.

Lemma shape_jury_answers thresh maxcmp it nseeds :
  nseeds ≠ 0 →
  jury_answers (the_shape_jury new_predicted dm_misfit shape_of_anomaly reg_call
                  reg_update thresh maxcmp) it nseeds.
Proof.
  intros Hn js seed neighbors estimate dms goal. unfold the_shape_jury.
  pose proof (shape_jury_None new_predicted dm_misfit shape_of_anomaly reg_call
                reg_update js thresh maxcmp seed neighbors estimate dms goal it
                nseeds _ (compact_threshold_Ok _ _ _ Hn)) as HN.
  cbv zeta in HN.
  assert (Hans : ∀ i n g,
            (i, n, g) ∈ (shape_goals new_predicted dm_misfit reg_call js seed dms
                           (shape_left (Z.min (1 + it / nseeds) maxcmp)
                              neighbors estimate)).1 →
            ∃ b, decreases thresh goal g = Ok b).
  { intros i n g Hin. eapply decreases_answers, shape_goals_nonneg, Hin. }
  specialize (HN Hans).
  destruct (shape_jury _ _ _ _ _ _ _ _ _ _ _ _ _ _ _) as [[[[j g]|] r]|e] eqn:Hj;
    [| |done].
  - apply shape_jury_Some in Hj as (n & c & _ & _ & Hnb & _). by rewrite Hnb.
  - done.
Qed.

(** X22: with either jury of the module a pass of [grow] does not end in
    an exception, when the run has a seed, no data misfit and no value of
    the regularizer is negative, and the estimate has a sparse list for
    every property of the frontier.  [standard_jury] and [shape_jury]
    then answer every call, and the position they return is a position
    of the frontier they were given, so [neighbors[j]] does not fail;
    and the pass leaves an estimate that again has a sparse list for
    every property of the frontier, as the first changeset of [grow]
    has. *)
Theorem grow_pass_never_raises {F} (mesh : Mesh F)
    (dm_update : list DMod → Cell → list DMod) thresh maxcmp it nseeds todo
    (st : State (list DMod) (option Reg)) onegrew :
  nseeds ≠ 0 →
  frontier_declared st →
  let standard :=
    sweep mesh dm_update
      (the_standard_jury new_predicted dm_misfit reg_call reg_update thresh)
      it nseeds todo st onegrew in
  let shaped :=
    sweep mesh dm_update
      (the_shape_jury new_predicted dm_misfit shape_of_anomaly reg_call reg_update
         thresh maxcmp)
      it nseeds todo st onegrew in
  standard.2 = None ∧ frontier_declared standard.1.1.2 ∧
  shaped.2 = None ∧ frontier_declared shaped.1.1.2.
Proof.
  intros Hn Hst. cbv zeta.
  split; [apply sweep_answers, standard_jury_answers|].
  split; [apply sweep_kept; [apply frontier_declared_kept|exact Hst]|].
  split; [by apply sweep_answers, shape_jury_answers|].
  apply sweep_kept; [apply frontier_declared_kept|exact Hst].
Qed.

End ModuleJuries.

Lemma mapM_Raise {A B} (f : A → Result B) (l : list A) (e : Exn) :
  (∀ x, x ∈ l → f x = Raise e ∨ ∃ y, f x = Ok y) →
  (∃ x, x ∈ l ∧ f x = Raise e) →
  mapM f l = Raise e.
Proof.
  induction l as [|a l IH]; intros Hall (x & Hx & Hfx).
  - inversion Hx.
  - change (mapM f (a :: l)) with (y ← f a; k ← mapM f l; mret (y :: k)).
    destruct (Hall a ltac:(by left)) as [Ha|[y Ha]]; rewrite Ha; [reflexivity|].
    simpl. rewrite IH; [reflexivity| |].
    + intros x' Hx'. apply Hall. by right.
    + apply elem_of_cons in Hx as [->|Hx]; [congruence|]. by exists x.
Qed.

Section SeedErrors.
Variable linalg_norm : list Q → Z → Q.
Variable effect_of_prism : Z → Props → list Q.
Variable _compact_judge :
  Seed.t → list Q → list Q → Q → Q → Result (option (nat * Q * Q)).
Variable _update_neighbors : nat → nat → list Seed.t → list Seed.t.

(** X23: [SeedPrism.grow] needs a recorded distance for every cell of
    the frontier.  When the seed has a frontier cell whose index is not a
    key of [self.distance] the call raises [KeyError], whatever the data,
    the other seeds and the judge. *)
Theorem seed_grow_KeyError k dms seeds goal misfit self n :
  seeds !! k = Some self →
  n ∈ Seed.neighbors self →
  Seed.distance self !! index n = None →
  Seed.grow linalg_norm effect_of_prism _compact_judge _update_neighbors
    k dms seeds goal misfit = Raise KeyError.
Proof.
  intros Hk Hn Hd.
  unfold Seed.grow. rewrite (proj2 (item_Ok _ _ _) Hk). simpl.
  pose proof (testdrives_length linalg_norm effect_of_prism dms (Seed.neighbors self))
    as Hlen.
  destruct (Seed.testdrives _ _ dms (Seed.neighbors self)) as [misfits dms'].
  simpl in Hlen.
  rewrite (mapM_Raise _ _ KeyError); [reflexivity| |].
  - intros [n' m] _. unfold Seed.goal_of.
    destruct (Seed.distance self !! index n'); [right; by eexists|by left].
  - apply list_elem_of_lookup in Hn as [i Hi].
    destruct (lookup_lt_is_Some_2 misfits i) as [m Hm].
    { rewrite Hlen. by eapply lookup_lt_Some. }
    exists (n, m). split.
    + apply (list_elem_of_lookup_2 _ i). apply lookup_zip_with_Some. eauto.
    + unfold Seed.goal_of. by rewrite Hd.
Qed.

End SeedErrors.

Lemma grow_one_frontier_per_seed_witness :
  ∃ st,
    Examples.halving_grow (Examples.unit_mesh 1 1 3) Examples.middle_seed !! 2%nat
      = Some st ∧
    length (neighborhood st) = 1%nat ∧ length (harvested st) = 3%nat.
Proof.
  destruct (halving_middle_lookup 2 ltac:(lia)) as [st Hst].
  exists st. split; [exact Hst|].
  exact (grow_one_frontier_per_seed (Examples.unit_mesh 1 1 3) Examples.halving_update
           qsum Examples.halving_jury Examples.middle_seed [1%Q] None 2 st Hst).
Defined.

Lemma seed_grow_KeyError_witness :
  Seed.grow Examples.l1_norm Examples.overshoot Seed._compact_judge_pass
    Seed._update_neighbors_pass 0 [Examples.one_point_module] [unmeasured_seed]
    1%Q 1%Q
  = Raise KeyError.
Proof.
  exact (seed_grow_KeyError Examples.l1_norm Examples.overshoot
           Seed._compact_judge_pass Seed._update_neighbors_pass 0
           [Examples.one_point_module] [unmeasured_seed] 1%Q 1%Q unmeasured_seed
           (mkCell 1 (Examples.density 1)) eq_refl ltac:(by left) eq_refl).
Defined.


Lemma grow_pass_never_raises_witness :
  1 ≠ 0 ∧
  (∀ dm v : Q, (0 <= Examples.size_misfit dm v)%Q) ∧
  frontier_declared
    (grow_init (Examples.unit_mesh 1 1 3) Examples.halving_update qsum
       Examples.middle_seed [1%Q] (None : option unit)) ∧
  (sweep (Examples.unit_mesh 1 1 3) Examples.halving_update
     (the_standard_jury Examples.halving_new_predicted Examples.size_misfit
        (λ (r : unit) _ _, (0%Q, r)) (λ r _, r) (1 # 10000)%Q)
     0 1 (enumerate Examples.middle_seed)
     (grow_init (Examples.unit_mesh 1 1 3) Examples.halving_update qsum
        Examples.middle_seed [1%Q] None) false).2 = None ∧
  (sweep (Examples.unit_mesh 1 1 3) Examples.halving_update
     (the_shape_jury Examples.halving_new_predicted Examples.size_misfit
        Examples.size_misfit (λ (r : unit) _ _, (0%Q, r)) (λ r _, r)
        (1 # 10000)%Q 4)
     0 1 (enumerate Examples.middle_seed)
     (grow_init (Examples.unit_mesh 1 1 3) Examples.halving_update qsum
        Examples.middle_seed [1%Q] None) false).2 = None.
Proof.
  assert (H1 : 1 ≠ 0) by lia.
  assert (H2 : ∀ dm v : Q, (0 <= Examples.size_misfit dm v)%Q).
  { intros dm v. apply Qabs_nonneg. }
  assert (H3 : ∀ (r : unit) (n : Neighbor) (s : Cell),
            (0 <= ((λ (r : unit) (_ : Neighbor) (_ : Cell), (0%Q, r)) r n s).1)%Q).
  { intros r n s. apply Qle_refl. }
  pose proof (frontier_declared_init (Examples.unit_mesh 1 1 3)
                Examples.halving_update qsum Examples.middle_seed [1%Q]
                (None : option unit)) as H4.
  split; [exact H1|]. split; [exact H2|]. split; [exact H4|].
  destruct (grow_pass_never_raises
              Examples.halving_new_predicted Examples.size_misfit
              Examples.size_misfit (λ (r : unit) _ _, (0%Q, r)) (λ r _, r)
              H2 H3 (Examples.unit_mesh 1 1 3) Examples.halving_update
              (1 # 10000)%Q 4 0 1 (enumerate Examples.middle_seed)
              (grow_init (Examples.unit_mesh 1 1 3) Examples.halving_update qsum
                 Examples.middle_seed [1%Q] None) false H1 H4)
    as (Ha & _ & Hb & _).
  split; [exact Ha|exact Hb].
Defined.

(** ** The record and the state of a run *)

Section GrowRecord.
Context {F D J : Type}.
Variable mesh : Mesh F.
Variable dm_update : D → Cell → D.
Variable dm_total_misfit : D → Q.
Variable jury : J → Cell → list Neighbor → gmap string (gmap Z Q) → D → Q →
  Z → Z → Result (option (nat * Q) * J).

Lemma written_in_order_kept seeds (dms : D) :
  kept mesh dm_update jury (λ st,
    estimate st = foldl set_props (foldl declare_props ∅ seeds) (harvested st).*2 ∧
    datamods st = foldl dm_update dms (harvested st).*2).
Proof.
  intros it nseeds k seed st [He Hd]. unfold try_seed.
  destruct (neighborhood st !! k) as [l|] eqn:Hk; [|done].
  destruct (jury _ _ _ _ _ _ _ _) as [[[[j g]|] js]|e]; [| |done].
  - destruct (l !! j) as [best|] eqn:Hj; [|done].
    simpl. rewrite fmap_app, !foldl_app. simpl. by rewrite <- He, <- Hd.
  - done.
Qed.

(** X24: the state of a run is what its record says.  In every changeset
    the estimate is the empty estimate with the seeds and then the
    accretions written to it in the order they were made, and the data
    modules are the ones given with [update] called for the same cells in
    the same order: no cell is written without being passed to the data
    modules, none is passed twice, and nothing is ever taken back. *)
Theorem grow_state_follows_record seeds (dms : D) (js : J) st :
  st ∈ grow mesh dm_update dm_total_misfit jury seeds dms js →
  estimate st = foldl set_props (foldl declare_props ∅ seeds) (harvested st).*2 ∧
  datamods st = foldl dm_update dms (harvested st).*2 ∧
  take (length seeds) (harvested st).*2 = seeds.
Proof.
  intros Hst.
  pose proof (grow_kept mesh dm_update dm_total_misfit jury _ seeds dms js
                (written_in_order_kept seeds dms)) as Hall.
  rewrite Forall_forall in Hall.
  destruct (Hall ltac:(unfold grow_init; simpl; by rewrite snd_enumerate) st Hst)
    as [He Hd].
  split; [exact He|]. split; [exact Hd|].
  pose proof (grow_kept mesh dm_update dm_total_misfit jury
                (λ st, seeds_recorded seeds (harvested st))
                seeds dms js (seeds_recorded_kept mesh dm_update jury seeds)) as Hrec.
  rewrite Forall_forall in Hrec.
  assert (Hr : seeds_recorded seeds (harvested st)).
  { apply Hrec; [|exact Hst].
    intros k s Hk. unfold grow_init. simpl. by rewrite lookup_enumerate, Hk. }
  apply list_eq. intros k.
  destruct (decide (k < length seeds)%nat) as [Hlt|Hge].
  - rewrite lookup_take_lt by done.
    destruct (lookup_lt_is_Some_2 seeds k Hlt) as [s Hs].
    rewrite Hs, list_lookup_fmap, (Hr k s Hs). done.
  - rewrite lookup_take_ge by lia. symmetry. apply lookup_ge_None_2. lia.
Qed.

End GrowRecord.

Lemma grow_state_follows_record_witness :
  ∃ st,
    Examples.halving_grow (Examples.unit_mesh 1 1 3) Examples.middle_seed !! 2%nat
      = Some st ∧
    length (harvested st) = 3%nat ∧
    estimate st
    = foldl set_props (foldl declare_props ∅ Examples.middle_seed) (harvested st).*2 ∧
    datamods st = foldl Examples.halving_update [1%Q] (harvested st).*2.
Proof.
  destruct (halving_middle_lookup 2 ltac:(lia)) as [st Hst].
  exists st. split; [exact Hst|]. split.
  { vm_compute in Hst. injection Hst as <-. reflexivity. }
  destruct (grow_state_follows_record (Examples.unit_mesh 1 1 3)
              Examples.halving_update qsum Examples.halving_jury
              Examples.middle_seed [1%Q] None st
              (list_elem_of_lookup_2 _ _ _ Hst)) as (He & Hd & _).
  split; [exact He|exact Hd].
Defined.
